(** * Patchwork Gaussian process: covariance dispatch and block algebra

    A shallow embedding of [albatross/src/models/patchwork_gp.hpp] (group and
    boundary features, the patchwork covariance caller, the block operations
    over [Grouped] collections, boundary construction, the prediction entry
    point), of [Distribution] from [albatross/core/distribution.h], of the
    subsets and cross-validation folds of [albatross/core/indexing.h], and
    of the two helpers of the cross-validation tests in
    [tests/test_evaluate.cc].

    Conventions of the embedding:
    - a C++ [double] is an IEEE-754 binary64 value ([spec_float] with
      precision 53 and maximal exponent 1024);
    - a failed [assert] (assertions are enabled) and a [std::out_of_range]
      thrown by [at] are the two ways a call ends without a value; they are
      the errors of [result];
    - a [Grouped<Key, Value>] is the list of its entries in the order its
      [keys()] enumerates them;
    - the overload set of a caller is a function on a sum of the feature
      kinds that answers [None] where C++ finds no viable overload;
    - a [std::map] is the list of its entries in the strictly increasing
      order of their keys, and an index outside a [std::vector] ends the
      call like a failed assertion. *)

From Stdlib Require Import ZArith.
From Stdlib Require Import Floats.SpecFloat.
From Stdlib Require Import DecimalString DecimalNat OrderedTypeEx.
From stdpp Require Import base tactics numbers option list strings sorting.

Set Default Proof Using "Type".
#[local] Set Warnings "-clear-no-such-hyp".

(* ===================================================================== *)
(** * Part I: the model                                                   *)
(* ===================================================================== *)

(** ** C++ [double] *)

Module Double.

Definition prec : Z := 53%Z.
Definition emax : Z := 1024%Z.

Definition double : Type := spec_float.

(** The literal [0.] *)
Definition zero : double := S754_zero false.

(** The macro [NAN] *)
Definition NAN : double := S754_nan.

(** Conversion of an [int] operand, as in [2 * x]. *)
Definition of_int (n : Z) : double := binary_normalize prec emax n 0%Z false.

(** Unary minus. *)
Definition neg (x : double) : double := SFopp x.

Definition add (x y : double) : double := SFadd prec emax x y.
Definition sub (x y : double) : double := SFsub prec emax x y.
Definition mul (x y : double) : double := SFmul prec emax x y.
Definition div (x y : double) : double := SFdiv prec emax x y.

(** The comparison [x == y] of two doubles. *)
Definition eqb (x y : double) : bool := SFeqb x y.

End Double.

Abbreviation double := Double.double.

(** ** Calls that may end in an assertion failure or an exception *)

Inductive error : Type :=
| assertion_failure   (* [assert(...)] did not hold *)
| out_of_range.       (* [std::map::at] on a missing key *)

Inductive result (A : Type) : Type :=
| Ok (a : A)
| Err (e : error).

Arguments Ok {A} a.
Arguments Err {A} e.

#[global] Instance result_ret : MRet result := λ A, @Ok A.
#[global] Instance result_bind : MBind result := λ A B f m,
  match m with Ok a => f a | Err e => Err e end.
#[global] Instance result_fmap : FMap result := λ A B f m,
  match m with Ok a => Ok (f a) | Err e => Err e end.

Definition assert (b : bool) : result unit :=
  if b then Ok () else Err assertion_failure.

Definition is_Ok {A} (r : result A) : Prop := ∃ a, r = Ok a.
Definition is_Err {A} (r : result A) : Prop := ∃ e, r = Err e.

(** Runs [f] over a list from left to right and stops at the first failure. *)
Fixpoint result_mapM {A B} (f : A → result B) (l : list A) : result (list B) :=
  match l with
  | [] => Ok []
  | x :: l' => y ← f x; ys ← result_mapM f l'; Ok (y :: ys)
  end.

(** ** Group and boundary features *)

Module BoundaryFeature.
Record t (GroupKey FeatureType : Type) : Type := mk {
  lhs : GroupKey;
  rhs : GroupKey;
  feature : FeatureType
}.
Arguments mk {GroupKey FeatureType} lhs rhs feature.
Arguments lhs {GroupKey FeatureType} _.
Arguments rhs {GroupKey FeatureType} _.
Arguments feature {GroupKey FeatureType} _.
End BoundaryFeature.

Module GroupFeature.
Record t (GroupKey FeatureType : Type) : Type := mk {
  key : GroupKey;
  feature : FeatureType
}.
Arguments mk {GroupKey FeatureType} key feature.
Arguments key {GroupKey FeatureType} _.
Arguments feature {GroupKey FeatureType} _.
End GroupFeature.

Section Constructors.
Context {GroupKey FeatureType : Type}.

Definition as_boundary_feature (lhs rhs : GroupKey) (feature : FeatureType)
  : BoundaryFeature.t GroupKey FeatureType :=
  BoundaryFeature.mk lhs rhs feature.

(** [for (const auto &f : features) emplace_back(as_boundary_feature(lhs, rhs, f))] *)
Definition as_boundary_features (lhs rhs : GroupKey) (features : list FeatureType)
  : list (BoundaryFeature.t GroupKey FeatureType) :=
  foldl (λ boundary_features f, boundary_features ++ [as_boundary_feature lhs rhs f])
        [] features.

Definition as_group_feature (key : GroupKey) (feature : FeatureType)
  : GroupFeature.t GroupKey FeatureType :=
  GroupFeature.mk key feature.

(** The overload taking one key and a vector of features. *)
Definition as_group_features (key : GroupKey) (features : list FeatureType)
  : list (GroupFeature.t GroupKey FeatureType) :=
  foldl (λ group_features f, group_features ++ [as_group_feature key f])
        [] features.

End Constructors.

(** ** Covariance callers *)

(** The argument of a caller: a feature of one of the three kinds the
    overloads of [call] distinguish by type. *)
Inductive Arg (GroupKey FeatureType : Type) : Type :=
| Raw (f : FeatureType)
| Group (g : GroupFeature.t GroupKey FeatureType)
| Boundary (b : BoundaryFeature.t GroupKey FeatureType).

Arguments Raw {GroupKey FeatureType} f.
Arguments Group {GroupKey FeatureType} g.
Arguments Boundary {GroupKey FeatureType} b.

Module DefaultCaller.
(** Modelled from the spec: [DefaultCaller], which the covariance callers
    header defines outside the files embedded here.  On two raw features it
    is "the plain [k(a,b)] evaluator": the covariance function applied to
    them. *)
Definition call {FeatureType : Type}
  (cov_func : FeatureType → FeatureType → double) (x y : FeatureType) : double :=
  cov_func x y.
End DefaultCaller.

Module PatchworkCallerBase.
Section WithSubCaller.
Context {GroupKey FeatureType CovFunc : Type} `{EqDecision GroupKey}.
(** [SubCaller::call] on two raw features. *)
Context (SubCaller : CovFunc → FeatureType → FeatureType → double).

(** [call(cov_func, GroupFeature x, GroupFeature y)] *)
Definition call_group_group (cov_func : CovFunc)
  (x y : GroupFeature.t GroupKey FeatureType) : double :=
  if bool_decide (GroupFeature.key x = GroupFeature.key y) then
    SubCaller cov_func (GroupFeature.feature x) (GroupFeature.feature y)
  else
    Double.zero.

(** [call(cov_func, GroupFeature x, BoundaryFeature y)] *)
Definition call_group_boundary (cov_func : CovFunc)
  (x : GroupFeature.t GroupKey FeatureType)
  (y : BoundaryFeature.t GroupKey FeatureType) : double :=
  if bool_decide (GroupFeature.key x = BoundaryFeature.lhs y) then
    SubCaller cov_func (GroupFeature.feature x) (BoundaryFeature.feature y)
  else if bool_decide (GroupFeature.key x = BoundaryFeature.rhs y) then
    Double.neg (SubCaller cov_func (GroupFeature.feature x) (BoundaryFeature.feature y))
  else
    Double.zero.

(** [call(cov_func, BoundaryFeature x, BoundaryFeature y)]; [a != b] on keys
    is the negation of [a == b]. *)
Definition call_boundary_boundary (cov_func : CovFunc)
  (x y : BoundaryFeature.t GroupKey FeatureType) : double :=
  let k := SubCaller cov_func (BoundaryFeature.feature x) (BoundaryFeature.feature y) in
  let eq (a b : GroupKey) : bool := bool_decide (a = b) in
  let ne (a b : GroupKey) : bool := negb (bool_decide (a = b)) in
  let xl := BoundaryFeature.lhs x in
  let xr := BoundaryFeature.rhs x in
  let yl := BoundaryFeature.lhs y in
  let yr := BoundaryFeature.rhs y in
  if eq xl yl && eq xr yr then Double.mul (Double.of_int 2) k
  else if eq xl yl && ne xr yr then k
  else if ne xl yl && eq xr yr then k
  else if eq xl yr && ne xr yl then Double.neg k
  else if ne xl yr && eq xr yl then Double.neg k
  else Double.zero.

(** Overload resolution of [PatchworkCallerBase<SubCaller>::call]: the
    generic overload is enabled where the sub caller is valid (two raw
    features), the three others are selected by the feature types; for any
    other pair of kinds there is no viable overload. *)
Definition call (cov_func : CovFunc) (x y : Arg GroupKey FeatureType)
  : option double :=
  match x, y with
  | Raw fx, Raw fy => Some (SubCaller cov_func fx fy)
  | Group gx, Group gy => Some (call_group_group cov_func gx gy)
  | Group gx, Boundary by_ => Some (call_group_boundary cov_func gx by_)
  | Boundary bx, Boundary by_ => Some (call_boundary_boundary cov_func bx by_)
  | _, _ => None
  end.

End WithSubCaller.
End PatchworkCallerBase.

Module SymmetricCaller.
(** Modelled from the spec: [internal::SymmetricCaller], which the
    covariance callers header defines outside the files embedded here.  It
    "tries symmetric versions" of the caller it wraps: the wrapped call on
    [(x, y)] where that is valid, and otherwise the wrapped call on
    [(y, x)]. *)
Definition call {CovFunc X : Type}
  (SubCaller : CovFunc → X → X → option double)
  (cov_func : CovFunc) (x y : X) : option double :=
  match SubCaller cov_func x y with
  | Some v => Some v
  | None => SubCaller cov_func y x
  end.
End SymmetricCaller.

Module PatchworkCaller.
(** [using PatchworkCaller =
      internal::SymmetricCaller<PatchworkCallerBase<DefaultCaller>>] *)
Definition call {GroupKey FeatureType : Type} `{EqDecision GroupKey}
  (cov_func : FeatureType → FeatureType → double)
  (x y : Arg GroupKey FeatureType) : option double :=
  SymmetricCaller.call (PatchworkCallerBase.call DefaultCaller.call) cov_func x y.
End PatchworkCaller.

(** ** Boundary construction *)

Section BuildBoundaryFeatures.
Context {GroupKey BoundarySubFeatureType : Type}.
Context (boundary_function : GroupKey → GroupKey → list BoundarySubFeatureType).

(** The loop over [j = i + 1 .. groups.size() - 1] for [groups[i] = gi];
    [rest] holds [groups[i+1 ..]]. *)
Definition boundary_inner_loop (gi : GroupKey) (rest : list GroupKey)
  (boundary_features : list (BoundaryFeature.t GroupKey BoundarySubFeatureType))
  : list (BoundaryFeature.t GroupKey BoundarySubFeatureType) :=
  foldl (λ boundary_features gj,
           let next_boundary_features :=
             as_boundary_features gi gj (boundary_function gi gj) in
           if bool_decide (0 < length next_boundary_features) then
             boundary_features ++ next_boundary_features
           else boundary_features)
        boundary_features rest.

(** The loop over [i = 0 .. groups.size() - 1]. *)
Fixpoint boundary_outer_loop (groups : list GroupKey)
  (boundary_features : list (BoundaryFeature.t GroupKey BoundarySubFeatureType))
  : list (BoundaryFeature.t GroupKey BoundarySubFeatureType) :=
  match groups with
  | [] => boundary_features
  | gi :: rest =>
      boundary_outer_loop rest (boundary_inner_loop gi rest boundary_features)
  end.

Definition build_boundary_features (groups : list GroupKey)
  : result (list (BoundaryFeature.t GroupKey BoundarySubFeatureType)) :=
  let boundary_features := boundary_outer_loop groups [] in
  assert (bool_decide (0 < length boundary_features));;
  Ok boundary_features.

End BuildBoundaryFeatures.

(** ** Dense matrices of the linear algebra library *)

Module Eigen.

(** [Eigen::MatrixXd]: a run-time number of rows and columns and the
    coefficients; only the coefficients inside the shape are meaningful. *)
Record MatrixXd : Type := mk {
  rows : nat;
  cols : nat;
  coeff : nat → nat → double
}.

(** [Eigen::VectorXd] is the matrix type with one column. *)
Abbreviation VectorXd := MatrixXd.

Definition size (m : MatrixXd) : nat := rows m * cols m.

Definition same_shape (a b : MatrixXd) : bool :=
  bool_decide (rows a = rows b) && bool_decide (cols a = cols b).

(** Equality of two matrices: same shape, same coefficients inside it. *)
Definition mat_eq (a b : MatrixXd) : Prop :=
  rows a = rows b ∧ cols a = cols b ∧
  ∀ i j, i < rows a → j < cols a → coeff a i j = coeff b i j.

Definition Zero (r c : nat) : MatrixXd := mk r c (λ _ _, Double.zero).

(** [a + b] and [a += b]: the library asserts that the shapes agree. *)
Definition plus (a b : MatrixXd) : result MatrixXd :=
  assert (same_shape a b);;
  Ok (mk (rows a) (cols a) (λ i j, Double.add (coeff a i j) (coeff b i j))).

(** [a - b] and [a -= b] *)
Definition minus (a b : MatrixXd) : result MatrixXd :=
  assert (same_shape a b);;
  Ok (mk (rows a) (cols a) (λ i j, Double.sub (coeff a i j) (coeff b i j))).

Definition transpose (a : MatrixXd) : MatrixXd :=
  mk (cols a) (rows a) (λ i j, coeff a j i).

(** The inner product of a row with a column, of length [n], accumulated
    from index 0 upwards. *)
Definition dot (n : nat) (u v : nat → double) : double :=
  match n with
  | 0 => Double.zero
  | S n' => foldl (λ acc l, Double.add acc (Double.mul (u l) (v l)))
                  (Double.mul (u 0) (v 0)) (seq 1 n')
  end.

(** [a * b]: the library asserts [a.cols() == b.rows()]. *)
Definition times (a b : MatrixXd) : result MatrixXd :=
  assert (bool_decide (cols a = rows b));;
  Ok (mk (rows a) (cols b)
         (λ i j, dot (cols a) (λ l, coeff a i l) (λ l, coeff b l j))).

(** [m.diagonal()[i]] for an [Eigen::Index i]: the library asserts that
    the index is inside the diagonal. *)
Definition diagonal_at (m : MatrixXd) (i : Z) : result double :=
  assert (bool_decide (0 ≤ i < Z.of_nat (rows m `min` cols m))%Z);;
  Ok (coeff m (Z.to_nat i) (Z.to_nat i)).

(** The matrix obtained by stacking [blocks] vertically, first block on
    top; it has the columns of the first block. *)
Fixpoint vstack (blocks : list MatrixXd) : MatrixXd :=
  match blocks with
  | [] => mk 0 0 (λ _ _, Double.zero)
  | b :: bs =>
      let below := vstack bs in
      mk (rows b + rows below) (cols b)
         (λ i j, if bool_decide (i < rows b) then coeff b i j
                 else coeff below (i - rows b) j)
  end.

End Eigen.

(** ** [Grouped<KeyType, ValueType>] *)

Module Grouped.
(** Modelled from the spec: [Grouped], which the group-by header defines
    outside the files embedded here, "an ordered mapping from GroupKey to
    Value (one entry per group)": the entries in the order of the keys, with
    the operations the patchwork code uses. *)
Definition t (KeyType ValueType : Type) : Type := list (KeyType * ValueType).

Section Operations.
Context {KeyType ValueType : Type} `{EqDecision KeyType}.

Definition size (g : t KeyType ValueType) : nat := length g.
Definition keys (g : t KeyType ValueType) : list KeyType := g.*1.
Definition values (g : t KeyType ValueType) : list ValueType := g.*2.

(** [map_contains(g, key)] *)
Definition map_contains (g : t KeyType ValueType) (key : KeyType) : bool :=
  bool_decide (key ∈ keys g).

(** [g.at(key)]: throws [std::out_of_range] on a missing key. *)
Fixpoint at_ (g : t KeyType ValueType) (key : KeyType) : result ValueType :=
  match g with
  | [] => Err out_of_range
  | (k, v) :: g' => if bool_decide (k = key) then Ok v else at_ g' key
  end.

(** [g.apply(f)] for an [f(key, value)] that returns a value: the same
    keys, each value replaced by what [f] returns; [f] runs key by key. *)
Definition apply {Out : Type} (f : KeyType → ValueType → result Out)
  (g : t KeyType ValueType) : result (t KeyType Out) :=
  result_mapM (λ kv, out ← f kv.1 kv.2; Ok (kv.1, out)) g.

(** [g.apply(f)] for an [f(value)] that returns a value. *)
Definition apply_values {Out : Type} (f : ValueType → Out)
  (g : t KeyType ValueType) : t KeyType Out :=
  prod_map id f <$> g.

End Operations.
End Grouped.

(** ** Block operations over grouped matrices *)

Fixpoint result_foldM {A B} (f : A → B → result A) (a : A) (l : list B)
  : result A :=
  match l with
  | [] => Ok a
  | x :: l' => a' ← f a x; result_foldM f a' l'
  end.

Section BlockAlgebra.
Context {GroupKey : Type} `{EqDecision GroupKey}.

(** The lambda [one_group] of [block_accumulate]. *)
Definition one_group {X Y : Type}
  (lhs : Grouped.t GroupKey X) (rhs : Grouped.t GroupKey Y)
  (apply_function : X → Y → result Eigen.MatrixXd) (key : GroupKey)
  : result Eigen.MatrixXd :=
  assert (Grouped.map_contains lhs key && Grouped.map_contains rhs key);;
  x ← Grouped.at_ lhs key;
  y ← Grouped.at_ rhs key;
  apply_function x y.

(** [keys[0]] exists once the second assertion has passed; the first
    branch of the match is never taken. *)
Definition block_accumulate {X Y : Type}
  (lhs : Grouped.t GroupKey X) (rhs : Grouped.t GroupKey Y)
  (apply_function : X → Y → result Eigen.MatrixXd) : result Eigen.MatrixXd :=
  assert (bool_decide (Grouped.size lhs = Grouped.size rhs));;
  assert (bool_decide (0 < Grouped.size lhs));;
  match Grouped.keys lhs with
  | [] => Err assertion_failure
  | key0 :: keys_from_1 =>
      output ← one_group lhs rhs apply_function key0;
      result_foldM
        (λ output key,
           next ← one_group lhs rhs apply_function key;
           Eigen.plus output next)
        output keys_from_1
  end.

Definition block_product
  (lhs rhs : Grouped.t GroupKey Eigen.MatrixXd) : result Eigen.MatrixXd :=
  let matrix_product x y := Eigen.times x y in
  block_accumulate lhs rhs matrix_product.

Definition block_inner_product
  (lhs rhs : Grouped.t GroupKey Eigen.MatrixXd) : result Eigen.MatrixXd :=
  let matrix_inner_product x y := Eigen.times (Eigen.transpose x) y in
  block_accumulate lhs rhs matrix_inner_product.

(** [block_solve]: [solve s x] is [s.solve(x)] of the factorization type
    [Solver], a call into the linear algebra library. *)
Definition block_solve {Solver Rhs Out : Type}
  (solve : Solver → Rhs → result Out)
  (lhs : Grouped.t GroupKey Solver) (rhs : Grouped.t GroupKey Rhs)
  : result (Grouped.t GroupKey Out) :=
  let solve_one_block key x := s ← Grouped.at_ lhs key; solve s x in
  Grouped.apply solve_one_block rhs.

End BlockAlgebra.

(** ** [Distribution<CovarianceType>] *)

(** What [Distribution] asks of its covariance type. *)
Class CovarianceType (C : Type) : Type := {
  cov_size : C → nat;
  cov_rows : C → nat;
  cov_cols : C → nat;
  (** [c.diagonal()[i]] *)
  cov_diagonal_at : C → Z → result double
}.

#[global] Instance MatrixXd_covariance : CovarianceType Eigen.MatrixXd := {|
  cov_size := Eigen.size;
  cov_rows := Eigen.rows;
  cov_cols := Eigen.cols;
  cov_diagonal_at := Eigen.diagonal_at
|}.

Module Distribution.
Section WithCovariance.
Context {C : Type} `{CovarianceType C}.

Record t : Type := mk {
  mean : Eigen.VectorXd;
  covariance : C
}.

Definition assert_valid (d : t) : result unit :=
  if bool_decide (0 < cov_size (covariance d)) then
    assert (bool_decide (cov_rows (covariance d) = cov_cols (covariance d)));;
    assert (bool_decide (Eigen.size (mean d) = cov_rows (covariance d)))
  else Ok ().

Definition size (d : t) : result nat :=
  assert_valid d;; Ok (Eigen.size (mean d)).

Definition has_covariance (d : t) : result bool :=
  assert_valid d;; Ok (bool_decide (0 < cov_size (covariance d))).

Definition get_diagonal (d : t) (i : Z) : result double :=
  b ← has_covariance d;
  if b : bool then cov_diagonal_at (covariance d) i else Ok Double.NAN.

End WithCovariance.
Arguments t C : clear implicits.
End Distribution.

Abbreviation JointDistribution := (Distribution.t Eigen.MatrixXd).

(** ** The patchwork model: fit state, fit and joint prediction *)

Module Prediction.
(** Modelled from the spec: what [FitModel::predict(features)] returns
    (the single-group model is an external collaborator), read through
    [.mean()] and [.joint()]. *)
Record t : Type := mk {
  mean : Eigen.VectorXd;
  joint : JointDistribution
}.
End Prediction.

Module FitModel.
(** Modelled from the spec: a fitted single-group model, "[predict(features)]
    plus accessors for its stored training features and training covariance
    factorization". *)
Record t (FeatureType Solver : Type) : Type := mk {
  train_features : list FeatureType;
  train_covariance : Solver;
  predict : list FeatureType → Prediction.t
}.
Arguments mk {FeatureType Solver} _ _ _.
Arguments train_features {FeatureType Solver} _.
Arguments train_covariance {FeatureType Solver} _.
Arguments predict {FeatureType Solver} _ _.
End FitModel.

(** The three methods a [PatchworkFunctions] class has to define. *)
Module PatchworkFunctions.
Record t (GroupKey FeatureType : Type) : Type := mk {
  grouper : FeatureType → GroupKey;
  boundary : GroupKey → GroupKey → list FeatureType;
  nearest_group : list GroupKey → GroupKey → GroupKey
}.
Arguments mk {GroupKey FeatureType} _ _ _.
Arguments grouper {GroupKey FeatureType} _ _.
Arguments boundary {GroupKey FeatureType} _ _ _.
Arguments nearest_group {GroupKey FeatureType} _ _ _.
End PatchworkFunctions.

(** [Fit<PatchworkGPFit<FitModel, GroupKey>>] *)
Module PatchworkGPFit.
Record t (GroupKey FeatureType Solver : Type) : Type := mk {
  fit_models : Grouped.t GroupKey (FitModel.t FeatureType Solver)
}.
Arguments mk {GroupKey FeatureType Solver} _.
Arguments fit_models {GroupKey FeatureType Solver} _.
End PatchworkGPFit.

Section GroupBy.
Context {GroupKey Item : Type} `{EqDecision GroupKey}.
(** [operator<] of the key type, which orders the entries of a [Grouped]. *)
Context (key_less : GroupKey → GroupKey → bool).

(** Adds [x] at the end of the group [key], which is created in its place
    in the order of the keys when it does not exist yet. *)
Fixpoint add_to_group (key : GroupKey) (x : Item)
  (g : Grouped.t GroupKey (list Item)) : Grouped.t GroupKey (list Item) :=
  match g with
  | [] => [(key, [x])]
  | (k, xs) :: g' =>
      if bool_decide (k = key) then (k, xs ++ [x]) :: g'
      else if key_less key k then (key, [x]) :: (k, xs) :: g'
      else (k, xs) :: add_to_group key x g'
  end.

(** Modelled from the spec: [group_by(items, grouper)], which the group-by
    header defines outside the files embedded here; it "partitions by
    grouping-function output" into one entry per key, each holding its
    items in their original order. *)
Definition group_by (items : list Item) (grouper : Item → GroupKey)
  : Grouped.t GroupKey (list Item) :=
  foldl (λ g x, add_to_group (grouper x) x g) [] items.

End GroupBy.

(** Modelled from the spec: [compute_covariance_matrix(caller, xs, ys)],
    which the covariance function header defines outside the files embedded
    here: the "covariance matrix of [xs] against [ys]", whose entry [(i, j)]
    is the caller on [xs[i]] and [ys[j]]. *)
Definition compute_covariance_matrix {X Y : Type} (caller : X → Y → double)
  (xs : list X) (ys : list Y) : Eigen.MatrixXd :=
  Eigen.mk (length xs) (length ys)
    (λ i j, match xs !! i, ys !! j with
            | Some x, Some y => caller x y
            | _, _ => Double.zero
            end).

(** [as_group_features(grouped_features)] for the result of a [group_by]. *)
Definition as_group_features_grouped {GroupKey FeatureType : Type}
  (grouped_features : Grouped.t GroupKey (list FeatureType))
  : list (GroupFeature.t GroupKey FeatureType) :=
  foldl (λ group_features entry,
           foldl (λ group_features f,
                    group_features ++ [as_group_feature entry.1 f])
                 group_features entry.2)
        [] grouped_features.

Section PatchworkGaussianProcess.
Context {GroupKey FeatureType Solver Target : Type} `{EqDecision GroupKey}.
Context (key_less : GroupKey → GroupKey → bool).
(** [covariance_function_], on raw features. *)
Context (covariance_function_ : FeatureType → FeatureType → double).
Context (patchwork_functions_ : PatchworkFunctions.t GroupKey FeatureType).
(** [train_covariance.solve(rhs)] of a single-group fit. *)
Context (solve : Solver → Eigen.MatrixXd → result Eigen.MatrixXd).
(** [A.ldlt().solve(rhs)] of the linear algebra library. *)
Context (ldlt_solve : Eigen.MatrixXd → Eigen.MatrixXd → result Eigen.MatrixXd).
(** [gp_from_covariance(covariance_function_, "internal").fit(dataset)] of
    the single-group model, on a dataset of (feature, target) pairs. *)
Context (single_gp_fit : list (FeatureType * Target) → FitModel.t FeatureType Solver).

Abbreviation Fit := (PatchworkGPFit.t GroupKey FeatureType Solver).

Definition from_fit_models
  (fit_models : Grouped.t GroupKey (FitModel.t FeatureType Solver)) : Fit :=
  PatchworkGPFit.mk fit_models.

(** The calls [PatchworkCaller::call(covariance_function_, x, y)] of the
    prediction, one per pair of feature types it is used at. *)
Definition patchwork_caller_bb :=
  PatchworkCallerBase.call_boundary_boundary (GroupKey := GroupKey)
    DefaultCaller.call covariance_function_.
Definition patchwork_caller_gb :=
  PatchworkCallerBase.call_group_boundary (GroupKey := GroupKey)
    DefaultCaller.call covariance_function_.
Definition patchwork_caller_gg :=
  PatchworkCallerBase.call_group_group (GroupKey := GroupKey)
    DefaultCaller.call covariance_function_.

Definition get_obs_vector (fit_model : FitModel.t FeatureType Solver)
  : Eigen.VectorXd :=
  Prediction.mean (FitModel.predict fit_model (FitModel.train_features fit_model)).

(** The lambda [solver] of the prediction: the generalized block solve. *)
Definition solver
  (C_dd : Grouped.t GroupKey Solver) (C_db : Grouped.t GroupKey Eigen.MatrixXd)
  (S_bb : Eigen.MatrixXd) (rhs : Grouped.t GroupKey Eigen.MatrixXd)
  : result (Grouped.t GroupKey Eigen.MatrixXd) :=
  Ai_rhs ← block_solve solve C_dd rhs;
  let SiCtAi_rhs_block C_db_i Ai_rhs_i :=
    p ← Eigen.times (Eigen.transpose C_db_i) Ai_rhs_i; ldlt_solve S_bb p in
  SiCtAi_rhs ← block_accumulate C_db Ai_rhs SiCtAi_rhs_block;
  let product_with_SiCtAi_rhs (key : GroupKey) C_db_i :=
    Eigen.times C_db_i SiCtAi_rhs in
  CSiCtAi_rhs ← Grouped.apply product_with_SiCtAi_rhs C_db;
  output ← block_solve solve C_dd CSiCtAi_rhs;
  let add_Ai_rhs key group :=
    a ← Grouped.at_ Ai_rhs key; Eigen.plus group a in
  Grouped.apply add_Ai_rhs output.

(** The joint prediction when there is not exactly one group. *)
Definition predict_with_boundaries (features : list FeatureType)
  (fit_models : Grouped.t GroupKey (FitModel.t FeatureType Solver))
  : result JointDistribution :=
  let obs_vectors := Grouped.apply_values get_obs_vector fit_models in
  let boundary_function x y := PatchworkFunctions.boundary patchwork_functions_ x y in
  boundary_features ← build_boundary_features boundary_function (Grouped.keys fit_models);
  let C_bb := compute_covariance_matrix patchwork_caller_bb
                boundary_features boundary_features in
  let get_train_covariance :=
    FitModel.train_covariance (FeatureType := FeatureType) (Solver := Solver) in
  let C_dd := Grouped.apply_values get_train_covariance fit_models in
  let get_features := FitModel.train_features (FeatureType := FeatureType) (Solver := Solver) in
  let C_db_one_group key fit_model :=
    let group_features := as_group_features key (get_features fit_model) in
    Ok (compute_covariance_matrix patchwork_caller_gb group_features boundary_features) in
  C_db ← Grouped.apply C_db_one_group fit_models;
  C_dd_inv_C_db ← block_solve solve C_dd C_db;
  inner ← block_inner_product C_db C_dd_inv_C_db;
  S_bb ← Eigen.minus C_bb inner;
  let ys := Grouped.apply_values get_obs_vector fit_models in
  information ← solver C_dd C_db S_bb ys;
  _ ← result_foldM
        (λ C_bb_inv_C_bd_information entry,
           info ← Grouped.at_ information entry.1;
           p ← Eigen.times (Eigen.transpose entry.2) info;
           x ← ldlt_solve C_bb p;
           Eigen.plus C_bb_inv_C_bd_information x)
        (Eigen.Zero (Eigen.rows C_bb) 1) C_db;
  let predict_grouper f :=
    PatchworkFunctions.nearest_group patchwork_functions_ (Grouped.keys C_db)
      (PatchworkFunctions.grouper patchwork_functions_ f) in
  let grouped := group_by key_less features predict_grouper in
  let group_features := as_group_features_grouped grouped in
  let C_fb := compute_covariance_matrix patchwork_caller_gb
                group_features boundary_features in
  C_bb_inv_C_bf ← ldlt_solve C_bb (Eigen.transpose C_fb);
  let C_fb_bb_inv := Eigen.transpose C_bb_inv_C_bf in
  let compute_cross_block_transpose key fit_model :=
    let train_features := as_group_features key (get_features fit_model) in
    let block := compute_covariance_matrix patchwork_caller_gg
                   train_features group_features in
    C_db_key ← Grouped.at_ C_db key;
    correction ← Eigen.times C_db_key (Eigen.transpose C_fb_bb_inv);
    Eigen.minus block correction in
  cross_transpose ← Grouped.apply compute_cross_block_transpose fit_models;
  C_dd_inv_cross ← solver C_dd C_db S_bb cross_transpose;
  mean ← block_inner_product cross_transpose information;
  assert (bool_decide (Eigen.cols mean = 1));;
  explained ← block_inner_product cross_transpose C_dd_inv_cross;
  let prior := compute_covariance_matrix patchwork_caller_gg
                 group_features group_features in
  boundary_explained ← Eigen.times C_fb_bb_inv (Eigen.transpose C_fb);
  without_boundary ← Eigen.minus prior boundary_explained;
  cov ← Eigen.minus without_boundary explained;
  Ok (Distribution.mk mean cov).

(** [_predict_impl(features, patchwork_fit, PredictTypeIdentity<JointDistribution>)] *)
Definition _predict_impl (features : list FeatureType) (patchwork_fit : Fit)
  : result JointDistribution :=
  let fit_models := PatchworkGPFit.fit_models patchwork_fit in
  if bool_decide (Grouped.size fit_models = 1) then
    match Grouped.values fit_models with
    | fit_model :: _ => Ok (Prediction.joint (FitModel.predict fit_model features))
    | [] => Err out_of_range
    end
  else predict_with_boundaries features fit_models.

(** [_fit_impl(features, targets)]; the dataset pairs every feature with
    its target, and its constructor asserts that there are as many of the
    ones as of the others. *)
Definition _fit_impl (features : list FeatureType) (targets : list Target)
  : result Fit :=
  assert (bool_decide (length features = length targets));;
  let dataset := zip features targets in
  let create_fit_model ds := single_gp_fit ds in
  let grouper (ft : FeatureType * Target) :=
    PatchworkFunctions.grouper patchwork_functions_ ft.1 in
  let fit_models :=
    Grouped.apply_values create_fit_model (group_by key_less dataset grouper) in
  Ok (from_fit_models fit_models).

End PatchworkGaussianProcess.

(** ** Subsets of vectors, matrices and distributions

    The functions of [albatross/core/indexing.h].  Indices are
    [std::size_t] values, natural numbers. *)

(** [v[i]] on a [std::vector]: an index outside the vector has no behaviour
    defined by the language; the model ends the call there, as a standard
    library built with bounds assertions does. *)
Definition std_vector_at {X : Type} (v : list X) (i : nat) : result X :=
  match v !! i with
  | Some x => Ok x
  | None => Err assertion_failure
  end.

(** [v[i]] on an [Eigen::VectorXd]: the library asserts that the index is
    inside the vector. *)
Definition VectorXd_at (v : Eigen.VectorXd) (i : nat) : result double :=
  assert (bool_decide (i < Eigen.size v));;
  Ok (Eigen.coeff v i 0).

(** [m(r, c)] on an [Eigen::MatrixXd]: the library asserts that both indices
    are inside the matrix. *)
Definition MatrixXd_at (m : Eigen.MatrixXd) (r c : nat) : result double :=
  assert (bool_decide (r < Eigen.rows m) && bool_decide (c < Eigen.cols m));;
  Ok (Eigen.coeff m r c).

(** The vector with the coefficients [xs]. *)
Definition VectorXd_of (xs : list double) : Eigen.VectorXd :=
  Eigen.mk (length xs) 1 (λ i _, default Double.zero (xs !! i)).

(** The [r] by [c] matrix with the rows [xss]. *)
Definition MatrixXd_of (r c : nat) (xss : list (list double)) : Eigen.MatrixXd :=
  Eigen.mk r c (λ i j, default Double.zero (xss !! i ≫= λ xs, xs !! j)).

(** [subset(indices, v)] for a [std::vector v] *)
Definition subset {X : Type} (indices : list nat) (v : list X) : result (list X) :=
  result_mapM (λ index, std_vector_at v index) indices.

(** [subset(indices, v)] for an [Eigen::VectorXd v] *)
Definition subset_VectorXd (indices : list nat) (v : Eigen.VectorXd)
  : result Eigen.VectorXd :=
  out ← result_mapM (λ index, VectorXd_at v index) indices;
  Ok (VectorXd_of out).

(** [subset_cols(col_indices, v)]: [v.col(col_index)] asserts that the
    column exists. *)
Definition subset_cols (col_indices : list nat) (v : Eigen.MatrixXd)
  : result Eigen.MatrixXd :=
  result_mapM (λ col_index, assert (bool_decide (col_index < Eigen.cols v)))
              col_indices;;
  Ok (Eigen.mk (Eigen.rows v) (length col_indices)
        (λ i j, match col_indices !! j with
                | Some col_index => Eigen.coeff v i col_index
                | None => Double.zero
                end)).

(** [subset(row_indices, col_indices, v)]: the loop over the rows with the
    loop over the columns inside it. *)
Definition subset_MatrixXd (row_indices col_indices : list nat) (v : Eigen.MatrixXd)
  : result Eigen.MatrixXd :=
  out ← result_mapM
          (λ row_index,
             result_mapM (λ col_index, MatrixXd_at v row_index col_index)
                         col_indices)
          row_indices;
  Ok (MatrixXd_of (length row_indices) (length col_indices) out).

(** [symmetric_subset(indices, v)] for an [Eigen::MatrixXd v] *)
Definition symmetric_subset (indices : list nat) (v : Eigen.MatrixXd)
  : result Eigen.MatrixXd :=
  assert (bool_decide (Eigen.rows v = Eigen.cols v));;
  subset_MatrixXd indices indices v.

(** [Eigen::DiagonalMatrix]: the vector of its diagonal. *)
Module DiagonalMatrix.
Record t : Type := mk { diagonal : Eigen.VectorXd }.
Definition rows (d : t) : nat := Eigen.size (diagonal d).
End DiagonalMatrix.

#[global] Instance DiagonalMatrix_covariance : CovarianceType DiagonalMatrix.t := {|
  cov_size d := DiagonalMatrix.rows d * DiagonalMatrix.rows d;
  cov_rows := DiagonalMatrix.rows;
  cov_cols := DiagonalMatrix.rows;
  cov_diagonal_at d i :=
    assert (bool_decide (0 ≤ i < Z.of_nat (DiagonalMatrix.rows d))%Z);;
    Ok (Eigen.coeff (DiagonalMatrix.diagonal d) (Z.to_nat i) 0)
|}.

Abbreviation MarginalDistribution := (Distribution.t DiagonalMatrix.t).

(** [symmetric_subset(indices, v)] for an [Eigen::DiagonalMatrix v]:
    [subset(indices, v.diagonal()).asDiagonal()] *)
Definition symmetric_subset_diagonal (indices : list nat) (v : DiagonalMatrix.t)
  : result DiagonalMatrix.t :=
  d ← subset_VectorXd indices (DiagonalMatrix.diagonal v);
  Ok (DiagonalMatrix.mk d).

(** What the subset of a distribution asks of its covariance type: the
    default-constructed value and the overload of [symmetric_subset]. *)
Class SubsetCovariance (C : Type) : Type := {
  cov_default : C;
  cov_symmetric_subset : list nat → C → result C
}.

#[global] Instance MatrixXd_subset : SubsetCovariance Eigen.MatrixXd := {|
  cov_default := Eigen.mk 0 0 (λ _ _, Double.zero);
  cov_symmetric_subset := symmetric_subset
|}.

#[global] Instance DiagonalMatrix_subset : SubsetCovariance DiagonalMatrix.t := {|
  cov_default := DiagonalMatrix.mk (VectorXd_of []);
  cov_symmetric_subset := symmetric_subset_diagonal
|}.

(** [subset(indices, dist)] for a [Distribution dist] *)
Definition subset_Distribution {C : Type} `{CovarianceType C} `{SubsetCovariance C}
  (indices : list nat) (dist : Distribution.t C) : result (Distribution.t C) :=
  mean ← subset_VectorXd indices (Distribution.mean dist);
  has ← Distribution.has_covariance dist;
  if has : bool then
    cov ← cov_symmetric_subset indices (Distribution.covariance dist);
    Ok (Distribution.mk mean cov)
  else
    Ok (Distribution.mk mean cov_default).

(** [a == b] on two matrices: the library asserts that the shapes agree and
    compares coefficient by coefficient. *)
Definition MatrixXd_equal (a b : Eigen.MatrixXd) : result bool :=
  assert (Eigen.same_shape a b);;
  Ok (forallb (λ i, forallb (λ j, Double.eqb (Eigen.coeff a i j) (Eigen.coeff b i j))
                            (seq 0 (Eigen.cols a)))
              (seq 0 (Eigen.rows a))).

(** [Distribution::operator==] on two joint distributions:
    [mean == other.mean && covariance == other.covariance] *)
Definition Distribution_equal (d other : JointDistribution) : result bool :=
  means ← MatrixXd_equal (Distribution.mean d) (Distribution.mean other);
  if means : bool then
    MatrixXd_equal (Distribution.covariance d) (Distribution.covariance other)
  else Ok false.

(** ** Cross-validation folds

    The rest of [albatross/core/indexing.h]. *)

(** [std::set_difference(x.begin(), x.end(), y.begin(), y.end(), out)] of
    the standard library, over the order [less]: it walks the two ranges
    together, copies the elements of [x] that are less than the current
    element of [y], skips the elements of [y] that are less than the current
    element of [x], and drops an element of [x] together with an equivalent
    element of [y]. *)
Fixpoint std_set_difference {X : Type} (less : X → X → bool) (x : list X)
  : list X → list X :=
  match x with
  | [] => λ _, []
  | a :: x' =>
      fix against (y : list X) : list X :=
        match y with
        | [] => a :: x'
        | b :: y' =>
            if less a b then a :: std_set_difference less x' (b :: y')
            else if less b a then against y'
            else std_set_difference less x' y'
        end
  end.

(** [vector_set_difference(x, y)], here at [std::size_t] elements. *)
Definition vector_set_difference (x y : list nat) : list nat :=
  std_set_difference Nat.ltb x y.

(** [indices_complement(indices, n)]: [std::iota] fills [0 .. n - 1]; the
    count [n] is one that fits the [int] parameter. *)
Definition indices_complement (indices : list nat) (n : nat) : list nat :=
  let all_indices := seq 0 n in
  vector_set_difference all_indices indices.

(** [std::map<Key, Value>]: the entries in the order of the keys under
    [less]; two keys are the same key when neither is less than the
    other. *)
Module StdMap.
Section WithLess.
Context {Key Value : Type} (less : Key → Key → bool).

(** [m.find(k)], [None] standing for [m.end()]. *)
Fixpoint find (k : Key) (m : list (Key * Value)) : option Value :=
  match m with
  | [] => None
  | (k', v') :: m' =>
      if less k' k then find k m'
      else if less k k' then None
      else Some v'
  end.

(** [m[k] = v] *)
Fixpoint assign (k : Key) (v : Value) (m : list (Key * Value))
  : list (Key * Value) :=
  match m with
  | [] => [(k, v)]
  | (k', v') :: m' =>
      if less k' k then (k', v') :: assign k v m'
      else if less k k' then (k, v) :: (k', v') :: m'
      else (k', v) :: m'
  end.

End WithLess.
End StdMap.

Abbreviation FoldIndices := (list nat).
Abbreviation FoldName := string.
(** [std::map<FoldName, FoldIndices>], ordered by [operator<] of
    [std::string]. *)
Abbreviation FoldIndexer := (list (FoldName * FoldIndices)).

(** [std::to_string(i)] for a [std::size_t i]: its decimal digits. *)
Definition to_string (i : nat) : string :=
  NilEmpty.string_of_uint (Nat.to_uint i).

Module RegressionDataset.
(** Modelled from the spec: [RegressionDataset], which the dataset header
    defines outside the files embedded here: "a sequence of raw features"
    and "a matching sequence of targets", a marginal distribution, with the
    metadata of the dataset. *)
Record t (FeatureType : Type) : Type := mk {
  features : list FeatureType;
  targets : MarginalDistribution;
  metadata : list (string * string)
}.
Arguments mk {FeatureType} _ _ _.
Arguments features {FeatureType} _.
Arguments targets {FeatureType} _.
Arguments metadata {FeatureType} _.
End RegressionDataset.

Module RegressionFold.
Record t (FeatureType : Type) : Type := mk {
  train_dataset : RegressionDataset.t FeatureType;
  test_dataset : RegressionDataset.t FeatureType;
  name : FoldName;
  test_indices : FoldIndices
}.
Arguments mk {FeatureType} _ _ _ _.
Arguments train_dataset {FeatureType} _.
Arguments test_dataset {FeatureType} _.
Arguments name {FeatureType} _.
Arguments test_indices {FeatureType} _.
End RegressionFold.

Section Folds.
Context {FeatureType : Type}.

(** [subset(indices, dataset)] for a [RegressionDataset dataset] *)
Definition subset_RegressionDataset (indices : list nat)
  (dataset : RegressionDataset.t FeatureType)
  : result (RegressionDataset.t FeatureType) :=
  features ← subset indices (RegressionDataset.features dataset);
  targets ← subset_Distribution indices (RegressionDataset.targets dataset);
  Ok (RegressionDataset.mk features targets (RegressionDataset.metadata dataset)).

(** The body of the loop of [folds_from_fold_indexer] for one entry
    [pair] of the indexer. *)
Definition fold_from_pair (dataset : RegressionDataset.t FeatureType) (n : nat)
  (pair : FoldName * FoldIndices) : result (RegressionFold.t FeatureType) :=
  let group_name := pair.1 in
  let test_indices := pair.2 in
  let train_indices := indices_complement test_indices n in
  train_features ← subset train_indices (RegressionDataset.features dataset);
  train_targets ← subset_Distribution train_indices (RegressionDataset.targets dataset);
  test_features ← subset test_indices (RegressionDataset.features dataset);
  test_targets ← subset_Distribution test_indices (RegressionDataset.targets dataset);
  train_size ← Distribution.size train_targets;
  assert (bool_decide (length train_features = train_size));;
  test_size ← Distribution.size test_targets;
  assert (bool_decide (length test_features = test_size));;
  assert (bool_decide (test_size + train_size = n));;
  let train_split := RegressionDataset.mk train_features train_targets [] in
  let test_split := RegressionDataset.mk test_features test_targets [] in
  Ok (RegressionFold.mk train_split test_split group_name test_indices).

Definition folds_from_fold_indexer (dataset : RegressionDataset.t FeatureType)
  (groups : FoldIndexer) : result (list (RegressionFold.t FeatureType)) :=
  let n := length (RegressionDataset.features dataset) in
  result_mapM (fold_from_pair dataset n) groups.

Definition leave_one_out_indexer (dataset : RegressionDataset.t FeatureType)
  : FoldIndexer :=
  foldl (λ groups i,
           let group_name := to_string i in
           StdMap.assign String.ltb group_name [i] groups)
        [] (seq 0 (length (RegressionDataset.features dataset))).

(** [leave_one_group_out_indexer(features, get_group_name)] *)
Definition leave_one_group_out_indexer_features (features : list FeatureType)
  (get_group_name : FeatureType → FoldName) : FoldIndexer :=
  foldl (λ groups (entry : nat * FeatureType),
           let i := entry.1 in
           let k := get_group_name entry.2 in
           let indices :=
             match StdMap.find String.ltb k groups with
             | None => []
             | Some existing => existing
             end in
           StdMap.assign String.ltb k (indices ++ [i]) groups)
        [] (zip (seq 0 (length features)) features).

(** [leave_one_group_out_indexer(dataset, get_group_name)] *)
Definition leave_one_group_out_indexer (dataset : RegressionDataset.t FeatureType)
  (get_group_name : FeatureType → FoldName) : FoldIndexer :=
  leave_one_group_out_indexer_features (RegressionDataset.features dataset)
    get_group_name.

Definition leave_one_out (dataset : RegressionDataset.t FeatureType)
  : result (list (RegressionFold.t FeatureType)) :=
  folds_from_fold_indexer dataset (leave_one_out_indexer dataset).

Definition leave_one_group_out (dataset : RegressionDataset.t FeatureType)
  (get_group_name : FeatureType → FoldName)
  : result (list (RegressionFold.t FeatureType)) :=
  let indexer := leave_one_group_out_indexer dataset get_group_name in
  folds_from_fold_indexer dataset indexer.

End Folds.

(** ** The helpers of the cross-validation tests

    [group_by_interval] and [is_monotonic_increasing] of
    [tests/test_evaluate.cc]. *)

(** The comparison [x <= y] of two doubles. *)
Definition double_leb (x y : double) : bool := SFleb x y.

(** [group_by_interval(x)]: the [int] literals are converted to [double]
    for the comparisons. *)
Definition group_by_interval (x : double) : string :=
  if double_leb x (Double.of_int 3) then "2"%string
  else if double_leb x (Double.of_int 6) then "3"%string
  else "1"%string.

(** [is_monotonic_increasing(x)]: the loop runs over [i] from [0] while
    [i < x.size() - 1] and returns [false] at the first [i] with
    [x[i + 1] - x[i] <= 0.]. *)
Definition is_monotonic_increasing (x : Eigen.VectorXd) : bool :=
  forallb (λ i, negb (double_leb (Double.sub (Eigen.coeff x (i + 1) 0)
                                             (Eigen.coeff x i 0))
                                 Double.zero))
          (seq 0 (Eigen.size x - 1)).

(** ** Closed forms used to state the properties *)

(** The boundary features of all pairs [(groups[i], groups[j])], [i < j],
    in the order the two loops of [build_boundary_features] visit them. *)
Fixpoint boundary_pairs {GroupKey F : Type}
  (boundary_function : GroupKey → GroupKey → list F) (groups : list GroupKey)
  : list (BoundaryFeature.t GroupKey F) :=
  match groups with
  | [] => []
  | gi :: rest =>
      (rest ≫= λ gj, as_boundary_feature gi gj <$> boundary_function gi gj)
      ++ boundary_pairs boundary_function rest
  end.

(** The sum of a sequence of doubles, added from left to right. *)
Definition sum_doubles (xs : list double) : double :=
  match xs with
  | [] => Double.zero
  | x :: xs' => foldl Double.add x xs'
  end.

(** The sum over [keys] of the [r] by [c] matrices [term key]: entry by
    entry, the sum of the entries in the order of the keys. *)
Definition sum_over_keys {GroupKey : Type} (r c : nat) (keys : list GroupKey)
  (term : GroupKey → Eigen.MatrixXd) : Eigen.MatrixXd :=
  Eigen.mk r c (λ i j, sum_doubles ((λ key, Eigen.coeff (term key) i j) <$> keys)).

(** Two answers of a caller are opposite: both are missing, or both are
    [0.], or the first is minus the second. *)
Definition opposite (v w : option double) : Prop :=
  match v, w with
  | Some v, Some w => v = Double.neg w ∨ (v = Double.zero ∧ w = Double.zero)
  | None, None => True
  | _, _ => False
  end.

(** The argument [x] is not a boundary feature of the pair [(a, b)] or
    [(b, a)], and if it is a boundary feature its two keys differ. *)
Definition away_from_pair {GroupKey FeatureType : Type} (a b : GroupKey)
  (x : Arg GroupKey FeatureType) : Prop :=
  match x with
  | Boundary y =>
      BoundaryFeature.lhs y ≠ BoundaryFeature.rhs y ∧
      ¬ (BoundaryFeature.lhs y = a ∧ BoundaryFeature.rhs y = b) ∧
      ¬ (BoundaryFeature.lhs y = b ∧ BoundaryFeature.rhs y = a)
  | _ => True
  end.

Definition value_or {A : Type} (d : A) (r : result A) : A :=
  match r with Ok a => a | Err _ => d end.

(** [apply_function(lhs.at(key), rhs.at(key))] *)
Definition apply_at {GroupKey X Y : Type} `{EqDecision GroupKey}
  (lhs : Grouped.t GroupKey X) (rhs : Grouped.t GroupKey Y)
  (apply_function : X → Y → result Eigen.MatrixXd) (key : GroupKey)
  : result Eigen.MatrixXd :=
  x ← Grouped.at_ lhs key; y ← Grouped.at_ rhs key; apply_function x y.

(** The matrix [apply_function(lhs[key], rhs[key])], where it exists. *)
Definition term_at {GroupKey X Y : Type} `{EqDecision GroupKey}
  (lhs : Grouped.t GroupKey X) (rhs : Grouped.t GroupKey Y)
  (apply_function : X → Y → result Eigen.MatrixXd) (key : GroupKey)
  : Eigen.MatrixXd :=
  value_or (Eigen.Zero 0 0) (apply_at lhs rhs apply_function key).

(** The matrix [g[key]], where it exists. *)
Definition block_at {GroupKey : Type} `{EqDecision GroupKey}
  (g : Grouped.t GroupKey Eigen.MatrixXd) (key : GroupKey) : Eigen.MatrixXd :=
  value_or (Eigen.Zero 0 0) (Grouped.at_ g key).

(** A grouped collection read as the dense matrix of its blocks stacked in
    the order of the keys, as the comments of [block_product] and
    [block_solve] picture the right-hand operand. *)
Definition stacked {GroupKey : Type}
  (g : Grouped.t GroupKey Eigen.MatrixXd) : Eigen.MatrixXd :=
  Eigen.vstack (Grouped.values g).

(** The entries of a [std::map] are in strictly increasing order of their
    keys. *)
Definition keys_sorted {Key Value : Type} (less : Key → Key → bool)
  (m : list (Key * Value)) : Prop :=
  StronglySorted (λ e1 e2, less e1.1 e2.1 = true) m.

(** The indices, in increasing order, of the features named [k]. *)
Definition group_indices {FeatureType : Type}
  (get_group_name : FeatureType → FoldName) (features : list FeatureType)
  (k : FoldName) : list nat :=
  filter (λ i, get_group_name <$> features !! i = Some k)
         (seq 0 (length features)).

(** The test indices of a fold are strictly increasing and below [n]. *)
Definition valid_fold_indices (n : nat) (indices : FoldIndices) : Prop :=
  StronglySorted lt indices ∧ Forall (λ index, index < n) indices.

(** The elements of [v] at the indices [indices], in their order. *)
Definition elements_at {X : Type} (v : list X) (indices : list nat) : list X :=
  omap (λ index, v !! index) indices.

(** ** Concrete keys, features and covariance function

    Groups numbered by [nat], features on the integer line, and the
    covariance function [k(a, b) = a * b]. *)

Module Fixture.

Definition k (a b : Z) : double := Double.of_int (a * b).

Definition G (key : nat) (f : Z) : Arg nat Z := Group (as_group_feature key f).
Definition B (lhs rhs : nat) (f : Z) : Arg nat Z :=
  Boundary (as_boundary_feature lhs rhs f).

(** One boundary point between any two groups: the sum of their numbers. *)
Definition midpoint (x y : nat) : list Z := [Z.of_nat (x + y)].

(** No boundary point between any two groups. *)
Definition no_boundary (x y : nat) : list Z := [].

(** The 1 by 1 matrix with entry [x]. *)
Definition scalar (x : Z) : Eigen.MatrixXd :=
  Eigen.mk 1 1 (λ _ _, Double.of_int x).

(** The factorization of the 1 by 1 matrix with entry [d] is [d] itself;
    solving divides every entry of a one-row right-hand side by it. *)
Definition scalar_solve (d : double) (x : Eigen.MatrixXd) : result Eigen.MatrixXd :=
  assert (bool_decide (Eigen.rows x = 1));;
  Ok (Eigen.mk 1 (Eigen.cols x) (λ i j, Double.div (Eigen.coeff x i j) d)).

(** Two groups: the block-diagonal matrix [diag(2, 4)], its factorization,
    and the right-hand side with blocks [6] and [12]. *)
Definition A2 : Grouped.t nat Eigen.MatrixXd := [(1, scalar 2); (2, scalar 4)].
Definition A2_factorized : Grouped.t nat double :=
  [(1, Double.of_int 2); (2, Double.of_int 4)].
Definition B2 : Grouped.t nat Eigen.MatrixXd := [(1, scalar 6); (2, scalar 12)].

(** The first group only. *)
Definition A1_factorized : Grouped.t nat double := [(1, Double.of_int 2)].
Definition B1 : Grouped.t nat Eigen.MatrixXd := [(1, scalar 6)].

(** A joint distribution over two points, and one without covariance. *)
Definition joint2 : JointDistribution :=
  Distribution.mk (Eigen.mk 2 1 (λ i _, Double.of_int (Z.of_nat i)))
    (Eigen.mk 2 2 (λ i j, Double.of_int (Z.of_nat (10 * i + j)))).
Definition mean_only2 : JointDistribution :=
  Distribution.mk (Eigen.mk 2 1 (λ i _, Double.of_int (Z.of_nat i)))
    (Eigen.mk 0 0 (λ _ _, Double.zero)).

(** Patchwork functions that put every feature in group 7. *)
Definition one_group_functions : PatchworkFunctions.t nat Z :=
  PatchworkFunctions.mk (λ _, 7) midpoint (λ _ query, query).

(** Patchwork functions that group the integers by sign. *)
Definition sign_functions : PatchworkFunctions.t nat Z :=
  PatchworkFunctions.mk (λ f, if bool_decide (f < 0)%Z then 0 else 1)
    (λ _ _, [0%Z]) (λ _ query, query).

(** The same grouping with no boundary point between any two groups. *)
Definition sign_no_boundary_functions : PatchworkFunctions.t nat Z :=
  PatchworkFunctions.mk (λ f, if bool_decide (f < 0)%Z then 0 else 1)
    no_boundary (λ _ query, query).

(** A single-group model that predicts the sum of its training targets
    everywhere, with the covariance function as joint covariance; its
    training covariance is the identity. *)
Definition sum_fit (dataset : list (Z * Z)) : FitModel.t Z unit :=
  let total := Double.of_int (foldr Z.add 0%Z dataset.*2) in
  FitModel.mk dataset.*1 ()
    (λ features,
       let mean := Eigen.mk (length features) 1 (λ _ _, total) in
       Prediction.mk mean
         (Distribution.mk mean (compute_covariance_matrix k features features))).

Definition identity_solve {S : Type} (_ : S) (x : Eigen.MatrixXd)
  : result Eigen.MatrixXd := Ok x.

(** The fit state of two groups: the negative and the non-negative
    training features, each with its own single-group fit. *)
Definition two_group_fit : PatchworkGPFit.t nat Z unit :=
  PatchworkGPFit.mk
    [(0, sum_fit [(-2, 1); (-1, 2)]%Z); (1, sum_fit [(1, 3); (2, 4)]%Z)].

End Fixture.

(** ** Concrete vectors, matrices and datasets *)

Module Sample.

(** The 3 by 3 matrix with entry [i + j] at [(i, j)]; it is symmetric. *)
Definition S3 : Eigen.MatrixXd :=
  Eigen.mk 3 3 (λ i j, Double.of_int (Z.of_nat (i + j))).

(** The 2 by 3 matrix with entry [10 * i + j] at [(i, j)]. *)
Definition M23 : Eigen.MatrixXd :=
  Eigen.mk 2 3 (λ i j, Double.of_int (Z.of_nat (10 * i + j))).

(** A joint distribution over three points, with covariance [S3]. *)
Definition joint3 : JointDistribution :=
  Distribution.mk (Eigen.mk 3 1 (λ i _, Double.of_int (Z.of_nat i))) S3.

(** A mean of two [NAN], without covariance. *)
Definition nan_mean : JointDistribution :=
  Distribution.mk (Eigen.mk 2 1 (λ _ _, Double.NAN))
    (Eigen.mk 0 0 (λ _ _, Double.zero)).

(** Four observations at [2], [8], [5] and [3], with the targets [1], [2],
    [3] and [4] of variance [1]. *)
Definition targets4 : MarginalDistribution :=
  Distribution.mk (VectorXd_of (Double.of_int <$> [1; 2; 3; 4]%Z))
    (DiagonalMatrix.mk (VectorXd_of (Double.of_int <$> [1; 1; 1; 1]%Z))).
Definition dataset4 : RegressionDataset.t double :=
  RegressionDataset.mk (Double.of_int <$> [2; 8; 5; 3]%Z) targets4 [].

(** An indexer with two folds over four observations. *)
Definition two_folds : FoldIndexer :=
  [("a"%string, [0; 2]); ("b"%string, [1; 3])].

End Sample.

(* ===================================================================== *)
(** * Part II: properties                                                 *)
(* ===================================================================== *)

(** ** The patchwork caller *)

Section CallerProperties.
Context {GroupKey FeatureType : Type} `{EqDecision GroupKey}.
Context (k : FeatureType → FeatureType → double).

Local Abbreviation cov := (PatchworkCaller.call (GroupKey := GroupKey) k).
Local Abbreviation G key f := (Group (as_group_feature key f)).
Local Abbreviation B l r f := (Boundary (as_boundary_feature l r f)).

Local Ltac unfold_callers :=
  unfold PatchworkCaller.call, SymmetricCaller.call, PatchworkCallerBase.call,
    PatchworkCallerBase.call_group_group,
    PatchworkCallerBase.call_group_boundary,
    PatchworkCallerBase.call_boundary_boundary,
    DefaultCaller.call, as_group_feature, as_boundary_feature; simpl.

Local Ltac by_key_cases :=
  unfold_callers; repeat case_bool_decide; simplify_eq/=; try done.

Lemma cov_raw_raw (fx fy : FeatureType) :
  cov (Raw fx) (Raw fy) = Some (k fx fy).
Proof. done. Qed.

Lemma cov_boundary_group (l r key : GroupKey) (fb fg : FeatureType) :
  cov (B l r fb) (G key fg) = cov (G key fg) (B l r fb).
Proof. done. Qed.

Lemma cov_raw_tagged_invalid (f : FeatureType) (x : Arg GroupKey FeatureType) :
  (∀ g, x ≠ Raw g) → cov (Raw f) x = None ∧ cov x (Raw f) = None.
Proof. destruct x; [intros Hx; by destruct (Hx f0)|done|done]. Qed.

(** C1: the patchwork caller applies the dispatch table cell by cell.
    Group against group: [k] for equal keys, [0.] otherwise.  Group against
    boundary, in either argument order: [+k] when the group key is the
    boundary's lhs, [-k] when it is its rhs, [0.] otherwise.  Boundary
    against boundary: [2 * k] for equal ordered pairs, [+k] when exactly one
    of lhs = lhs, rhs = rhs holds, [-k] when one side matches the other's
    opposite side and the remaining sides differ, [0.] when no side matches.
    The boundaries of the [-k] cells have two distinct keys, as the data
    model requires. *)
Theorem patchwork_caller_dispatch_table :
  (∀ kx ky fx fy, kx = ky → cov (G kx fx) (G ky fy) = Some (k fx fy)) ∧
  (∀ kx ky fx fy, kx ≠ ky → cov (G kx fx) (G ky fy) = Some Double.zero) ∧
  (∀ kx yl yr fx fy, kx = yl →
     cov (G kx fx) (B yl yr fy) = Some (k fx fy)) ∧
  (∀ kx yl yr fx fy, yl ≠ yr → kx = yr →
     cov (G kx fx) (B yl yr fy) = Some (Double.neg (k fx fy))) ∧
  (∀ kx yl yr fx fy, kx ≠ yl → kx ≠ yr →
     cov (G kx fx) (B yl yr fy) = Some Double.zero) ∧
  (∀ kx yl yr fx fy, cov (B yl yr fy) (G kx fx) = cov (G kx fx) (B yl yr fy)) ∧
  (∀ xl xr yl yr fx fy, xl = yl → xr = yr →
     cov (B xl xr fx) (B yl yr fy)
     = Some (Double.mul (Double.of_int 2) (k fx fy))) ∧
  (∀ xl xr yl yr fx fy, (xl = yl ∧ xr ≠ yr) ∨ (xl ≠ yl ∧ xr = yr) →
     cov (B xl xr fx) (B yl yr fy) = Some (k fx fy)) ∧
  (∀ xl xr yl yr fx fy, xl ≠ xr → yl ≠ yr →
     (xl = yr ∧ xr ≠ yl) ∨ (xr = yl ∧ xl ≠ yr) →
     cov (B xl xr fx) (B yl yr fy) = Some (Double.neg (k fx fy))) ∧
  (∀ xl xr yl yr fx fy, xl ≠ yl → xr ≠ yr → xl ≠ yr → xr ≠ yl →
     cov (B xl xr fx) (B yl yr fy) = Some Double.zero).
Proof.
  repeat split; intros; by_key_cases; intuition congruence.
Qed.

(** C8: for a symmetric covariance function the patchwork caller gives the
    same answer on [(x, y)] and on [(y, x)], whatever the kinds of [x] and
    [y]; on two raw features it is the covariance function itself. *)
Theorem patchwork_caller_symmetric
  (k_symmetric : ∀ a b, k a b = k b a) :
  (∀ x y : Arg GroupKey FeatureType, cov x y = cov y x) ∧
  (∀ fx fy : FeatureType, cov (Raw fx) (Raw fy) = Some (k fx fy)).
Proof.
  split; [|done].
  intros [fx|[kx fx]|[xl xr fx]] [fy|[ky fy]|[yl yr fy]]; try done.
  - unfold_callers. by rewrite k_symmetric.
  - unfold_callers. rewrite (k_symmetric fx fy).
    repeat case_bool_decide; simplify_eq/=; done.
  - unfold_callers. rewrite (k_symmetric fx fy).
    repeat case_bool_decide; simplify_eq/=; done.
Qed.

(** On a boundary feature and the feature of the swapped key pair the
    caller takes its last branch. *)
Lemma cov_boundary_swapped_pair (a b : GroupKey) (f g : FeatureType) :
  a ≠ b →
  cov (B a b f) (B a b g) = Some (Double.mul (Double.of_int 2) (k f g)) ∧
  cov (B b a f) (B a b g) = Some Double.zero.
Proof. intros. split; by by_key_cases. Qed.

Lemma neg_involutive (x : double) : Double.neg (Double.neg x) = x.
Proof. destruct x; simpl; by rewrite ?negb_involutive. Qed.

(** Away from the pair itself and its swap, swapping the keys of a boundary
    feature turns the answer of the caller into its opposite. *)
Lemma cov_boundary_swap_opposite (a b : GroupKey) (f : FeatureType)
  (x : Arg GroupKey FeatureType) :
  a ≠ b → away_from_pair a b x →
  opposite (cov (B a b f) x) (cov (B b a f) x).
Proof.
  intros Hab Hx. destruct x as [g|[c g]|[c d g]]; simpl in Hx.
  - done.
  - by_key_cases; rewrite ?neg_involutive; auto.
  - destruct Hx as (Hcd & Hnab & Hnba).
    by_key_cases; rewrite ?neg_involutive; auto;
      try (by destruct Hnab); try (by destruct Hnba).
Qed.

End CallerProperties.

(** ** Boundary construction *)

Section BoundaryProperties.
Context {GroupKey F : Type}.
Context (boundary_function : GroupKey → GroupKey → list F).

Lemma as_boundary_features_fmap (lhs rhs : GroupKey) (features : list F) :
  as_boundary_features lhs rhs features = as_boundary_feature lhs rhs <$> features.
Proof.
  unfold as_boundary_features.
  enough (∀ acc, foldl (λ bs f, bs ++ [as_boundary_feature lhs rhs f]) acc features
                 = acc ++ (as_boundary_feature lhs rhs <$> features)) as Hgen
    by apply (Hgen []).
  induction features as [|f fs IH]; intros acc; simpl.
  - by rewrite app_nil_r.
  - by rewrite IH, <- app_assoc.
Qed.

Lemma boundary_inner_loop_app (gi : GroupKey) (rest : list GroupKey) acc :
  boundary_inner_loop boundary_function gi rest acc
  = acc ++ (rest ≫= λ gj, as_boundary_feature gi gj <$> boundary_function gi gj).
Proof.
  unfold boundary_inner_loop.
  revert acc. induction rest as [|gj rest IH]; intros acc; simpl.
  - by rewrite app_nil_r.
  - rewrite as_boundary_features_fmap. case_bool_decide as Hlen.
    + by rewrite IH, <- app_assoc.
    + rewrite IH. f_equal.
      destruct (as_boundary_feature gi gj <$> boundary_function gi gj); [done|].
      simpl in Hlen. lia.
Qed.

Lemma boundary_outer_loop_app (groups : list GroupKey) acc :
  boundary_outer_loop boundary_function groups acc
  = acc ++ boundary_pairs boundary_function groups.
Proof.
  revert acc. induction groups as [|gi rest IH]; intros acc; simpl.
  - by rewrite app_nil_r.
  - by rewrite IH, boundary_inner_loop_app, <- app_assoc.
Qed.

Lemma build_boundary_features_unfold (groups : list GroupKey) :
  build_boundary_features boundary_function groups
  = match boundary_pairs boundary_function groups with
    | [] => Err assertion_failure
    | bs => Ok bs
    end.
Proof.
  unfold build_boundary_features. rewrite boundary_outer_loop_app. simpl.
  destruct (boundary_pairs boundary_function groups) as [|b bs]; [done|].
  unfold assert. case_bool_decide as Hlen; [done|]. simpl in Hlen. lia.
Qed.

Lemma elem_of_boundary_pairs (groups : list GroupKey) b :
  b ∈ boundary_pairs boundary_function groups →
  ∃ before gi after,
    groups = before ++ gi :: after ∧
    BoundaryFeature.lhs b = gi ∧
    BoundaryFeature.rhs b ∈ after ∧
    BoundaryFeature.feature b ∈ boundary_function gi (BoundaryFeature.rhs b).
Proof.
  induction groups as [|gi rest IH]; simpl; [by intros ?%elem_of_nil|].
  intros [Hb|Hb]%elem_of_app.
  - apply list_elem_of_bind in Hb as (gj & Hb & Hgj).
    apply list_elem_of_fmap in Hb as (f & -> & Hf).
    by exists [], gi, rest.
  - destruct (IH Hb) as (before & g & after & -> & ? & ? & ?).
    by exists (gi :: before), g, after.
Qed.

Lemma build_boundary_features_no_pairs (groups : list GroupKey) :
  (∀ x y, x ∈ groups → y ∈ groups → boundary_function x y = []) →
  build_boundary_features boundary_function groups = Err assertion_failure.
Proof.
  intros Hempty. rewrite build_boundary_features_unfold.
  destruct (boundary_pairs boundary_function groups) as [|b bs] eqn:Hpairs; [done|].
  assert (b ∈ boundary_pairs boundary_function groups) as Hb
    by (rewrite Hpairs; left).
  apply elem_of_boundary_pairs in Hb as (before & gi & after & -> & _ & Hr & Hf).
  rewrite Hempty in Hf.
  - by apply elem_of_nil in Hf.
  - apply elem_of_app. right. left.
  - apply elem_of_app. right. by right.
Qed.

(** C9, as amended: the boundary features that [build_boundary_features]
    returns for a sequence of groups without repetition (the keys of a
    [Grouped]) have a lhs different from their rhs. *)
Theorem build_boundary_features_distinct_sides (groups : list GroupKey) bs :
  NoDup groups →
  build_boundary_features boundary_function groups = Ok bs →
  Forall (λ b, BoundaryFeature.lhs b ≠ BoundaryFeature.rhs b) bs.
Proof.
  intros Hnodup Hbuild. rewrite build_boundary_features_unfold in Hbuild.
  assert (bs = boundary_pairs boundary_function groups) as ->
    by (destruct (boundary_pairs boundary_function groups); congruence).
  clear Hbuild. apply Forall_forall. intros b Hb.
  apply elem_of_boundary_pairs in Hb as (before & gi & after & -> & Hl & Hr & _).
  apply NoDup_app in Hnodup as (_ & _ & Hnodup).
  apply NoDup_cons in Hnodup as [Hgi _].
  intros Heq. apply Hgi. by rewrite <- Hl, Heq.
Qed.

End BoundaryProperties.

(** C9, as stated, fails: the public constructors accept equal keys, and so
    does [build_boundary_features] on a sequence that repeats a group. *)
Lemma boundary_feature_equal_sides_constructible :
  BoundaryFeature.lhs (as_boundary_feature 1 1 5%Z)
    = BoundaryFeature.rhs (as_boundary_feature 1 1 5%Z) ∧
  Exists (λ b, BoundaryFeature.lhs b = BoundaryFeature.rhs b)
         (as_boundary_features 1 1 [5%Z; 6%Z]) ∧
  ∃ bs, build_boundary_features Fixture.midpoint [1; 1] = Ok bs ∧
        Exists (λ b, BoundaryFeature.lhs b = BoundaryFeature.rhs b) bs.
Proof.
  split; [done|]. split; [by left|].
  eexists. split; [vm_compute; reflexivity|]. by left.
Qed.

(** ** Grouped collections and the block operations *)

Section ResultProperties.
Context {A B : Type}.

Lemma result_mapM_Ok (f : A → result B) (l : list A) :
  (∀ x, x ∈ l → is_Ok (f x)) →
  ∃ ys, result_mapM f l = Ok ys ∧ Forall2 (λ x y, f x = Ok y) l ys.
Proof.
  induction l as [|x l IH]; intros Hl; simpl.
  - by exists [].
  - destruct (Hl x) as [y Hy]; [left|].
    destruct IH as (ys & Hys & Hall); [intros z Hz; apply Hl; by right|].
    exists (y :: ys). rewrite Hy, Hys. split; [done|]. by constructor.
Qed.

Lemma result_mapM_Err (f : A → result B) (l : list A) :
  (∃ x, x ∈ l ∧ is_Err (f x)) → is_Err (result_mapM f l).
Proof.
  induction l as [|x l IH]; intros (z & Hz & Hfz).
  - by apply elem_of_nil in Hz.
  - simpl. apply elem_of_cons in Hz as [->|Hz].
    + destruct Hfz as [e ->]. by exists e.
    + destruct (f x) as [y|e]; [|by exists e]. simpl.
      destruct IH as [e He]; [by exists z|]. rewrite He. by exists e.
Qed.

End ResultProperties.

Section GroupedProperties.
Context {GroupKey V : Type} `{EqDecision GroupKey}.
Implicit Types (g : Grouped.t GroupKey V) (key : GroupKey).

Lemma at_elem_of g key :
  key ∈ Grouped.keys g → ∃ v, Grouped.at_ g key = Ok v ∧ (key, v) ∈ g.
Proof.
  unfold Grouped.keys. induction g as [|[k v] g IH]; simpl.
  - by intros ?%elem_of_nil.
  - intros Hkey. case_bool_decide as Hk.
    + subst. exists v. split; [done|left].
    + apply elem_of_cons in Hkey as [?|Hkey]; [congruence|].
      destruct (IH Hkey) as (w & ? & ?). exists w. split; [done|by right].
Qed.

Lemma at_not_elem_of g key :
  key ∉ Grouped.keys g → Grouped.at_ g key = Err out_of_range.
Proof.
  unfold Grouped.keys. induction g as [|[k v] g IH]; simpl; [done|].
  intros Hkey. apply not_elem_of_cons in Hkey as [? ?].
  case_bool_decide; [congruence|auto].
Qed.

Lemma at_Ok_inv g key v :
  Grouped.at_ g key = Ok v → (key, v) ∈ g.
Proof.
  induction g as [|[k w] g IH]; simpl; [done|].
  case_bool_decide; [intros [= ->]; subst; left|intros; right; auto].
Qed.

Lemma at_NoDup g key v :
  NoDup (Grouped.keys g) → (key, v) ∈ g → Grouped.at_ g key = Ok v.
Proof.
  unfold Grouped.keys. induction g as [|[k w] g IH]; simpl.
  - by intros _ ?%elem_of_nil.
  - intros [Hk Hnodup]%NoDup_cons Hin. case_bool_decide as Hkey.
    + subst. apply elem_of_cons in Hin as [[= ->]|Hin]; [done|].
      destruct Hk. apply list_elem_of_fmap. by exists (key, v).
    + apply elem_of_cons in Hin as [[= -> ->]|Hin]; [done|auto].
Qed.

Lemma keys_elem_of g key v : (key, v) ∈ g → key ∈ Grouped.keys g.
Proof. intros. apply list_elem_of_fmap. by exists (key, v). Qed.

End GroupedProperties.

Section BlockProperties.
Context {GroupKey : Type} `{EqDecision GroupKey}.

Lemma one_group_Ok {X Y : Type}
  (lhs : Grouped.t GroupKey X) (rhs : Grouped.t GroupKey Y)
  (f : X → Y → result Eigen.MatrixXd) (key : GroupKey) :
  key ∈ Grouped.keys lhs → key ∈ Grouped.keys rhs →
  one_group lhs rhs f key = apply_at lhs rhs f key.
Proof.
  intros Hl Hr. unfold one_group, Grouped.map_contains.
  by rewrite !bool_decide_true.
Qed.

Lemma accumulate_loop (one : GroupKey → result Eigen.MatrixXd)
  (term : GroupKey → Eigen.MatrixXd) (r c : nat) (keys : list GroupKey) :
  (∀ key, key ∈ keys →
     one key = Ok (term key) ∧ Eigen.rows (term key) = r ∧ Eigen.cols (term key) = c) →
  ∀ acc, Eigen.rows acc = r → Eigen.cols acc = c →
  ∃ out,
    result_foldM (λ output key, next ← one key; Eigen.plus output next) acc keys
      = Ok out ∧
    Eigen.rows out = r ∧ Eigen.cols out = c ∧
    ∀ i j, Eigen.coeff out i j
           = foldl Double.add (Eigen.coeff acc i j)
                   ((λ key, Eigen.coeff (term key) i j) <$> keys).
Proof.
  induction keys as [|key keys IH]; intros Hkeys acc Hr Hc; simpl.
  - by exists acc.
  - destruct (Hkeys key) as (-> & Hr' & Hc'); [left|]. simpl.
    unfold Eigen.plus, Eigen.same_shape.
    rewrite !bool_decide_true by congruence. simpl.
    edestruct IH as (out & -> & ? & ? & Hout);
      [intros; apply Hkeys; by right | | | ]; [simpl; done..|].
    exists out. repeat split; try done.
Qed.

Lemma block_accumulate_Ok {X Y : Type}
  (lhs : Grouped.t GroupKey X) (rhs : Grouped.t GroupKey Y)
  (apply_function : X → Y → result Eigen.MatrixXd) (r c : nat) :
  lhs ≠ [] →
  NoDup (Grouped.keys lhs) → NoDup (Grouped.keys rhs) →
  (∀ key, key ∈ Grouped.keys lhs ↔ key ∈ Grouped.keys rhs) →
  (∀ key, key ∈ Grouped.keys lhs →
     ∃ m, apply_at lhs rhs apply_function key = Ok m ∧
          Eigen.rows m = r ∧ Eigen.cols m = c) →
  ∃ out,
    block_accumulate lhs rhs apply_function = Ok out ∧
    Eigen.mat_eq out
      (sum_over_keys r c (Grouped.keys lhs) (term_at lhs rhs apply_function)).
Proof.
  intros Hne Hnl Hnr Hkeys Hshape.
  assert (∀ key, key ∈ Grouped.keys lhs →
            one_group lhs rhs apply_function key
              = Ok (term_at lhs rhs apply_function key) ∧
            Eigen.rows (term_at lhs rhs apply_function key) = r ∧
            Eigen.cols (term_at lhs rhs apply_function key) = c) as Hone.
  { intros key Hkey. destruct (Hshape key Hkey) as (m & Hm & ? & ?).
    rewrite one_group_Ok by (done || by apply Hkeys).
    unfold term_at. by rewrite Hm. }
  unfold block_accumulate.
  assert (Grouped.size lhs = Grouped.size rhs) as Hsize.
  { unfold Grouped.size.
    rewrite <- (length_fmap fst lhs), <- (length_fmap fst rhs).
    apply Permutation_length. by apply NoDup_Permutation. }
  assert (0 < Grouped.size lhs) as Hpos
    by (destruct lhs; [done|unfold Grouped.size; simpl; lia]).
  rewrite (bool_decide_true (Grouped.size lhs = Grouped.size rhs)) by done.
  rewrite (bool_decide_true (0 < Grouped.size lhs)) by done.
  simpl.
  destruct (Grouped.keys lhs) as [|key0 keys] eqn:Hk.
  { destruct lhs; [done|discriminate]. }
  destruct (Hone key0) as (-> & Hr0 & Hc0); [left|]. simpl.
  destruct (accumulate_loop (one_group lhs rhs apply_function)
              (term_at lhs rhs apply_function) r c keys) with
    (acc := term_at lhs rhs apply_function key0)
    as (out & Hout & Hr & Hc & Hcoeff); [|done..|].
  { intros. apply Hone. by right. }
  exists out. split; [done|]. repeat split; [done..|].
  intros i j _ _. by rewrite Hcoeff.
Qed.


(** C6: for two non-empty grouped collections with the same keys and an
    apply-function whose results all have one shape [r] by [c],
    [block_accumulate] returns the sum over the keys of
    [apply_function(lhs[key], rhs[key])], the terms being added in the order
    of the keys. *)
Theorem block_accumulate_sum {X Y : Type}
  (lhs : Grouped.t GroupKey X) (rhs : Grouped.t GroupKey Y)
  (apply_function : X → Y → result Eigen.MatrixXd) (r c : nat) :
  lhs ≠ [] →
  NoDup (Grouped.keys lhs) → NoDup (Grouped.keys rhs) →
  (∀ key, key ∈ Grouped.keys lhs ↔ key ∈ Grouped.keys rhs) →
  (∀ key, key ∈ Grouped.keys lhs →
     ∃ m, apply_at lhs rhs apply_function key = Ok m ∧
          Eigen.rows m = r ∧ Eigen.cols m = c) →
  ∃ out,
    block_accumulate lhs rhs apply_function = Ok out ∧
    Eigen.mat_eq out
      (sum_over_keys r c (Grouped.keys lhs) (term_at lhs rhs apply_function)).
Proof. apply block_accumulate_Ok. Qed.

Lemma block_solve_Ok {Solver Rhs Out : Type}
  (solve : Solver → Rhs → result Out)
  (lhs : Grouped.t GroupKey Solver) (rhs : Grouped.t GroupKey Rhs) :
  (∀ key, key ∈ Grouped.keys rhs → key ∈ Grouped.keys lhs) →
  (∀ key s x, (key, x) ∈ rhs → Grouped.at_ lhs key = Ok s → is_Ok (solve s x)) →
  ∃ out,
    block_solve solve lhs rhs = Ok out ∧
    Grouped.keys out = Grouped.keys rhs ∧
    Forall2 (λ entry solved,
               ∃ s, Grouped.at_ lhs entry.1 = Ok s ∧ solve s entry.2 = Ok solved.2)
            rhs out.
Proof.
  intros Hkeys Hsolve. unfold block_solve, Grouped.apply.
  edestruct (result_mapM_Ok
    (λ kv : GroupKey * Rhs,
       out ← (s ← Grouped.at_ lhs kv.1; solve s kv.2); Ok (kv.1, out)) rhs)
    as (out & Hout & Hall).
  { intros [key x] Hin. simpl.
    destruct (at_elem_of lhs key) as (s & Hs & _);
      [by eapply Hkeys, keys_elem_of|].
    destruct (Hsolve key s x Hin Hs) as [o Ho].
    rewrite Hs. simpl. rewrite Ho. by eexists. }
  exists out. split; [exact Hout|]. clear Hout. unfold Grouped.keys.
  induction Hall as [|[key x] [key' o] rhs' out' Hentry Hall IH]; [done|].
  assert (∀ y, y ∈ rhs' → y ∈ (key, x) :: rhs') as Hsub by (intros; by right).
  destruct IH as [IHk IHf];
    [intros k Hk; apply Hkeys; unfold Grouped.keys; simpl; by right
    |intros k s y Hin; apply Hsolve; by right|].
  simpl in Hentry.
  destruct (Grouped.at_ lhs key) as [s|] eqn:Hs; [|done]. simpl in Hentry.
  destruct (solve s x) as [o'|] eqn:Ho; [|done]. simpl in Hentry.
  injection Hentry as <- <-. split; [by rewrite !fmap_cons, IHk|].
  constructor; [by exists s|done].
Qed.

Lemma block_solve_lookup {Solver Rhs Out : Type}
  (solve : Solver → Rhs → result Out)
  (lhs : Grouped.t GroupKey Solver)
  (rhs : Grouped.t GroupKey Rhs) (out : Grouped.t GroupKey Out) :
  Grouped.keys out = Grouped.keys rhs →
  Forall2 (λ entry solved,
             ∃ s, Grouped.at_ lhs entry.1 = Ok s ∧ solve s entry.2 = Ok solved.2)
          rhs out →
  ∀ key x, (key, x) ∈ rhs →
    ∃ s o, Grouped.at_ lhs key = Ok s ∧ solve s x = Ok o ∧ (key, o) ∈ out.
Proof.
  unfold Grouped.keys. intros Hkeys Hall. revert Hkeys.
  induction Hall as [|[k y] [k' o] rhs' out' (s & Hs & Ho) Hall IH]; simpl.
  - by intros _ key x ?%elem_of_nil.
  - intros [= <- Hkeys] key x [[= -> ->]|Hin]%elem_of_cons.
    + exists s, o. repeat split; [done..|left].
    + destruct (IH Hkeys key x Hin) as (s' & o' & ? & ? & ?).
      exists s', o'. repeat split; [done..|by right].
Qed.

(** C7, as amended: [block_solve] looks every key of [rhs] up in [lhs].
    When each of them is a key of [lhs] (which may hold further keys) and
    the solves go through, it returns a collection with the keys of [rhs],
    in their order, whose values are [lhs[key].solve(rhs[key])]; when some
    key of [rhs] is missing from [lhs] it fails. *)
Theorem block_solve_per_key {Solver Rhs Out : Type}
  (solve : Solver → Rhs → result Out)
  (lhs : Grouped.t GroupKey Solver) (rhs : Grouped.t GroupKey Rhs) :
  ((∀ key, key ∈ Grouped.keys rhs → key ∈ Grouped.keys lhs) →
   (∀ key s x, (key, x) ∈ rhs → Grouped.at_ lhs key = Ok s → is_Ok (solve s x)) →
   ∃ out,
     block_solve solve lhs rhs = Ok out ∧
     Grouped.keys out = Grouped.keys rhs ∧
     Forall2 (λ entry solved,
                ∃ s, Grouped.at_ lhs entry.1 = Ok s ∧ solve s entry.2 = Ok solved.2)
             rhs out) ∧
  ((∃ key, key ∈ Grouped.keys rhs ∧ key ∉ Grouped.keys lhs) →
   is_Err (block_solve solve lhs rhs)).
Proof.
  split; [apply block_solve_Ok|].
  intros (key & Hr & Hl). unfold block_solve, Grouped.apply.
  apply result_mapM_Err.
  destruct (at_elem_of rhs key Hr) as (x & _ & Hin).
  exists (key, x). split; [done|]. simpl.
  rewrite (at_not_elem_of lhs key Hl). by eexists.
Qed.

(** C5, as amended: when every factorization solves its block exactly,
    [block_product(A, block_solve(A, B))] is the sum of the blocks of [B],
    all of one shape [r] by [c], added in the order of the keys. *)
Theorem block_product_block_solve_sum {Solver : Type}
  (solve : Solver → Eigen.MatrixXd → result Eigen.MatrixXd)
  (A : Grouped.t GroupKey Eigen.MatrixXd)
  (A_factorized : Grouped.t GroupKey Solver)
  (B : Grouped.t GroupKey Eigen.MatrixXd) (r c : nat) :
  B ≠ [] →
  NoDup (Grouped.keys A) → NoDup (Grouped.keys B) →
  (∀ key, key ∈ Grouped.keys A ↔ key ∈ Grouped.keys B) →
  (∀ key, key ∈ Grouped.keys B → key ∈ Grouped.keys A_factorized) →
  (∀ key b, (key, b) ∈ B → Eigen.rows b = r ∧ Eigen.cols b = c) →
  (∀ key a s b,
     Grouped.at_ A key = Ok a → Grouped.at_ A_factorized key = Ok s →
     (key, b) ∈ B →
     ∃ x p, solve s b = Ok x ∧ Eigen.times a x = Ok p ∧ Eigen.mat_eq p b) →
  ∃ X out,
    block_solve solve A_factorized B = Ok X ∧
    block_product A X = Ok out ∧
    Eigen.mat_eq out (sum_over_keys r c (Grouped.keys A) (block_at B)).
Proof.
  intros Hne HnA HnB Hkeys Hfact Hshape Hexact.
  assert (∀ key b, (key, b) ∈ B →
            ∃ a s, Grouped.at_ A key = Ok a ∧ Grouped.at_ A_factorized key = Ok s)
    as Hboth.
  { intros key b Hin. pose proof (keys_elem_of B key b Hin) as Hk.
    destruct (at_elem_of A key) as (a & ? & _); [by apply Hkeys|].
    destruct (at_elem_of A_factorized key) as (s & ? & _); [by apply Hfact|].
    by exists a, s. }
  destruct (block_solve_Ok solve A_factorized B) as (X & HX & HkX & Hall);
    [done| |].
  { intros key s b Hin Hs. destruct (Hboth key b Hin) as (a & s' & Ha & Hs').
    destruct (Hexact key a s b) as (x & _ & -> & _); [done..|]. by eexists. }
  pose proof (block_solve_lookup solve A_factorized B X HkX Hall) as Hlookup.
  assert (∀ key, key ∈ Grouped.keys A →
            ∃ p b, apply_at A X Eigen.times key = Ok p ∧
                   Grouped.at_ B key = Ok b ∧ Eigen.mat_eq p b ∧
                   Eigen.rows b = r ∧ Eigen.cols b = c) as Hterm.
  { intros key Hk. destruct (at_elem_of B key) as (b & Hb & Hin); [by apply Hkeys|].
    destruct (Hboth key b Hin) as (a & s & Ha & Hs).
    destruct (Hlookup key b Hin) as (s' & x & Hs' & Hx & HinX).
    destruct (Hexact key a s b) as (x' & p & Hx' & Hp & Heq); [done..|].
    assert (s' = s) as -> by congruence. assert (x' = x) as -> by congruence.
    exists p, b. unfold apply_at. rewrite Ha. simpl.
    rewrite (at_NoDup X key x) by (by rewrite ?HkX). simpl.
    destruct (Hshape key b Hin). done. }
  destruct (block_accumulate_Ok A X Eigen.times r c) as (out & Hout & Hr & Hc & Hcoeff).
  - intros ->. destruct B as [|[key b] B']; [done|].
    assert (key ∈ Grouped.keys ([] : Grouped.t GroupKey Eigen.MatrixXd)) as Habs
      by (apply Hkeys; left).
    by apply elem_of_nil in Habs.
  - done.
  - by rewrite HkX.
  - intros key. by rewrite HkX.
  - intros key Hk. destruct (Hterm key Hk) as (p & b & Hp & _ & (Hpr & Hpc & _) & ? & ?).
    exists p. split; [done|]. split; congruence.
  - exists X, out. split; [done|]. split; [done|].
    split; [done|]. split; [done|].
    intros i j Hi Hj. rewrite Hcoeff by done. simpl. f_equal.
    apply list_fmap_ext. intros _ key Hkey%list_elem_of_lookup_2.
    destruct (Hterm key Hkey) as (p & b & Hp & Hb & (Hpr & Hpc & Hpb) & ? & ?).
    unfold term_at, block_at. rewrite Hp, Hb. simpl.
    apply Hpb; simpl in *; lia.
Qed.

End BlockProperties.

(** C7, as stated, fails: with the keys 1 and 2 on the left and the key 1
    alone on the right the key sets differ and [block_solve] returns, with
    the one key of the right operand. *)
Lemma block_solve_accepts_more_keys_on_the_left :
  (2 ∈ Grouped.keys Fixture.A2_factorized ∧ 2 ∉ Grouped.keys Fixture.B1) ∧
  ∃ out, block_solve Fixture.scalar_solve Fixture.A2_factorized Fixture.B1 = Ok out ∧
         Grouped.keys out = [1].
Proof.
  split.
  - split; [right; left|].
    intros [?|?%elem_of_nil]%elem_of_cons; done.
  - eexists. split; [vm_compute; reflexivity|done].
Qed.

(** C5, as stated, fails: for two groups with blocks [2] and [4] and the
    right-hand side blocks [6] and [12], the solves are exact, and the
    block product of [A] with the solution is the 1 by 1 matrix [18]; it is
    not the 2 by 1 matrix of the blocks of [B], and equal to neither block. *)
Lemma block_product_block_solve_is_not_rhs :
  ∃ X out,
    block_solve Fixture.scalar_solve Fixture.A2_factorized Fixture.B2 = Ok X ∧
    block_product Fixture.A2 X = Ok out ∧
    ¬ Eigen.mat_eq out (stacked Fixture.B2) ∧
    Eigen.rows out = 1 ∧ Eigen.cols out = 1 ∧
    Eigen.coeff out 0 0 = Double.of_int 18 ∧
    Forall (λ b, ¬ Eigen.mat_eq out b) (Grouped.values Fixture.B2).
Proof.
  eexists. eexists. split; [vm_compute; reflexivity|].
  split; [vm_compute; reflexivity|].
  split; [intros [Hrows _]; vm_compute in Hrows; discriminate|].
  do 3 (split; [vm_compute; reflexivity|]).
  repeat constructor; intros (_ & _ & Hcoeff);
    specialize (Hcoeff 0 0); vm_compute in Hcoeff;
    (discriminate (Hcoeff ltac:(lia) ltac:(lia))).
Qed.

(** ** Distributions *)

Section DistributionProperties.
Context {C : Type} `{CovarianceType C}.

(** C10: on a distribution with a covariance (of positive size, square and
    of the size of the mean) [get_diagonal(i)] is [covariance.diagonal()[i]];
    on a distribution without covariance it is [NAN]. *)
Theorem get_diagonal_spec (d : Distribution.t C) (i : Z) :
  (0 < cov_size (Distribution.covariance d) →
   cov_rows (Distribution.covariance d) = cov_cols (Distribution.covariance d) →
   Eigen.size (Distribution.mean d) = cov_rows (Distribution.covariance d) →
   Distribution.has_covariance d = Ok true ∧
   Distribution.get_diagonal d i = cov_diagonal_at (Distribution.covariance d) i) ∧
  (cov_size (Distribution.covariance d) = 0 →
   Distribution.has_covariance d = Ok false ∧
   Distribution.get_diagonal d i = Ok Double.NAN).
Proof.
  unfold Distribution.get_diagonal, Distribution.has_covariance,
    Distribution.assert_valid.
  split.
  - intros Hpos Hsquare Hmean.
    rewrite !(bool_decide_true (0 < _)) by done.
    rewrite !bool_decide_true by done. done.
  - intros Hzero.
    rewrite !(bool_decide_false (0 < _)) by lia. done.
Qed.

End DistributionProperties.

Lemma MatrixXd_diagonal_at (m : Eigen.MatrixXd) (i : nat) :
  i < Eigen.rows m → i < Eigen.cols m →
  cov_diagonal_at m (Z.of_nat i) = Ok (Eigen.coeff m i i).
Proof.
  intros. simpl. unfold Eigen.diagonal_at.
  rewrite bool_decide_true by lia. simpl. by rewrite Nat2Z.id.
Qed.

(** ** Prediction with a single group *)

Section PredictProperties.
Context {GroupKey FeatureType Solver Target : Type} `{EqDecision GroupKey}.
Context (key_less : GroupKey → GroupKey → bool).
Context (covariance_function_ : FeatureType → FeatureType → double).
Context (patchwork_functions_ : PatchworkFunctions.t GroupKey FeatureType).
Context (solve : Solver → Eigen.MatrixXd → result Eigen.MatrixXd).
Context (ldlt_solve : Eigen.MatrixXd → Eigen.MatrixXd → result Eigen.MatrixXd).
Context (single_gp_fit : list (FeatureType * Target) → FitModel.t FeatureType Solver).

Local Abbreviation predict :=
  (_predict_impl key_less covariance_function_ patchwork_functions_ solve ldlt_solve).
Local Abbreviation fit :=
  (_fit_impl (Solver := Solver) key_less patchwork_functions_ single_gp_fit).

Lemma add_to_group_same {Item : Type} (key : GroupKey) (x : Item) (xs : list Item) :
  add_to_group key_less key x [(key, xs)] = [(key, xs ++ [x])].
Proof. simpl. by rewrite bool_decide_true. Qed.

Lemma group_by_one_key {Item : Type} (items : list Item)
  (grouper : Item → GroupKey) (key : GroupKey) :
  items ≠ [] → (∀ x, grouper x = key) →
  group_by key_less items grouper = [(key, items)].
Proof.
  intros Hne Hkey. unfold group_by.
  destruct items as [|x items]; [done|]. simpl. rewrite Hkey.
  enough (∀ acc, foldl (λ g y, add_to_group key_less (grouper y) y g)
                   [(key, acc)] items = [(key, acc ++ items)]) as Hgen
    by apply (Hgen [x]).
  clear Hne. induction items as [|y items IH]; intros acc; simpl.
  - by rewrite app_nil_r.
  - rewrite Hkey, bool_decide_true by done. rewrite IH.
    by rewrite <- app_assoc.
Qed.

(** C4: when the boundary function gives an empty sequence for every pair
    of the groups, [build_boundary_features] ends in the failure of its
    assertion [boundary_features.size() > 0], for any number of groups; a
    prediction from more than one group, which builds its boundary features
    from the keys of the fit, ends in that failure. *)
Theorem build_boundary_features_empty_fails :
  (∀ (boundary_function : GroupKey → GroupKey → list FeatureType) groups,
     (∀ x y, x ∈ groups → y ∈ groups → boundary_function x y = []) →
     build_boundary_features boundary_function groups = Err assertion_failure) ∧
  (∀ features patchwork_fit,
     1 < Grouped.size (PatchworkGPFit.fit_models patchwork_fit) →
     (∀ x y,
        x ∈ Grouped.keys (PatchworkGPFit.fit_models patchwork_fit) →
        y ∈ Grouped.keys (PatchworkGPFit.fit_models patchwork_fit) →
        PatchworkFunctions.boundary patchwork_functions_ x y = []) →
     predict features patchwork_fit = Err assertion_failure).
Proof.
  split; [apply build_boundary_features_no_pairs|].
  intros features [fit_models] Hsize Hempty. simpl in *.
  unfold _predict_impl. simpl.
  rewrite bool_decide_false by lia.
  unfold predict_with_boundaries.
  by rewrite build_boundary_features_no_pairs.
Qed.

(** C2: with exactly one group in the fit state, the joint prediction of the
    patchwork model is the joint prediction of that group's own fitted
    model; a model whose grouper sends every feature to one key is in that
    case on any non-empty training set, and predicts as the single-group
    model fitted to the whole training set. *)
Theorem single_group_prediction :
  (∀ features patchwork_fit,
     Grouped.size (PatchworkGPFit.fit_models patchwork_fit) = 1 →
     ∃ key fit_model,
       PatchworkGPFit.fit_models patchwork_fit = [(key, fit_model)] ∧
       predict features patchwork_fit
       = Ok (Prediction.joint (FitModel.predict fit_model features))) ∧
  (∀ train_features targets key features,
     train_features ≠ [] → length train_features = length targets →
     (∀ f, PatchworkFunctions.grouper patchwork_functions_ f = key) →
     ∃ patchwork_fit,
       fit train_features targets = Ok patchwork_fit ∧
       PatchworkGPFit.fit_models patchwork_fit
       = [(key, single_gp_fit (zip train_features targets))] ∧
       predict features patchwork_fit
       = Ok (Prediction.joint
               (FitModel.predict (single_gp_fit (zip train_features targets))
                                 features))).
Proof.
  split.
  - intros features [fit_models] Hsize. simpl in Hsize.
    destruct fit_models as [|[key fit_model] [|]]; try done.
    exists key, fit_model. done.
  - intros train_features targets key features Hne Hlen Hkey.
    unfold _fit_impl, from_fit_models.
    rewrite bool_decide_true by done. simpl.
    rewrite (group_by_one_key (zip train_features targets) _ key).
    + eexists. split; [done|]. done.
    + destruct train_features, targets; done.
    + done.
Qed.

End PredictProperties.

(** ** Worked instances

    The properties above at the concrete keys, features, covariance function
    and matrices of [Fixture]. *)

(** C3 fails on the code at [a = 1], [b = 2], [x = BoundaryFeature(1, 2, f)]:
    the caller gives [2 * k] for the pair against itself and [0.] for the
    swapped pair against it, and [2. == -0.] does not hold. *)
Lemma boundary_swap_not_antisymmetric :
  PatchworkCaller.call Fixture.k (Fixture.B 1 2 1) (Fixture.B 1 2 1)
    = Some (Double.of_int 2) ∧
  PatchworkCaller.call Fixture.k (Fixture.B 2 1 1) (Fixture.B 1 2 1)
    = Some Double.zero ∧
  Double.eqb (Double.of_int 2) (Double.neg Double.zero) = false.
Proof.
  destruct (cov_boundary_swapped_pair Fixture.k 1 2 1%Z 1%Z) as [Hsame Hswap];
    [done|].
  split; [|split].
  - etransitivity; [exact Hsame|]. vm_compute. reflexivity.
  - exact Hswap.
  - vm_compute. reflexivity.
Qed.

Lemma patchwork_caller_dispatch_table_witness :
  PatchworkCaller.call Fixture.k (Fixture.G 1 3) (Fixture.G 1 5)
    = Some (Fixture.k 3 5) ∧
  PatchworkCaller.call Fixture.k (Fixture.G 1 3) (Fixture.G 2 5)
    = Some Double.zero ∧
  PatchworkCaller.call Fixture.k (Fixture.G 1 3) (Fixture.B 1 2 5)
    = Some (Fixture.k 3 5) ∧
  PatchworkCaller.call Fixture.k (Fixture.G 2 3) (Fixture.B 1 2 5)
    = Some (Double.neg (Fixture.k 3 5)) ∧
  PatchworkCaller.call Fixture.k (Fixture.G 3 3) (Fixture.B 1 2 5)
    = Some Double.zero ∧
  PatchworkCaller.call Fixture.k (Fixture.B 1 2 3) (Fixture.B 1 2 5)
    = Some (Double.mul (Double.of_int 2) (Fixture.k 3 5)) ∧
  PatchworkCaller.call Fixture.k (Fixture.B 1 2 3) (Fixture.B 1 3 5)
    = Some (Fixture.k 3 5) ∧
  PatchworkCaller.call Fixture.k (Fixture.B 1 2 3) (Fixture.B 2 3 5)
    = Some (Double.neg (Fixture.k 3 5)) ∧
  PatchworkCaller.call Fixture.k (Fixture.B 1 2 3) (Fixture.B 3 4 5)
    = Some Double.zero.
Proof.
  destruct (patchwork_caller_dispatch_table (GroupKey := nat) Fixture.k)
    as (Hgg & Hgg0 & Hgl & Hgr & Hg0 & _ & Hbb2 & Hbb1 & Hbbn & Hbb0).
  split; [apply (Hgg 1 1 3%Z 5%Z); reflexivity|].
  split; [apply (Hgg0 1 2 3%Z 5%Z); lia|].
  split; [apply (Hgl 1 1 2 3%Z 5%Z); reflexivity|].
  split; [apply (Hgr 2 1 2 3%Z 5%Z); [lia|reflexivity]|].
  split; [apply (Hg0 3 1 2 3%Z 5%Z); lia|].
  split; [apply (Hbb2 1 2 1 2 3%Z 5%Z); reflexivity|].
  split; [apply (Hbb1 1 2 1 3 3%Z 5%Z); left; split; [reflexivity|lia]|].
  split; [apply (Hbbn 1 2 2 3 3%Z 5%Z); [lia|lia|right; split; [reflexivity|lia]]|].
  apply (Hbb0 1 2 3 4 3%Z 5%Z); lia.
Defined.

Lemma Fixture_k_symmetric (a b : Z) : Fixture.k a b = Fixture.k b a.
Proof. unfold Fixture.k. by rewrite Z.mul_comm. Defined.

Lemma patchwork_caller_symmetric_witness :
  (∀ x y : Arg nat Z,
     PatchworkCaller.call Fixture.k x y = PatchworkCaller.call Fixture.k y x) ∧
  (∀ fx fy : Z,
     PatchworkCaller.call (GroupKey := nat) Fixture.k (Raw fx) (Raw fy)
     = Some (Fixture.k fx fy)).
Proof. exact (patchwork_caller_symmetric Fixture.k Fixture_k_symmetric). Defined.

Lemma build_boundary_features_empty_fails_witness :
  build_boundary_features Fixture.no_boundary [1; 2] = Err assertion_failure ∧
  _predict_impl Nat.ltb Fixture.k Fixture.sign_no_boundary_functions
    Fixture.identity_solve Fixture.identity_solve [(-3)%Z; 3%Z]
    Fixture.two_group_fit
  = Err assertion_failure.
Proof.
  destruct (build_boundary_features_empty_fails Nat.ltb Fixture.k
              Fixture.sign_no_boundary_functions
              (Fixture.identity_solve (S := unit)) Fixture.identity_solve)
    as [Hbuild Hpredict].
  split.
  - apply (Hbuild Fixture.no_boundary [1; 2]). intros x y _ _. reflexivity.
  - apply (Hpredict [(-3)%Z; 3%Z] Fixture.two_group_fit).
    + vm_compute. lia.
    + intros x y _ _. reflexivity.
Defined.

(** With one boundary point between the two groups the same prediction
    goes through all the steps of the boundary path and returns a joint
    distribution over the two queries. *)
Lemma two_group_prediction_runs :
  (d ← _predict_impl Nat.ltb Fixture.k Fixture.sign_functions
         Fixture.identity_solve Fixture.identity_solve [(-3)%Z; 3%Z]
         Fixture.two_group_fit;
   Ok (Eigen.rows (Distribution.mean d), Eigen.cols (Distribution.mean d),
       Eigen.rows (Distribution.covariance d),
       Eigen.cols (Distribution.covariance d)))
  = Ok (2, 1, 2, 2).
Proof. vm_compute. reflexivity. Qed.

Lemma build_boundary_features_distinct_sides_witness :
  Forall (λ b : BoundaryFeature.t nat Z, BoundaryFeature.lhs b ≠ BoundaryFeature.rhs b)
    [as_boundary_feature 1 2 3%Z; as_boundary_feature 1 3 4%Z;
     as_boundary_feature 2 3 5%Z].
Proof.
  apply (build_boundary_features_distinct_sides Fixture.midpoint [1; 2; 3]).
  - apply NoDup_ListNoDup. repeat constructor; simpl; lia.
  - vm_compute. reflexivity.
Defined.

Lemma block_accumulate_sum_witness :
  ∃ out,
    block_accumulate Fixture.A2 Fixture.B2 Eigen.times = Ok out ∧
    Eigen.mat_eq out
      (sum_over_keys 1 1 [1; 2] (term_at Fixture.A2 Fixture.B2 Eigen.times)).
Proof.
  apply (block_accumulate_sum Fixture.A2 Fixture.B2 Eigen.times 1 1).
  - discriminate.
  - apply NoDup_ListNoDup. repeat constructor; simpl; lia.
  - apply NoDup_ListNoDup. repeat constructor; simpl; lia.
  - intros key. reflexivity.
  - intros key Hkey. apply list_elem_of_In in Hkey.
    destruct Hkey as [<-|[<-|[]]]; eexists;
      (split; [vm_compute; reflexivity|split; reflexivity]).
Defined.

Lemma block_solve_per_key_witness :
  (∃ out,
     block_solve Fixture.scalar_solve Fixture.A2_factorized Fixture.B1 = Ok out ∧
     Grouped.keys out = Grouped.keys Fixture.B1 ∧
     Forall2 (λ entry solved,
                ∃ s, Grouped.at_ Fixture.A2_factorized entry.1 = Ok s ∧
                     Fixture.scalar_solve s entry.2 = Ok solved.2)
             Fixture.B1 out) ∧
  is_Err (block_solve Fixture.scalar_solve Fixture.A1_factorized Fixture.B2).
Proof.
  split.
  - apply (block_solve_per_key Fixture.scalar_solve Fixture.A2_factorized Fixture.B1).
    + intros key Hkey. apply list_elem_of_In in Hkey.
      destruct Hkey as [<-|[]]. apply list_elem_of_In. simpl. lia.
    + intros key s x Hin Hs. apply list_elem_of_In in Hin.
      destruct Hin as [[= <- <-]|[]]. eexists. reflexivity.
  - apply (block_solve_per_key Fixture.scalar_solve Fixture.A1_factorized Fixture.B2).
    exists 2. split; [apply list_elem_of_In; simpl; lia|].
    intros Hin. apply list_elem_of_In in Hin. simpl in Hin. lia.
Defined.

Lemma block_product_block_solve_sum_witness :
  ∃ X out,
    block_solve Fixture.scalar_solve Fixture.A2_factorized Fixture.B2 = Ok X ∧
    block_product Fixture.A2 X = Ok out ∧
    Eigen.mat_eq out (sum_over_keys 1 1 [1; 2] (block_at Fixture.B2)).
Proof.
  apply (block_product_block_solve_sum Fixture.scalar_solve
           Fixture.A2 Fixture.A2_factorized Fixture.B2 1 1).
  - discriminate.
  - apply NoDup_ListNoDup. repeat constructor; simpl; lia.
  - apply NoDup_ListNoDup. repeat constructor; simpl; lia.
  - intros key. reflexivity.
  - intros key Hkey. exact Hkey.
  - intros key b Hin. apply list_elem_of_In in Hin.
    destruct Hin as [[= <- <-]|[[= <- <-]|[]]]; split; reflexivity.
  - intros key a s b Ha Hs Hin. apply list_elem_of_In in Hin.
    destruct Hin as [[= <- <-]|[[= <- <-]|[]]];
      vm_compute in Ha, Hs; injection Ha as <-; injection Hs as <-;
      eexists; eexists;
      (split; [vm_compute; reflexivity|]);
      (split; [vm_compute; reflexivity|]);
      (split; [reflexivity|]); (split; [reflexivity|]);
      intros i j _ _; vm_compute; reflexivity.
Defined.

Lemma get_diagonal_spec_witness :
  (Distribution.has_covariance Fixture.joint2 = Ok true ∧
   Distribution.get_diagonal Fixture.joint2 1 = Ok (Double.of_int 11)) ∧
  (Distribution.has_covariance Fixture.mean_only2 = Ok false ∧
   Distribution.get_diagonal Fixture.mean_only2 1 = Ok Double.NAN).
Proof.
  split.
  - destruct (get_diagonal_spec Fixture.joint2 1) as [Hcov _].
    destruct Hcov as [Hhas Hget]; [vm_compute; lia|reflexivity|reflexivity|].
    split; [exact Hhas|].
    etransitivity; [exact Hget|]. vm_compute. reflexivity.
  - destruct (get_diagonal_spec Fixture.mean_only2 1) as [_ Hnone].
    apply Hnone. reflexivity.
Defined.

Lemma single_group_prediction_witness :
  ∃ patchwork_fit,
    _fit_impl Nat.ltb Fixture.one_group_functions Fixture.sum_fit
      [1; 2]%Z [10; 20]%Z = Ok patchwork_fit ∧
    PatchworkGPFit.fit_models patchwork_fit
    = [(7, Fixture.sum_fit [(1, 10); (2, 20)]%Z)] ∧
    _predict_impl Nat.ltb Fixture.k Fixture.one_group_functions
      Fixture.identity_solve Fixture.identity_solve [5%Z] patchwork_fit
    = Ok (Prediction.joint
            (FitModel.predict (Fixture.sum_fit [(1, 10); (2, 20)]%Z) [5%Z])).
Proof.
  destruct (single_group_prediction Nat.ltb Fixture.k Fixture.one_group_functions
              (Fixture.identity_solve (S := unit)) Fixture.identity_solve
              Fixture.sum_fit) as [_ Hfit].
  apply (Hfit [1; 2]%Z [10; 20]%Z 7 [5%Z]).
  - discriminate.
  - reflexivity.
  - intros f. reflexivity.
Defined.

(** ** Further properties of the boundary construction *)

Lemma bind_Ok_inv {A B : Type} (m : result A) (f : A → result B) (b : B) :
  m ≫= f = Ok b → ∃ a, m = Ok a ∧ f a = Ok b.
Proof. destruct m as [a|e]; [by exists a|done]. Qed.

Lemma assert_Ok_inv (c : bool) (u : unit) : assert c = Ok u → c = true.
Proof. by destruct c. Qed.

Section BoundaryCoverage.
Context {GroupKey F : Type}.
Context (boundary_function : GroupKey → GroupKey → list F).

Lemma elem_of_boundary_pairs_2 (before after : list GroupKey) (gi gj : GroupKey) (f : F) :
  gj ∈ after → f ∈ boundary_function gi gj →
  as_boundary_feature gi gj f
    ∈ boundary_pairs boundary_function (before ++ gi :: after).
Proof.
  intros Hgj Hf. induction before as [|g before IH]; simpl.
  - apply elem_of_app. left. apply list_elem_of_bind. exists gj.
    split; [|done]. by apply list_elem_of_fmap_2.
  - apply elem_of_app. by right.
Qed.

(** X1: what [build_boundary_features] returns is exactly the boundary
    features [(groups[i], groups[j], f)] with [i < j] and [f] one of
    [boundary_function(groups[i], groups[j])]: none is left out, and the
    boundary function is never asked for a pair in the other order. *)
Theorem build_boundary_features_exact (groups : list GroupKey) bs :
  build_boundary_features boundary_function groups = Ok bs →
  ∀ b, b ∈ bs ↔
       ∃ before after,
         groups = before ++ BoundaryFeature.lhs b :: after ∧
         BoundaryFeature.rhs b ∈ after ∧
         BoundaryFeature.feature b
           ∈ boundary_function (BoundaryFeature.lhs b) (BoundaryFeature.rhs b).
Proof.
  intros Hbuild b. rewrite build_boundary_features_unfold in Hbuild.
  assert (bs = boundary_pairs boundary_function groups) as ->
    by (destruct (boundary_pairs boundary_function groups); congruence).
  split.
  - intros (before & gi & after & -> & <- & ? & ?)%elem_of_boundary_pairs.
    by exists before, after.
  - intros (before & after & -> & Hr & Hf). destruct b as [l r f]. simpl in *.
    by apply (elem_of_boundary_pairs_2 before after l r f).
Qed.

Lemma boundary_pairs_length (groups : list GroupKey) :
  length groups ≤ 1 → boundary_pairs boundary_function groups = [].
Proof. destruct groups as [|g [|g' groups]]; simpl; [done..|lia]. Qed.

End BoundaryCoverage.

Section FewGroups.
Context {GroupKey FeatureType Solver : Type} `{EqDecision GroupKey}.
Context (key_less : GroupKey → GroupKey → bool).
Context (covariance_function_ : FeatureType → FeatureType → double).
Context (patchwork_functions_ : PatchworkFunctions.t GroupKey FeatureType).
Context (solve : Solver → Eigen.MatrixXd → result Eigen.MatrixXd).
Context (ldlt_solve : Eigen.MatrixXd → Eigen.MatrixXd → result Eigen.MatrixXd).

(** X2: with fewer than two groups there is no pair to put a boundary between:
    [build_boundary_features] fails its assertion whatever the boundary
    function is, and so does a prediction from a fit without any group. *)
Theorem no_boundary_below_two_groups :
  (∀ (boundary_function : GroupKey → GroupKey → list FeatureType) groups,
     length groups ≤ 1 →
     build_boundary_features boundary_function groups = Err assertion_failure) ∧
  (∀ features,
     _predict_impl (Solver := Solver) key_less covariance_function_
       patchwork_functions_ solve ldlt_solve features (PatchworkGPFit.mk [])
     = Err assertion_failure).
Proof.
  split.
  - intros bf groups Hlen. rewrite build_boundary_features_unfold.
    by rewrite boundary_pairs_length.
  - intros features. reflexivity.
Qed.

End FewGroups.

(** ** Further properties of the block operations *)

Section ResultInversion.
Context {A B : Type}.

Lemma result_mapM_Ok_inv (f : A → result B) (l : list A) (ys : list B) :
  result_mapM f l = Ok ys → Forall2 (λ x y, f x = Ok y) l ys.
Proof.
  revert ys. induction l as [|x l IH]; intros ys; simpl.
  - intros [= <-]. constructor.
  - intros (y & Hy & (ys' & Hys & [= <-])%bind_Ok_inv)%bind_Ok_inv.
    constructor; [done|auto].
Qed.

Lemma result_foldM_ext (f g : A → B → result A) (a : A) (l : list B) :
  (∀ a x, x ∈ l → f a x = g a x) → result_foldM f a l = result_foldM g a l.
Proof.
  revert a. induction l as [|x l IH]; intros a Hfg; simpl; [done|].
  rewrite (Hfg a x) by left. destruct (g a x) as [a'|e]; simpl; [|done].
  apply IH. intros; apply Hfg; by right.
Qed.

End ResultInversion.

Lemma plus_Ok_inv (a b c : Eigen.MatrixXd) :
  Eigen.plus a b = Ok c →
  Eigen.rows b = Eigen.rows a ∧ Eigen.cols b = Eigen.cols a ∧
  Eigen.rows c = Eigen.rows a ∧ Eigen.cols c = Eigen.cols a.
Proof.
  unfold Eigen.plus, Eigen.same_shape.
  intros (_ & Hshape%assert_Ok_inv & [= <-])%bind_Ok_inv.
  apply andb_prop in Hshape as [?%bool_decide_eq_true_1 ?%bool_decide_eq_true_1].
  done.
Qed.

Lemma minus_Ok_inv (a b c : Eigen.MatrixXd) :
  Eigen.minus a b = Ok c →
  Eigen.rows b = Eigen.rows a ∧ Eigen.cols b = Eigen.cols a ∧
  Eigen.rows c = Eigen.rows a ∧ Eigen.cols c = Eigen.cols a.
Proof.
  unfold Eigen.minus, Eigen.same_shape.
  intros (_ & Hshape%assert_Ok_inv & [= <-])%bind_Ok_inv.
  apply andb_prop in Hshape as [?%bool_decide_eq_true_1 ?%bool_decide_eq_true_1].
  done.
Qed.

Lemma times_Ok_inv (a b c : Eigen.MatrixXd) :
  Eigen.times a b = Ok c →
  Eigen.cols a = Eigen.rows b ∧
  Eigen.rows c = Eigen.rows a ∧ Eigen.cols c = Eigen.cols b.
Proof.
  unfold Eigen.times.
  intros (_ & ?%assert_Ok_inv%bool_decide_eq_true_1 & [= <-])%bind_Ok_inv. done.
Qed.

Section GroupedApply.
Context {GroupKey V W : Type} `{EqDecision GroupKey}.

Lemma apply_Ok_inv (f : GroupKey → V → result W)
  (g : Grouped.t GroupKey V) (out : Grouped.t GroupKey W) :
  Grouped.apply f g = Ok out →
  Grouped.keys out = Grouped.keys g ∧
  Forall2 (λ kv kw, kw.1 = kv.1 ∧ f kv.1 kv.2 = Ok kw.2) g out.
Proof.
  unfold Grouped.apply, Grouped.keys. intros Hall%result_mapM_Ok_inv.
  induction Hall as [|[k v] [k' w] g' out' Hentry Hall [IHk IHf]]; [done|].
  simpl in Hentry. apply bind_Ok_inv in Hentry as (w' & Hw & [= <- <-]).
  split; [by rewrite !fmap_cons, IHk|]. by constructor.
Qed.

Lemma apply_values_keys (h : V → W) (g : Grouped.t GroupKey V) :
  Grouped.keys (Grouped.apply_values h g) = Grouped.keys g.
Proof.
  unfold Grouped.keys, Grouped.apply_values.
  rewrite <- list_fmap_compose. by apply list_fmap_ext; intros _ [k v] _.
Qed.

Lemma apply_values_at (h : V → W) (g : Grouped.t GroupKey V) (key : GroupKey) :
  Grouped.at_ (Grouped.apply_values h g) key = h <$> Grouped.at_ g key.
Proof.
  unfold Grouped.apply_values.
  induction g as [|[k v] g IH]; simpl; [done|]. by case_bool_decide.
Qed.

Lemma size_keys (g : Grouped.t GroupKey V) :
  Grouped.size g = length (Grouped.keys g).
Proof. unfold Grouped.size, Grouped.keys. by rewrite length_fmap. Qed.

End GroupedApply.

Section MoreBlockProperties.
Context {GroupKey : Type} `{EqDecision GroupKey}.

Lemma one_group_Ok_inv {X Y : Type}
  (lhs : Grouped.t GroupKey X) (rhs : Grouped.t GroupKey Y)
  (f : X → Y → result Eigen.MatrixXd) (key : GroupKey) (m : Eigen.MatrixXd) :
  one_group lhs rhs f key = Ok m →
  key ∈ Grouped.keys lhs ∧ key ∈ Grouped.keys rhs ∧ apply_at lhs rhs f key = Ok m.
Proof.
  unfold one_group, Grouped.map_contains.
  intros (_ & Hc%assert_Ok_inv & Happly)%bind_Ok_inv.
  apply andb_prop in Hc as [?%bool_decide_eq_true_1 ?%bool_decide_eq_true_1]. done.
Qed.

Lemma accumulate_loop_inv (one : GroupKey → result Eigen.MatrixXd)
  (keys : list GroupKey) (acc out : Eigen.MatrixXd) :
  result_foldM (λ output key, next ← one key; Eigen.plus output next) acc keys
    = Ok out →
  Eigen.rows out = Eigen.rows acc ∧ Eigen.cols out = Eigen.cols acc ∧
  ∀ key, key ∈ keys →
    ∃ m, one key = Ok m ∧
         Eigen.rows m = Eigen.rows acc ∧ Eigen.cols m = Eigen.cols acc.
Proof.
  revert acc. induction keys as [|key keys IH]; intros acc; simpl.
  - intros [= <-]. split; [done|]. split; [done|]. by intros key ?%elem_of_nil.
  - intros (acc' & (m & Hm & Hplus)%bind_Ok_inv & Hrest)%bind_Ok_inv.
    apply plus_Ok_inv in Hplus as (? & ? & Hr & Hc).
    destruct (IH _ Hrest) as (? & ? & Hkeys).
    split; [congruence|]. split; [congruence|].
    intros k [->|Hk]%elem_of_cons; [by exists m|].
    destruct (Hkeys k Hk) as (m' & ? & ? & ?). exists m'.
    split; [done|]. split; congruence.
Qed.

Lemma block_accumulate_Ok_inv {X Y : Type}
  (lhs : Grouped.t GroupKey X) (rhs : Grouped.t GroupKey Y)
  (apply_function : X → Y → result Eigen.MatrixXd) (out : Eigen.MatrixXd) :
  block_accumulate lhs rhs apply_function = Ok out →
  Grouped.size lhs = Grouped.size rhs ∧ lhs ≠ [] ∧
  ∀ key, key ∈ Grouped.keys lhs →
    key ∈ Grouped.keys rhs ∧
    ∃ m, apply_at lhs rhs apply_function key = Ok m ∧
         Eigen.rows m = Eigen.rows out ∧ Eigen.cols m = Eigen.cols out.
Proof.
  unfold block_accumulate. intros Hacc.
  apply bind_Ok_inv in Hacc as (_ & Hsize%assert_Ok_inv%bool_decide_eq_true_1 & Hacc).
  apply bind_Ok_inv in Hacc as (_ & Hpos%assert_Ok_inv%bool_decide_eq_true_1 & Hacc).
  split; [done|]. split; [by intros ->|].
  destruct (Grouped.keys lhs) as [|key0 keys]; [done|].
  apply bind_Ok_inv in Hacc as (m0 & Hm0 & Hloop).
  apply accumulate_loop_inv in Hloop as (Hr & Hc & Hkeys).
  intros key [->|Hkey]%elem_of_cons.
  + apply one_group_Ok_inv in Hm0 as (_ & ? & ?).
    split; [done|]. by exists m0.
  + destruct (Hkeys key Hkey) as (m & (_ & ? & ?)%one_group_Ok_inv & ? & ?).
    split; [done|]. exists m. split; [done|]. split; congruence.
Qed.

(** X3: when [block_accumulate] returns, and only then, its operands have the
    same number of groups, at least one, every key of [lhs] is a key of
    [rhs], and the apply-function returns matrices of one common shape for
    all of them; the result has that shape. *)
Theorem block_accumulate_returns_iff {X Y : Type}
  (lhs : Grouped.t GroupKey X) (rhs : Grouped.t GroupKey Y)
  (apply_function : X → Y → result Eigen.MatrixXd) (r c : nat) :
  (∃ out, block_accumulate lhs rhs apply_function = Ok out ∧
          Eigen.rows out = r ∧ Eigen.cols out = c)
  ↔ Grouped.size lhs = Grouped.size rhs ∧ lhs ≠ [] ∧
    ∀ key, key ∈ Grouped.keys lhs →
      key ∈ Grouped.keys rhs ∧
      ∃ m, apply_at lhs rhs apply_function key = Ok m ∧
           Eigen.rows m = r ∧ Eigen.cols m = c.
Proof.
  split.
  - intros (out & Hacc & <- & <-). by apply block_accumulate_Ok_inv.
  - unfold block_accumulate. intros (Hsize & Hne & Hkeys).
    rewrite (bool_decide_true (Grouped.size lhs = Grouped.size rhs)) by done.
    rewrite (bool_decide_true (0 < Grouped.size lhs))
      by (destruct lhs; [done|unfold Grouped.size; simpl; lia]).
    simpl.
    assert (∀ key, key ∈ Grouped.keys lhs →
              one_group lhs rhs apply_function key
                = Ok (term_at lhs rhs apply_function key) ∧
              Eigen.rows (term_at lhs rhs apply_function key) = r ∧
              Eigen.cols (term_at lhs rhs apply_function key) = c) as Hone.
    { intros key Hkey. destruct (Hkeys key Hkey) as (? & m & Hm & ? & ?).
      rewrite one_group_Ok by done. unfold term_at. by rewrite Hm. }
    destruct (Grouped.keys lhs) as [|key0 keys] eqn:Hk.
    { destruct lhs; [done|discriminate]. }
    destruct (Hone key0) as (-> & Hr0 & Hc0); [left|]. simpl.
    destruct (accumulate_loop (one_group lhs rhs apply_function)
                (term_at lhs rhs apply_function) r c keys) with
      (acc := term_at lhs rhs apply_function key0)
      as (out & Hout & Hr & Hc & _); [|done..|].
    { intros. apply Hone. by right. }
    by exists out.
Qed.

Lemma block_accumulate_apply_values {X X' Y : Type} (h : X → X')
  (lhs : Grouped.t GroupKey X) (rhs : Grouped.t GroupKey Y)
  (f : X' → Y → result Eigen.MatrixXd) :
  block_accumulate (Grouped.apply_values h lhs) rhs f
  = block_accumulate lhs rhs (λ x y, f (h x) y).
Proof.
  assert (∀ key, one_group (Grouped.apply_values h lhs) rhs f key
                 = one_group lhs rhs (λ x y, f (h x) y) key) as Hone.
  { intros key. unfold one_group, Grouped.map_contains.
    rewrite apply_values_keys, apply_values_at.
    by destruct (Grouped.at_ lhs key). }
  unfold block_accumulate.
  rewrite !size_keys, apply_values_keys.
  destruct (Grouped.keys lhs) as [|key0 keys]; [done|].
  destruct (assert (bool_decide (length (key0 :: keys) = _))) as [[]|];
    simpl; [|done].
  rewrite Hone.
  destruct (one_group lhs rhs (λ x y, f (h x) y) key0) as [m|e]; simpl; [|done].
  apply result_foldM_ext. intros acc key _. by rewrite Hone.
Qed.

(** X4: the inner product of two grouped collections is the product of the
    first, with every block transposed, and the second. *)
Theorem block_inner_product_transpose
  (lhs rhs : Grouped.t GroupKey Eigen.MatrixXd) :
  block_inner_product lhs rhs
  = block_product (Grouped.apply_values Eigen.transpose lhs) rhs.
Proof.
  unfold block_inner_product, block_product.
  by rewrite block_accumulate_apply_values.
Qed.

Lemma block_solve_Ok_inv {Solver Rhs Out : Type}
  (solve : Solver → Rhs → result Out)
  (lhs : Grouped.t GroupKey Solver) (rhs : Grouped.t GroupKey Rhs)
  (out : Grouped.t GroupKey Out) :
  block_solve solve lhs rhs = Ok out →
  Grouped.keys out = Grouped.keys rhs ∧
  ∀ key, key ∈ Grouped.keys rhs → key ∈ Grouped.keys lhs.
Proof.
  unfold block_solve. intros [Hkeys Hall]%apply_Ok_inv. split; [done|].
  clear Hkeys. unfold Grouped.keys.
  induction Hall as [|[k x] [k' o] rhs' out' [_ Hentry] Hall IH].
  - by intros key ?%elem_of_nil.
  - simpl in Hentry. apply bind_Ok_inv in Hentry as (s & Hs%at_Ok_inv & _).
    intros key [->|Hkey]%elem_of_cons; [by eapply keys_elem_of|auto].
Qed.

End MoreBlockProperties.

(** ** The generalized block solve and the prediction from several groups *)

Section SolverProperties.
Context {GroupKey Solver : Type} `{EqDecision GroupKey}.
Context (solve : Solver → Eigen.MatrixXd → result Eigen.MatrixXd).
Context (ldlt_solve : Eigen.MatrixXd → Eigen.MatrixXd → result Eigen.MatrixXd).

(** X5: when the generalized block solve of the prediction returns, its result
    has the keys of [C_db], in their order; [rhs] has as many groups as
    [C_db], at least one, and every key of [C_db] is a key of [rhs] and of
    [C_dd]. *)
Theorem solver_keys
  (C_dd : Grouped.t GroupKey Solver) (C_db : Grouped.t GroupKey Eigen.MatrixXd)
  (S_bb : Eigen.MatrixXd) (rhs out : Grouped.t GroupKey Eigen.MatrixXd) :
  solver solve ldlt_solve C_dd C_db S_bb rhs = Ok out →
  Grouped.keys out = Grouped.keys C_db ∧
  Grouped.size rhs = Grouped.size C_db ∧ C_db ≠ [] ∧
  ∀ key, key ∈ Grouped.keys C_db →
    key ∈ Grouped.keys rhs ∧ key ∈ Grouped.keys C_dd.
Proof.
  unfold solver. intros Hsolver.
  apply bind_Ok_inv in Hsolver as (Ai_rhs & [HkA HsubA]%block_solve_Ok_inv & Hsolver).
  apply bind_Ok_inv in Hsolver
    as (SiCtAi_rhs & (Hsize & Hne & Hsub)%block_accumulate_Ok_inv & Hsolver).
  apply bind_Ok_inv in Hsolver as (CSiCtAi_rhs & [HkC _]%apply_Ok_inv & Hsolver).
  apply bind_Ok_inv in Hsolver as (output & [HkO _]%block_solve_Ok_inv & Hsolver).
  apply apply_Ok_inv in Hsolver as [Hkout _].
  split; [congruence|]. split; [rewrite !size_keys in *; congruence|].
  split; [done|]. intros key Hkey. destruct (Hsub key Hkey) as [HkeyA _].
  rewrite HkA in HkeyA. split; [done|auto].
Qed.

End SolverProperties.

Section GroupByLength.
Context {GroupKey Item : Type} `{EqDecision GroupKey}.
Context (key_less : GroupKey → GroupKey → bool).

Lemma add_to_group_sizes (key : GroupKey) (x : Item)
  (g : Grouped.t GroupKey (list Item)) :
  sum_list_with (λ entry, length entry.2) (add_to_group key_less key x g)
  = S (sum_list_with (λ entry, length entry.2) g).
Proof.
  induction g as [|[k xs] g IH]; simpl; [done|].
  case_bool_decide; simpl; [rewrite length_app; simpl; lia|].
  destruct (key_less key k); simpl; [done|]. rewrite IH. lia.
Qed.

Lemma group_by_sizes (items : list Item) (grouper : Item → GroupKey) :
  sum_list_with (λ entry, length entry.2) (group_by key_less items grouper)
  = length items.
Proof.
  unfold group_by.
  enough (∀ g, sum_list_with (λ entry, length entry.2)
                 (foldl (λ g x, add_to_group key_less (grouper x) x g) g items)
               = sum_list_with (λ entry, length entry.2) g + length items) as Hgen
    by apply (Hgen []).
  induction items as [|x items IH]; intros g; simpl; [lia|].
  rewrite IH, add_to_group_sizes. lia.
Qed.

Lemma as_group_features_grouped_length {F : Type}
  (g : Grouped.t GroupKey (list F)) :
  length (as_group_features_grouped g) = sum_list_with (λ entry, length entry.2) g.
Proof.
  unfold as_group_features_grouped.
  assert (∀ (key : GroupKey) (fs : list F) acc,
            length (foldl (λ group_features f,
                             group_features ++ [as_group_feature key f]) acc fs)
            = length acc + length fs) as Hinner.
  { intros key fs. induction fs as [|f fs IH]; intros acc; simpl; [lia|].
    rewrite IH, length_app. simpl. lia. }
  enough (∀ acc,
            length (foldl (λ group_features (entry : GroupKey * list F),
                             foldl (λ group_features f,
                                      group_features ++ [as_group_feature entry.1 f])
                                   group_features entry.2) acc g)
            = length acc + sum_list_with (λ entry, length entry.2) g) as Hgen
    by apply (Hgen []).
  induction g as [|[k fs] g IH]; intros acc; simpl; [lia|].
  rewrite IH, Hinner. lia.
Qed.

End GroupByLength.

Section PredictionShape.
Context {GroupKey FeatureType Solver : Type} `{EqDecision GroupKey}.
Context (key_less : GroupKey → GroupKey → bool).
Context (covariance_function_ : FeatureType → FeatureType → double).
Context (patchwork_functions_ : PatchworkFunctions.t GroupKey FeatureType).
Context (solve : Solver → Eigen.MatrixXd → result Eigen.MatrixXd).
Context (ldlt_solve : Eigen.MatrixXd → Eigen.MatrixXd → result Eigen.MatrixXd).

(** X6: a joint prediction that the boundary path returns (the fit does not
    hold exactly one group) is a well-formed distribution over the query
    features: the mean is a column of their number [n] and the covariance
    is [n] by [n], so that its [size()] is [n]. *)
Theorem predict_with_boundaries_shape (features : list FeatureType)
  (patchwork_fit : PatchworkGPFit.t GroupKey FeatureType Solver)
  (d : JointDistribution) :
  Grouped.size (PatchworkGPFit.fit_models patchwork_fit) ≠ 1 →
  _predict_impl key_less covariance_function_ patchwork_functions_
    solve ldlt_solve features patchwork_fit = Ok d →
  Eigen.rows (Distribution.mean d) = length features ∧
  Eigen.cols (Distribution.mean d) = 1 ∧
  Eigen.rows (Distribution.covariance d) = length features ∧
  Eigen.cols (Distribution.covariance d) = length features ∧
  Distribution.size d = Ok (length features).
Proof.
  intros Hsize. unfold _predict_impl. rewrite bool_decide_false by done.
  destruct patchwork_fit as [fit_models]. simpl in *. clear Hsize.
  unfold predict_with_boundaries. intros Hp.
  apply bind_Ok_inv in Hp as (boundary_features & _ & Hp).
  apply bind_Ok_inv in Hp as (C_db & _ & Hp).
  apply bind_Ok_inv in Hp as (C_dd_inv_C_db & _ & Hp).
  apply bind_Ok_inv in Hp as (inner & _ & Hp).
  apply bind_Ok_inv in Hp as (S_bb & _ & Hp).
  apply bind_Ok_inv in Hp as (information & _ & Hp).
  apply bind_Ok_inv in Hp as (? & _ & Hp).
  apply bind_Ok_inv in Hp as (C_bb_inv_C_bf & _ & Hp).
  apply bind_Ok_inv in Hp as (cross_transpose & [_ Hcross]%apply_Ok_inv & Hp).
  apply bind_Ok_inv in Hp as (C_dd_inv_cross & _ & Hp).
  apply bind_Ok_inv in Hp as (mean & Hmean & Hp).
  apply bind_Ok_inv in Hp as (_ & Hcol%assert_Ok_inv%bool_decide_eq_true_1 & Hp).
  apply bind_Ok_inv in Hp as (explained & _ & Hp).
  apply bind_Ok_inv in Hp as (boundary_explained & _ & Hp).
  apply bind_Ok_inv in Hp as (without_boundary & Hwb%minus_Ok_inv & Hp).
  apply bind_Ok_inv in Hp as (cov & Hcov%minus_Ok_inv & [= <-]).
  simpl in *.
  set (n := length (as_group_features_grouped
                      (group_by key_less features
                         (λ f, PatchworkFunctions.nearest_group patchwork_functions_
                                 (Grouped.keys C_db)
                                 (PatchworkFunctions.grouper patchwork_functions_ f)))))
    in *.
  assert (n = length features) as Hn
    by (unfold n; by rewrite as_group_features_grouped_length, group_by_sizes).
  assert (Eigen.rows mean = n) as Hrows.
  { unfold block_inner_product in Hmean.
    apply block_accumulate_Ok_inv in Hmean as (_ & Hne & Hkeys).
    destruct cross_transpose as [|[key0 x0] cross_transpose']; [done|].
    destruct (Hkeys key0) as (_ & m & Hm & <- & _); [left|].
    unfold apply_at in Hm. simpl in Hm. rewrite bool_decide_true in Hm by done.
    simpl in Hm. apply bind_Ok_inv in Hm as (y & _ & Hm%times_Ok_inv).
    destruct Hm as (_ & -> & _). simpl.
    apply Forall2_cons_inv_r in Hcross as ([k fm] & ? & [_ Hx] & _ & _).
    simpl in Hx.
    apply bind_Ok_inv in Hx as (? & _ & Hx).
    apply bind_Ok_inv in Hx as (? & _ & (_ & _ & _ & ->)%minus_Ok_inv).
    done. }
  destruct Hwb as (_ & _ & Hwr & Hwc). destruct Hcov as (_ & _ & Hcr & Hcc).
  simpl in Hwr, Hwc. fold n in Hwr, Hwc.
  assert (Eigen.rows cov = n) by congruence.
  assert (Eigen.cols cov = n) by congruence.
  repeat split; try congruence.
  unfold Distribution.size, Distribution.assert_valid. simpl.
  unfold Eigen.size.
  case_bool_decide; simpl.
  - rewrite !bool_decide_true by (rewrite ?Hcol; lia). simpl.
    f_equal. rewrite Hcol. lia.
  - f_equal. rewrite Hcol. lia.
Qed.

End PredictionShape.

(** ** Subsets of vectors and matrices *)

Section MapM.
Context {A B : Type}.

Lemma result_mapM_Ok_iff (f : A → result B) (l : list A) (ys : list B) :
  result_mapM f l = Ok ys ↔ Forall2 (λ x y, f x = Ok y) l ys.
Proof.
  split; [apply result_mapM_Ok_inv|].
  induction 1 as [|x y l' ys' Hx _ IH]; simpl; [done|]. by rewrite Hx, IH.
Qed.

Lemma result_mapM_is_Ok (f : A → result B) (l : list A) :
  is_Ok (result_mapM f l) ↔ Forall (λ x, is_Ok (f x)) l.
Proof.
  split.
  - intros [ys Hys%result_mapM_Ok_inv].
    induction Hys; constructor; [by eexists|done].
  - intros Hall. destruct (result_mapM_Ok f l) as (ys & ? & _); [|by exists ys].
    by apply Forall_forall.
Qed.

End MapM.

Lemma std_vector_at_Ok {X : Type} (v : list X) (i : nat) (x : X) :
  std_vector_at v i = Ok x ↔ v !! i = Some x.
Proof. unfold std_vector_at. destruct (v !! i); naive_solver. Qed.

Section SubsetProperties.
Context {X : Type}.
Implicit Types (v : list X) (indices : list nat).

Lemma subset_Ok_iff indices v out :
  subset indices v = Ok out ↔ Forall2 (λ index x, v !! index = Some x) indices out.
Proof.
  unfold subset. rewrite result_mapM_Ok_iff.
  split; intros Hall; (eapply Forall2_impl; [exact Hall|]);
    intros index x; by apply std_vector_at_Ok.
Qed.

Lemma subset_in_range indices v :
  Forall (λ index, index < length v) indices → ∃ out, subset indices v = Ok out.
Proof.
  intros Hall. apply result_mapM_is_Ok. eapply Forall_impl; [exact Hall|].
  intros index Hi. simpl in Hi. apply lookup_lt_is_Some_2 in Hi as [x Hx].
  exists x. by apply std_vector_at_Ok.
Qed.

(** X7: the subset of a [std::vector] at indices inside it has one element per
    index, in the order of the indices: element [i] of the result is the
    element of [v] at [indices[i]]. *)
Theorem subset_elements indices v :
  Forall (λ index, index < length v) indices →
  ∃ out,
    subset indices v = Ok out ∧
    length out = length indices ∧
    ∀ i index, indices !! i = Some index → out !! i = v !! index.
Proof.
  intros Hall. destruct (subset_in_range indices v Hall) as [out Hout].
  exists out. split; [done|]. apply subset_Ok_iff in Hout.
  split; [symmetry; by eapply Forall2_length|].
  intros i index Hi.
  destruct (Forall2_lookup_l _ _ _ _ _ Hout Hi) as (x & -> & Hx). done.
Qed.

Lemma subset_subset_eq (i1 i2 : list nat) v v2 :
  subset i2 v = Ok v2 →
  subset i1 v2 = (i12 ← subset i1 i2; subset i12 v).
Proof.
  intros H2%subset_Ok_iff. unfold subset.
  induction i1 as [|index i1 IH]; simpl; [done|].
  rewrite IH. clear IH.
  destruct (i2 !! index) as [index2|] eqn:Hindex.
  - destruct (Forall2_lookup_l _ _ _ _ _ H2 Hindex) as (x & Hv2 & Hx).
    apply std_vector_at_Ok in Hindex, Hv2, Hx. rewrite Hindex, Hv2. simpl.
    destruct (result_mapM _ i1) as [i12|e]; simpl; [|done]. by rewrite Hx.
  - assert (v2 !! index = None) as Hv2.
    { apply lookup_ge_None. rewrite <- (Forall2_length _ _ _ H2).
      by apply lookup_ge_None. }
    assert (∀ (Y : Type) (w : list Y), w !! index = None →
              std_vector_at w index = Err assertion_failure) as Hnone
      by (intros Y w Hw; unfold std_vector_at; by rewrite Hw).
    by rewrite (Hnone _ i2 Hindex), (Hnone _ v2 Hv2).
Qed.

(** X8: taking a subset of a subset is taking the subset at the composed
    indices: for [i1] inside [i2],
    [subset(i1, subset(i2, v)) = subset(subset(i1, i2), v)]. *)
Theorem subset_subset (i1 i2 : list nat) v v2 :
  subset i2 v = Ok v2 →
  Forall (λ index, index < length i2) i1 →
  ∃ i12 out,
    subset i1 i2 = Ok i12 ∧ subset i1 v2 = Ok out ∧ subset i12 v = Ok out.
Proof.
  intros H2 Hin. pose proof (subset_subset_eq i1 i2 v v2 H2) as Heq.
  destruct (result_mapM_is_Ok (λ index, std_vector_at i2 index) i1) as [_ [i12 Hi12]].
  { eapply Forall_impl; [exact Hin|]. intros index Hi. simpl in Hi.
    apply lookup_lt_is_Some_2 in Hi as [x Hx]. exists x.
    by apply std_vector_at_Ok. }
  fold (subset i1 i2) in Hi12. rewrite Hi12 in Heq. simpl in Heq.
  assert (length v2 = length i2) as Hlen
    by (symmetry; eapply Forall2_length; by apply subset_Ok_iff).
  destruct (subset_in_range i1 v2) as [out Hout]; [by rewrite Hlen|].
  exists i12, out. split; [done|]. split; [done|]. by rewrite <- Heq.
Qed.

(** X9: the subset at all the indices of a vector, in order, is the vector. *)
Theorem subset_all v : subset (seq 0 (length v)) v = Ok v.
Proof.
  apply subset_Ok_iff. apply Forall2_same_length_lookup_2.
  - by rewrite length_seq.
  - intros i index x [-> ?]%lookup_seq Hx. done.
Qed.

End SubsetProperties.

Section MatrixSubsetProperties.
Implicit Types (v : Eigen.MatrixXd) (row_indices col_indices indices : list nat).

Lemma MatrixXd_at_Ok v r c x :
  MatrixXd_at v r c = Ok x ↔ r < Eigen.rows v ∧ c < Eigen.cols v ∧ x = Eigen.coeff v r c.
Proof.
  unfold MatrixXd_at.
  destruct (bool_decide (r < Eigen.rows v)) eqn:Hr;
    destruct (bool_decide (c < Eigen.cols v)) eqn:Hc; simpl;
    try apply bool_decide_eq_true_1 in Hr; try apply bool_decide_eq_true_1 in Hc;
    try apply bool_decide_eq_false_1 in Hr; try apply bool_decide_eq_false_1 in Hc;
    (split; [intros [= <-] || intros [=]; done|intros (? & ? & ->); done]).
Qed.

Lemma MatrixXd_at_is_Ok v r c :
  is_Ok (MatrixXd_at v r c) ↔ r < Eigen.rows v ∧ c < Eigen.cols v.
Proof.
  split.
  - intros [x (? & ? & _)%MatrixXd_at_Ok]. done.
  - intros [? ?]. exists (Eigen.coeff v r c). by apply MatrixXd_at_Ok.
Qed.

Lemma subset_MatrixXd_Ok_inv row_indices col_indices v out :
  subset_MatrixXd row_indices col_indices v = Ok out →
  Eigen.rows out = length row_indices ∧
  Eigen.cols out = length col_indices ∧
  ∀ i j r c, row_indices !! i = Some r → col_indices !! j = Some c →
    r < Eigen.rows v ∧ c < Eigen.cols v ∧
    Eigen.coeff out i j = Eigen.coeff v r c.
Proof.
  unfold subset_MatrixXd.
  intros (xss & Hxss%result_mapM_Ok_iff & [= <-])%bind_Ok_inv.
  split; [done|]. split; [done|]. intros i j r c Hr Hc. simpl.
  destruct (Forall2_lookup_l _ _ _ _ _ Hxss Hr) as (xs & -> & Hxs). simpl.
  apply result_mapM_Ok_iff in Hxs.
  destruct (Forall2_lookup_l _ _ _ _ _ Hxs Hc) as (x & -> & Hx). simpl.
  apply MatrixXd_at_Ok in Hx as (? & ? & ->). done.
Qed.

Lemma subset_MatrixXd_is_Ok row_indices col_indices v :
  is_Ok (subset_MatrixXd row_indices col_indices v)
  ↔ row_indices = [] ∨ col_indices = [] ∨
    (Forall (λ r, r < Eigen.rows v) row_indices ∧
     Forall (λ c, c < Eigen.cols v) col_indices).
Proof.
  assert (is_Ok (subset_MatrixXd row_indices col_indices v)
          ↔ Forall (λ r, Forall (λ c, r < Eigen.rows v ∧ c < Eigen.cols v)
                                col_indices) row_indices) as ->.
  { unfold subset_MatrixXd. split.
    - intros [out (xss & Hxss & _)%bind_Ok_inv].
      assert (is_Ok (result_mapM
                (λ r, result_mapM (λ c, MatrixXd_at v r c) col_indices)
                row_indices)) as Hall%result_mapM_is_Ok by by exists xss.
      eapply Forall_impl; [exact Hall|]. intros r Hr%result_mapM_is_Ok.
      eapply Forall_impl; [exact Hr|]. intros c. by apply MatrixXd_at_is_Ok.
    - intros Hall.
      destruct (proj2 (result_mapM_is_Ok
                (λ r, result_mapM (λ c, MatrixXd_at v r c) col_indices)
                row_indices)) as [xss Hxss].
      { eapply Forall_impl; [exact Hall|]. intros r Hr. apply result_mapM_is_Ok.
        eapply Forall_impl; [exact Hr|]. intros c. by apply MatrixXd_at_is_Ok. }
      rewrite Hxss. by eexists. }
  rewrite !Forall_forall. split.
  - intros Hall. destruct row_indices as [|r0 rs]; [by left|].
    destruct col_indices as [|c0 cs]; [right; by left|].
    right. right. split.
    + intros r Hr. specialize (Hall r Hr). rewrite Forall_forall in Hall.
      apply (Hall c0). left.
    + intros c Hc. specialize (Hall r0 (list_elem_of_here _ _)).
      rewrite Forall_forall in Hall. by apply Hall.
  - intros [->|[->|[Hr Hc]]].
    + by intros r ?%elem_of_nil.
    + intros r _. constructor.
    + intros r Hin. apply Forall_forall. intros c Hcin. auto.
Qed.

(** X10: the subset of a matrix at row and column indices returns exactly when
    all row indices and all column indices are inside the matrix, or one of
    the two index lists is empty (then nothing is read, and the indices of
    the other list are not checked); entry [(i, j)] of the result is the
    entry of [v] at [(row_indices[i], col_indices[j])]. *)
Theorem subset_MatrixXd_returns_iff row_indices col_indices v :
  ((∃ out, subset_MatrixXd row_indices col_indices v = Ok out)
   ↔ row_indices = [] ∨ col_indices = [] ∨
     (Forall (λ r, r < Eigen.rows v) row_indices ∧
      Forall (λ c, c < Eigen.cols v) col_indices)) ∧
  (∀ out, subset_MatrixXd row_indices col_indices v = Ok out →
     Eigen.rows out = length row_indices ∧
     Eigen.cols out = length col_indices ∧
     ∀ i j r c, row_indices !! i = Some r → col_indices !! j = Some c →
       Eigen.coeff out i j = Eigen.coeff v r c).
Proof.
  split; [apply subset_MatrixXd_is_Ok|].
  intros out (? & ? & Hentries)%subset_MatrixXd_Ok_inv.
  split; [done|]. split; [done|]. intros i j r c Hr Hc.
  by destruct (Hentries i j r c Hr Hc) as (_ & _ & ?).
Qed.

(** X11: the symmetric subset of a square matrix at indices inside it is square
    of the size of the index list, and symmetric when the matrix is; on a
    matrix that is not square the assertion fails whatever the indices. *)
Theorem symmetric_subset_symmetric indices v :
  (Eigen.rows v = Eigen.cols v →
   Forall (λ index, index < Eigen.rows v) indices →
   ∃ out,
     symmetric_subset indices v = Ok out ∧
     Eigen.rows out = length indices ∧ Eigen.cols out = length indices ∧
     ((∀ r c, r < Eigen.rows v → c < Eigen.rows v →
         Eigen.coeff v r c = Eigen.coeff v c r) →
      ∀ i j, i < length indices → j < length indices →
        Eigen.coeff out i j = Eigen.coeff out j i)) ∧
  (Eigen.rows v ≠ Eigen.cols v →
   symmetric_subset indices v = Err assertion_failure).
Proof.
  unfold symmetric_subset. split.
  - intros Hsquare Hin. rewrite bool_decide_true by done. simpl.
    destruct (proj2 (subset_MatrixXd_is_Ok indices indices v)) as [out Hout].
    { right. right. split; [done|]. by rewrite <- Hsquare. }
    exists out. split; [done|].
    apply subset_MatrixXd_Ok_inv in Hout as (Hr & Hc & Hentries).
    split; [done|]. split; [done|]. intros Hsym i j Hi Hj.
    apply lookup_lt_is_Some_2 in Hi as [r Hr'].
    apply lookup_lt_is_Some_2 in Hj as [c Hc'].
    destruct (Hentries i j r c Hr' Hc') as (? & ? & ->).
    destruct (Hentries j i c r Hc' Hr') as (? & ? & ->).
    apply Hsym; lia.
  - intros Hns. by rewrite bool_decide_false.
Qed.

(** X12: taking columns of a matrix is taking the subset at all its rows and
    those columns. *)
Theorem subset_cols_all_rows col_indices v :
  Forall (λ c, c < Eigen.cols v) col_indices →
  ∃ a b,
    subset_cols col_indices v = Ok a ∧
    subset_MatrixXd (seq 0 (Eigen.rows v)) col_indices v = Ok b ∧
    Eigen.mat_eq a b.
Proof.
  intros Hin.
  destruct (proj2 (subset_MatrixXd_is_Ok (seq 0 (Eigen.rows v)) col_indices v))
    as [b Hb].
  { right. right. split; [|done]. apply Forall_forall.
    by intros r [_ ?]%elem_of_seq. }
  unfold subset_cols.
  destruct (proj2 (result_mapM_is_Ok
              (λ col_index, assert (bool_decide (col_index < Eigen.cols v)))
              col_indices)) as [us ->].
  { eapply Forall_impl; [exact Hin|]. intros c Hc. simpl in Hc.
    exists (). by rewrite bool_decide_true. }
  simpl. eexists. exists b. split; [done|]. split; [done|].
  apply subset_MatrixXd_Ok_inv in Hb as (Hr & Hc & Hentries).
  rewrite length_seq in Hr. split; [by rewrite Hr|]. split; [by rewrite Hc|].
  simpl. intros i j Hi Hj.
  apply lookup_lt_is_Some_2 in Hj as [c Hc'].
  destruct (Hentries i j i c) as (_ & _ & ->); [by apply lookup_seq|done|].
  by rewrite Hc'.
Qed.

End MatrixSubsetProperties.

(** ** Further properties of distributions *)

Section DistributionValidity.
Context {C : Type} `{CovarianceType C}.

Lemma assert_valid_Ok_iff (d : Distribution.t C) (u : unit) :
  Distribution.assert_valid d = Ok u
  ↔ (0 < cov_size (Distribution.covariance d) →
     cov_rows (Distribution.covariance d) = cov_cols (Distribution.covariance d) ∧
     Eigen.size (Distribution.mean d) = cov_rows (Distribution.covariance d)).
Proof.
  unfold Distribution.assert_valid. destruct u.
  case_bool_decide as Hpos; [|split; [lia|done]].
  destruct (bool_decide (cov_rows _ = cov_cols _)) eqn:Hsq; simpl.
  - apply bool_decide_eq_true_1 in Hsq.
    destruct (bool_decide (Eigen.size _ = cov_rows _)) eqn:Hm; simpl.
    + apply bool_decide_eq_true_1 in Hm. done.
    + apply bool_decide_eq_false_1 in Hm. split; [done|]. intros Hv.
      by destruct (Hv Hpos).
  - apply bool_decide_eq_false_1 in Hsq. split; [done|]. intros Hv.
    by destruct (Hv Hpos).
Qed.

Lemma size_Ok_iff (d : Distribution.t C) (n : nat) :
  Distribution.size d = Ok n
  ↔ n = Eigen.size (Distribution.mean d) ∧ Distribution.assert_valid d = Ok ().
Proof.
  unfold Distribution.size.
  destruct (Distribution.assert_valid d) as [[]|e]; simpl; naive_solver.
Qed.

Lemma has_covariance_Ok_iff (d : Distribution.t C) (b : bool) :
  Distribution.has_covariance d = Ok b
  ↔ b = bool_decide (0 < cov_size (Distribution.covariance d)) ∧
    Distribution.assert_valid d = Ok ().
Proof.
  unfold Distribution.has_covariance.
  destruct (Distribution.assert_valid d) as [[]|e]; simpl; naive_solver.
Qed.

End DistributionValidity.

Section JointDistributionProperties.
Implicit Types (d : JointDistribution).

Lemma get_diagonal_unfold d (n : nat) (i : Z) :
  Distribution.size d = Ok n →
  0 < Eigen.size (Distribution.covariance d) →
  Distribution.get_diagonal d i
  = (assert (bool_decide (0 ≤ i < Z.of_nat n)%Z);;
     Ok (Eigen.coeff (Distribution.covariance d) (Z.to_nat i) (Z.to_nat i))).
Proof.
  intros [-> Hvalid]%size_Ok_iff Hpos.
  pose proof (proj1 (assert_valid_Ok_iff d ()) Hvalid Hpos) as [Hsq Hm].
  simpl in Hsq, Hm.
  assert (Distribution.has_covariance d = Ok true) as Hhas.
  { apply has_covariance_Ok_iff. split; [|done]. by rewrite bool_decide_true. }
  unfold Distribution.get_diagonal. rewrite Hhas. simpl.
  unfold Eigen.diagonal_at. by rewrite <- Hsq, Nat.min_id, <- Hm.
Qed.

(** X13: on a joint distribution with a covariance, [get_diagonal(i)] returns
    the diagonal entry for exactly the indices below [size()]: for a
    negative index or one from [size()] upwards it ends in the failed
    bounds assertion. *)
Theorem get_diagonal_bounds d (n : nat) (i : Z) :
  Distribution.size d = Ok n →
  0 < Eigen.size (Distribution.covariance d) →
  ((0 ≤ i < Z.of_nat n)%Z →
   Distribution.get_diagonal d i
   = Ok (Eigen.coeff (Distribution.covariance d) (Z.to_nat i) (Z.to_nat i))) ∧
  (¬ (0 ≤ i < Z.of_nat n)%Z →
   Distribution.get_diagonal d i = Err assertion_failure).
Proof.
  intros Hsize Hpos. rewrite (get_diagonal_unfold d n i Hsize Hpos).
  split; intros Hi.
  - by rewrite bool_decide_true.
  - by rewrite bool_decide_false.
Qed.

Lemma VectorXd_at_Ok (v : Eigen.VectorXd) (i : nat) (x : double) :
  VectorXd_at v i = Ok x ↔ i < Eigen.size v ∧ x = Eigen.coeff v i 0.
Proof.
  unfold VectorXd_at. case_bool_decide; simpl; naive_solver.
Qed.

Lemma subset_VectorXd_in_range (indices : list nat) (v : Eigen.VectorXd) :
  Forall (λ index, index < Eigen.size v) indices →
  ∃ out,
    subset_VectorXd indices v = Ok out ∧
    Eigen.rows out = length indices ∧ Eigen.cols out = 1 ∧
    ∀ i index, indices !! i = Some index →
      Eigen.coeff out i 0 = Eigen.coeff v index 0.
Proof.
  intros Hin. unfold subset_VectorXd.
  destruct (proj2 (result_mapM_is_Ok (λ index, VectorXd_at v index) indices))
    as [xs Hxs].
  { eapply Forall_impl; [exact Hin|]. intros index Hi. simpl in Hi.
    eexists. by apply VectorXd_at_Ok. }
  rewrite Hxs. simpl. eexists. split; [done|].
  apply result_mapM_Ok_iff in Hxs. simpl.
  split; [symmetry; by eapply Forall2_length|]. split; [done|].
  intros i index Hi.
  destruct (Forall2_lookup_l _ _ _ _ _ Hxs Hi) as (x & -> & [_ ->]%VectorXd_at_Ok).
  done.
Qed.

(** X14: the subset of a valid joint distribution with a covariance, at indices
    below its size, is a valid distribution of the size of the index list;
    its mean and its diagonal at [i] are those of the distribution at
    [indices[i]]. *)
Theorem subset_Distribution_entries d (n : nat) (indices : list nat) :
  Distribution.size d = Ok n →
  0 < Eigen.size (Distribution.covariance d) →
  Forall (λ index, index < n) indices →
  ∃ d',
    subset_Distribution indices d = Ok d' ∧
    Distribution.size d' = Ok (length indices) ∧
    ∀ i index, indices !! i = Some index →
      VectorXd_at (Distribution.mean d') i
        = VectorXd_at (Distribution.mean d) index ∧
      Distribution.get_diagonal d' (Z.of_nat i)
        = Distribution.get_diagonal d (Z.of_nat index).
Proof.
  intros Hsize Hpos Hin.
  pose proof Hsize as [-> Hvalid]%size_Ok_iff.
  pose proof (proj1 (assert_valid_Ok_iff d ()) Hvalid Hpos) as [Hsq Hm].
  simpl in Hsq, Hm.
  assert (Distribution.has_covariance d = Ok true) as Hhas.
  { apply has_covariance_Ok_iff. split; [|done]. by rewrite bool_decide_true. }
  destruct (subset_VectorXd_in_range indices (Distribution.mean d) Hin)
    as (mean' & Hmean & Hmr & Hmc & Hmean').
  destruct (proj2 (subset_MatrixXd_is_Ok indices indices (Distribution.covariance d)))
    as [cov' Hcov].
  { right. right. rewrite <- Hsq, <- Hm. done. }
  pose proof Hcov as (Hcr & Hcc & Hcov')%subset_MatrixXd_Ok_inv.
  unfold subset_Distribution. rewrite Hmean. simpl. rewrite Hhas. simpl.
  unfold symmetric_subset. rewrite bool_decide_true by done. simpl.
  rewrite Hcov. simpl. eexists. split; [done|].
  assert (Distribution.size (Distribution.mk mean' cov') = Ok (length indices))
    as Hsize'.
  { apply size_Ok_iff. unfold Eigen.size. simpl. rewrite Hmr, Hmc.
    split; [lia|]. apply assert_valid_Ok_iff. simpl. unfold Eigen.size.
    rewrite Hmr, Hmc. lia. }
  split; [done|]. intros i index Hi.
  assert (i < length indices) as Hilt by (by eapply lookup_lt_Some).
  assert (index < Eigen.size (Distribution.mean d)) as Hindex
    by (rewrite Forall_forall in Hin; eapply Hin, list_elem_of_lookup_2, Hi).
  split.
  - unfold VectorXd_at, Eigen.size. simpl. rewrite Hmr, Hmc.
    rewrite !bool_decide_true by (unfold Eigen.size in Hindex; lia). simpl.
    by rewrite (Hmean' i index Hi).
  - assert (0 < Eigen.size cov') as Hpos'.
    { unfold Eigen.size. rewrite Hcr, Hcc.
      destruct (length indices); [lia|simpl; lia]. }
    rewrite (get_diagonal_unfold _ _ (Z.of_nat i) Hsize' Hpos').
    rewrite (get_diagonal_unfold _ _ (Z.of_nat index) Hsize Hpos).
    rewrite !bool_decide_true by lia.
    simpl. rewrite !Nat2Z.id.
    by destruct (Hcov' i i index index Hi Hi) as (_ & _ & ->).
Qed.

End JointDistributionProperties.

Section DistributionEdges.
Implicit Types (d : JointDistribution).

Lemma no_covariance_get_diagonal d :
  Eigen.size (Distribution.covariance d) = 0 →
  Distribution.has_covariance d = Ok false ∧
  Distribution.size d = Ok (Eigen.size (Distribution.mean d)) ∧
  ∀ i, Distribution.get_diagonal d i = Ok Double.NAN.
Proof.
  intros Hzero.
  assert (Distribution.assert_valid d = Ok ()) as Hvalid
    by (apply assert_valid_Ok_iff; simpl; lia).
  assert (Distribution.has_covariance d = Ok false) as Hhas.
  { apply has_covariance_Ok_iff. split; [|done]. simpl.
    by rewrite bool_decide_false by lia. }
  split; [done|]. split; [by apply size_Ok_iff|].
  intros i. unfold Distribution.get_diagonal. by rewrite Hhas.
Qed.

(** X15: a subset never gains a covariance and loses it on an empty index list:
    the subset of a valid joint distribution at no index is the empty
    distribution without covariance, and every subset of a distribution
    without covariance is without covariance, with [NAN] on its diagonal. *)
Theorem subset_Distribution_without_covariance d :
  (∀ n, Distribution.size d = Ok n →
     ∃ d', subset_Distribution [] d = Ok d' ∧
           Distribution.has_covariance d' = Ok false ∧
           Distribution.size d' = Ok 0 ∧
           ∀ i, Distribution.get_diagonal d' i = Ok Double.NAN) ∧
  (∀ indices d',
     Distribution.has_covariance d = Ok false →
     subset_Distribution indices d = Ok d' →
     Distribution.has_covariance d' = Ok false ∧
     Distribution.size d' = Ok (length indices) ∧
     ∀ i, Distribution.get_diagonal d' i = Ok Double.NAN).
Proof.
  split.
  - intros n [_ Hvalid]%size_Ok_iff. unfold subset_Distribution. simpl.
    destruct (bool_decide (0 < Eigen.size (Distribution.covariance d))) eqn:Hpos.
    + assert (Distribution.has_covariance d = Ok true) as ->
        by (apply has_covariance_Ok_iff; by rewrite <- Hpos).
      apply bool_decide_eq_true_1 in Hpos.
      pose proof (proj1 (assert_valid_Ok_iff d ()) Hvalid Hpos) as [Hsq _].
      simpl in Hsq. unfold symmetric_subset. simpl.
      rewrite bool_decide_true by done. simpl.
      eexists. split; [done|]. by apply no_covariance_get_diagonal.
    + assert (Distribution.has_covariance d = Ok false) as ->
        by (apply has_covariance_Ok_iff; by rewrite <- Hpos).
      simpl. eexists. split; [done|]. by apply no_covariance_get_diagonal.
  - intros indices d' Hhas. unfold subset_Distribution.
    intros (mean' & Hmean & Hd')%bind_Ok_inv. rewrite Hhas in Hd'.
    simpl in Hd'. injection Hd' as <-.
    destruct (no_covariance_get_diagonal (Distribution.mk mean' cov_default))
      as (? & Hsize & ?); [done|].
    split; [done|]. split; [|done]. etransitivity; [exact Hsize|].
    simpl. f_equal.
    unfold subset_VectorXd in Hmean.
    apply bind_Ok_inv in Hmean as (xs & Hxs%result_mapM_Ok_iff & [= <-]).
    unfold Eigen.size. simpl. rewrite <- (Forall2_length _ _ _ Hxs). lia.
Qed.

Lemma eqb_NAN (x : double) : Double.eqb Double.NAN x = false.
Proof. done. Qed.

Lemma forallb_seq_false (f : nat → bool) (n i : nat) :
  i < n → f i = false → forallb f (seq 0 n) = false.
Proof.
  intros Hi Hf. apply not_true_iff_false. intros Hall.
  rewrite forallb_forall in Hall. rewrite Hall in Hf; [done|].
  apply in_seq. lia.
Qed.

Lemma MatrixXd_equal_false (a b : Eigen.MatrixXd) (i j : nat) :
  Eigen.rows a = Eigen.rows b → Eigen.cols a = Eigen.cols b →
  i < Eigen.rows a → j < Eigen.cols a →
  Double.eqb (Eigen.coeff a i j) (Eigen.coeff b i j) = false →
  MatrixXd_equal a b = Ok false.
Proof.
  intros Hr Hc Hi Hj Hne. unfold MatrixXd_equal, Eigen.same_shape.
  rewrite !bool_decide_true by done. simpl. f_equal.
  apply (forallb_seq_false _ _ i Hi). by apply (forallb_seq_false _ _ j Hj).
Qed.

(** X16: [operator==] compares the covariances only when the means are equal:
    two joint distributions whose means have one shape and differ in some
    coefficient are unequal, whatever the shapes of their covariances; and
    a distribution with a [NAN] in its mean is not equal to itself. *)
Theorem Distribution_equal_false d other (i j : nat) :
  (Eigen.rows (Distribution.mean d) = Eigen.rows (Distribution.mean other) →
   Eigen.cols (Distribution.mean d) = Eigen.cols (Distribution.mean other) →
   i < Eigen.rows (Distribution.mean d) → j < Eigen.cols (Distribution.mean d) →
   Double.eqb (Eigen.coeff (Distribution.mean d) i j)
              (Eigen.coeff (Distribution.mean other) i j) = false →
   Distribution_equal d other = Ok false) ∧
  (i < Eigen.rows (Distribution.mean d) → j < Eigen.cols (Distribution.mean d) →
   Eigen.coeff (Distribution.mean d) i j = Double.NAN →
   Distribution_equal d d = Ok false).
Proof.
  unfold Distribution_equal. split.
  - intros Hr Hc Hi Hj Hne.
    by rewrite (MatrixXd_equal_false _ _ i j Hr Hc Hi Hj Hne).
  - intros Hi Hj Hnan.
    assert (Double.eqb (Eigen.coeff (Distribution.mean d) i j)
                       (Eigen.coeff (Distribution.mean d) i j) = false) as Hne
      by (rewrite Hnan; apply eqb_NAN).
    by rewrite (MatrixXd_equal_false _ _ i j eq_refl eq_refl Hi Hj Hne).
Qed.

End DistributionEdges.

(** ** Set difference and the complement of a list of indices *)

Lemma filter_iff_ext {A : Type} (P Q : A → Prop)
  `{∀ x, Decision (P x)} `{∀ x, Decision (Q x)} (l : list A) :
  (∀ x, x ∈ l → P x ↔ Q x) → filter P l = filter Q l.
Proof.
  induction l as [|x l IH]; intros Hext; [done|].
  rewrite !filter_cons, IH by (intros; apply Hext; by right).
  destruct (decide (P x)) as [HP|HP], (decide (Q x)) as [HQ|HQ]; try done.
  - destruct HQ. apply Hext; [left|done].
  - destruct HP. apply Hext; [left|done].
Qed.

Section SetDifference.
Implicit Types (x y indices : list nat).

Lemma vector_set_difference_nil_r x : vector_set_difference x [] = x.
Proof. by destruct x. Qed.

Lemma vector_set_difference_cons a x b y :
  vector_set_difference (a :: x) (b :: y)
  = if a <? b then a :: vector_set_difference x (b :: y)
    else if b <? a then vector_set_difference (a :: x) y
    else vector_set_difference x y.
Proof. done. Qed.

Ltac vsd_cases a b :=
  rewrite vector_set_difference_cons;
  destruct (Nat.ltb_spec a b); [|destruct (Nat.ltb_spec b a)].

Lemma vector_set_difference_sublist x y :
  vector_set_difference x y `sublist_of` x.
Proof.
  revert y. induction x as [|a x IHx]; intros y; [by destruct y|].
  induction y as [|b y IHy]; [by rewrite vector_set_difference_nil_r|].
  vsd_cases a b.
  - by apply sublist_skip.
  - done.
  - by apply sublist_cons.
Qed.

Lemma vector_set_difference_keeps x y a :
  a ∈ x → a ∉ y → a ∈ vector_set_difference x y.
Proof.
  revert y. induction x as [|a0 x IHx]; intros y; [by intros ?%elem_of_nil|].
  induction y as [|b y IHy]; [by rewrite vector_set_difference_nil_r|].
  intros Hx [Hab Hy]%not_elem_of_cons. vsd_cases a0 b.
  - apply elem_of_cons in Hx as [->|Hx]; [left|right].
    apply IHx; [done|]. by apply not_elem_of_cons.
  - by apply IHy.
  - apply elem_of_cons in Hx as [->|Hx]; [lia|]. by apply IHx.
Qed.

Lemma seq_sorted (a n : nat) : StronglySorted lt (seq a n).
Proof.
  revert a. induction n as [|n IH]; intros a; simpl; constructor; [done|].
  apply Forall_forall. intros b [? ?]%elem_of_seq. lia.
Qed.

Lemma vector_set_difference_sorted x y a :
  StronglySorted lt x → StronglySorted le y →
  a ∈ vector_set_difference x y → a ∉ y.
Proof.
  revert y. induction x as [|a0 x IHx]; intros y; [by destruct y; intros ? ? ?%elem_of_nil|].
  induction y as [|b y IHy]; [by intros _ _ _ ?%elem_of_nil|].
  intros Hx Hy. pose proof Hx as [Hx0 Hx']%StronglySorted_cons.
  pose proof Hy as [Hy0 Hy']%StronglySorted_cons.
  rewrite Forall_forall in Hx0, Hy0. vsd_cases a0 b.
  - intros [->|Ha]%elem_of_cons; [|by apply IHx].
    intros [->|Hin]%elem_of_cons; [lia|]. specialize (Hy0 _ Hin). lia.
  - intros Ha. apply not_elem_of_cons. split; [|by apply IHy].
    eapply elem_of_sublist in Ha; [|apply vector_set_difference_sublist].
    apply elem_of_cons in Ha as [->|Ha]; [lia|]. specialize (Hx0 _ Ha). lia.
  - intros Ha. apply not_elem_of_cons. split; [|by apply IHx].
    eapply elem_of_sublist in Ha; [|apply vector_set_difference_sublist].
    specialize (Hx0 _ Ha). lia.
Qed.

Lemma complement_count (a n : nat) y :
  n ≤ length (vector_set_difference (seq a n) y) + length y ∧
  (length (vector_set_difference (seq a n) y) + length y = n →
   StronglySorted lt y ∧ Forall (λ b, a ≤ b < a + n) y).
Proof.
  revert a y. induction n as [|n IHn]; intros a y.
  { destruct y; simpl; [|split; [lia|lia]].
    split; [lia|]. intros _. split; constructor. }
  induction y as [|b y IHy].
  { rewrite vector_set_difference_nil_r, length_seq. simpl.
    split; [lia|]. intros _. split; constructor. }
  change (seq a (S n)) with (a :: seq (S a) n) in *. vsd_cases a b.
  - destruct (IHn (S a) (b :: y)) as [Hge Heq]. simpl in *. split; [lia|].
    intros Hlen. destruct Heq as [Hs Hr]; [lia|]. split; [done|].
    eapply Forall_impl; [exact Hr|]. simpl. lia.
  - destruct IHy as [Hge _]. simpl in *. split; lia.
  - assert (b = a) as -> by lia.
    destruct (IHn (S a) y) as [Hge Heq]. simpl. split; [lia|].
    intros Hlen. destruct Heq as [Hs Hr]; [lia|]. split.
    + apply StronglySorted_cons. split; [|done].
      eapply Forall_impl; [exact Hr|]. simpl. lia.
    + constructor; [lia|]. eapply Forall_impl; [exact Hr|]. simpl. lia.
Qed.

Lemma complement_count_sorted (a n : nat) y :
  StronglySorted lt y → Forall (λ b, a ≤ b < a + n) y →
  length (vector_set_difference (seq a n) y) + length y = n.
Proof.
  revert a y. induction n as [|n IHn]; intros a y Hs Hr.
  { destruct y as [|b y]; [done|]. apply Forall_cons in Hr as [? _]. lia. }
  destruct y as [|b y].
  { by rewrite vector_set_difference_nil_r, length_seq. }
  apply StronglySorted_cons in Hs as [Hb Hs].
  apply Forall_cons in Hr as [Hbr Hr].
  change (seq a (S n)) with (a :: seq (S a) n). vsd_cases a b.
  - assert (length (vector_set_difference (seq (S a) n) (b :: y))
            + length (b :: y) = n) as Hlen; [|simpl in *; lia].
    apply IHn; [by apply StronglySorted_cons|].
    constructor; [lia|]. rewrite Forall_forall in Hb, Hr |- *.
    intros c Hc. specialize (Hb c Hc). specialize (Hr c Hc). simpl in *. lia.
  - lia.
  - assert (b = a) as -> by lia.
    assert (length (vector_set_difference (seq (S a) n) y) + length y = n)
      as Hlen; [|simpl in *; lia].
    apply IHn; [done|]. rewrite Forall_forall in Hb, Hr |- *.
    intros c Hc. specialize (Hb c Hc). specialize (Hr c Hc). simpl in *. lia.
Qed.

Lemma complement_filter (a n : nat) y :
  StronglySorted le y →
  vector_set_difference (seq a n) y = filter (λ i, i ∉ y) (seq a n).
Proof.
  revert a y. induction n as [|n IHn]; intros a y Hs; [by destruct y|].
  induction y as [|b y IHy].
  { rewrite vector_set_difference_nil_r. clear IHn.
    generalize (seq a (S n)). intros l. induction l as [|i l IH]; [done|].
    rewrite filter_cons, decide_True by apply not_elem_of_nil. by rewrite <- IH. }
  pose proof Hs as [Hb Hs']%StronglySorted_cons. rewrite Forall_forall in Hb.
  change (seq a (S n)) with (a :: seq (S a) n) in *. vsd_cases a b.
  - rewrite filter_cons, decide_True, IHn; [done|done|].
    intros [->|Hin]%elem_of_cons; [lia|]. specialize (Hb _ Hin). lia.
  - rewrite IHy by done. apply filter_iff_ext.
    intros i Hi. rewrite not_elem_of_cons.
    assert (a ≤ i); [|split; [intros; split; [lia|done]|by intros [_ ?]]].
    apply elem_of_cons in Hi as [->|[? _]%elem_of_seq]; lia.
  - assert (b = a) as -> by lia.
    rewrite filter_cons, decide_False by (intros Hn; apply Hn; left).
    rewrite IHn by done. apply filter_iff_ext.
    intros i [? _]%elem_of_seq. rewrite not_elem_of_cons.
    split; [intros; split; [lia|done]|by intros [_ ?]].
Qed.

Lemma sorted_lt_le y : StronglySorted lt y → StronglySorted le y.
Proof.
  induction 1 as [|b y Hs IH Hb]; constructor; [done|].
  eapply Forall_impl; [exact Hb|]. simpl. lia.
Qed.

(** X17: the complement keeps the order of [0 .. n - 1] and never loses an index
    that is not in [indices]; when [indices] is in increasing order it holds
    exactly the indices below [n] that are not in [indices]. *)
Theorem indices_complement_members indices (n : nat) :
  indices_complement indices n `sublist_of` seq 0 n ∧
  (∀ i, i < n → i ∉ indices → i ∈ indices_complement indices n) ∧
  (StronglySorted le indices →
   ∀ i, i ∈ indices_complement indices n ↔ i < n ∧ i ∉ indices).
Proof.
  unfold indices_complement. split; [apply vector_set_difference_sublist|].
  split.
  - intros i Hi Hnot. apply vector_set_difference_keeps; [|done].
    apply elem_of_seq. lia.
  - intros Hs i. split.
    + intros Hin. split.
      * eapply elem_of_sublist in Hin; [|apply vector_set_difference_sublist].
        apply elem_of_seq in Hin. lia.
      * eapply vector_set_difference_sorted; [|exact Hs|exact Hin].
        apply seq_sorted.
    + intros [Hi Hnot]. apply vector_set_difference_keeps; [|done].
      apply elem_of_seq. lia.
Qed.

(** X18: the complement and the indices together count [n] exactly when the
    indices are strictly increasing and all below [n]; otherwise they count
    more. *)
Theorem indices_complement_length indices (n : nat) :
  n ≤ length (indices_complement indices n) + length indices ∧
  (length (indices_complement indices n) + length indices = n
   ↔ StronglySorted lt indices ∧ Forall (λ i, i < n) indices).
Proof.
  unfold indices_complement.
  destruct (complement_count 0 n indices) as [Hge Heq]. split; [done|]. split.
  - intros Hlen. destruct (Heq Hlen) as [Hs Hr]. split; [done|].
    eapply Forall_impl; [exact Hr|]. simpl. lia.
  - intros [Hs Hr]. apply complement_count_sorted; [done|].
    eapply Forall_impl; [exact Hr|]. simpl. lia.
Qed.

End SetDifference.

(** ** Ordered maps and the fold indexers *)

Section StdMapProperties.
Context {Key Value : Type} (less : Key → Key → bool).
Context (less_irrefl : ∀ a, less a a = false).
Context (less_trans : ∀ a b c, less a b = true → less b c = true → less a c = true).
Context (less_total : ∀ a b, less a b = false → less b a = false → a = b).
Implicit Types (m : list (Key * Value)).

Lemma keys_sorted_cons k v m :
  keys_sorted less ((k, v) :: m)
  ↔ (∀ e, e ∈ m → less k e.1 = true) ∧ keys_sorted less m.
Proof.
  unfold keys_sorted. rewrite StronglySorted_cons, Forall_forall. done.
Qed.

Lemma less_ne a b : less a b = true → a ≠ b.
Proof using less_irrefl. intros Hab ->. by rewrite less_irrefl in Hab. Qed.

Lemma elem_of_assign k v m e :
  keys_sorted less m →
  e ∈ StdMap.assign less k v m ↔ e = (k, v) ∨ (e ∈ m ∧ e.1 ≠ k).
Proof using less_irrefl less_trans less_total.
  induction m as [|[k' v'] m IH]; simpl.
  - intros _. rewrite list_elem_of_singleton, elem_of_nil. naive_solver.
  - intros [Hk' Hm]%keys_sorted_cons.
    destruct (less k' k) eqn:H1; [|destruct (less k k') eqn:H2].
    + rewrite !elem_of_cons, (IH Hm). split; [|naive_solver].
      intros [->|[->|[? ?]]]; [|by left|by right; split; [right|]].
      right. split; [by left|]. simpl. by apply less_ne.
    + rewrite !elem_of_cons. split; [|naive_solver].
      intros [->|[->|He]]; [by left|..].
      * right. split; [by left|]. simpl. intros ->. by rewrite less_irrefl in H2.
      * right. split; [by right|]. intros Heq. specialize (Hk' e He).
        rewrite Heq in Hk'. pose proof (less_trans _ _ _ H2 Hk') as Hkk.
        by rewrite less_irrefl in Hkk.
    + assert (k' = k) as -> by by apply less_total.
      rewrite !elem_of_cons. split.
      * intros [->|He]; [by left|]. right. split; [by right|].
        specialize (Hk' e He). by apply not_eq_sym, less_ne.
      * intros [->|[[->|He] Hne]]; [by left|done|by right].
Qed.

Lemma assign_sorted k v m :
  keys_sorted less m → keys_sorted less (StdMap.assign less k v m).
Proof using less_irrefl less_trans less_total.
  induction m as [|[k' v'] m IH]; simpl.
  - intros _. apply keys_sorted_cons. split; [by intros e ?%elem_of_nil|constructor].
  - intros Hs. pose proof Hs as [Hk' Hm]%keys_sorted_cons.
    destruct (less k' k) eqn:H1; [|destruct (less k k') eqn:H2].
    + apply keys_sorted_cons. split; [|by apply IH].
      intros e [->|[He _]]%elem_of_assign; [done|by apply Hk'|done].
    + apply keys_sorted_cons. split; [|done].
      intros e [->|He]%elem_of_cons; [done|]. eauto.
    + assert (k' = k) as -> by by apply less_total.
      by apply keys_sorted_cons.
Qed.

Lemma find_Some k v m :
  keys_sorted less m → StdMap.find less k m = Some v ↔ (k, v) ∈ m.
Proof using less_irrefl less_trans less_total.
  induction m as [|[k' v'] m IH]; simpl.
  - intros _. by rewrite elem_of_nil.
  - intros [Hk' Hm]%keys_sorted_cons. rewrite elem_of_cons.
    destruct (less k' k) eqn:H1; [|destruct (less k k') eqn:H2].
    + rewrite (IH Hm). split; [by right|]. intros [[= -> ->]|?]; [|done].
      by rewrite less_irrefl in H1.
    + split; [done|]. intros [[= -> ->]|He]; [by rewrite less_irrefl in H2|].
      specialize (Hk' _ He). simpl in Hk'.
      pose proof (less_trans _ _ _ H2 Hk') as Hkk. by rewrite less_irrefl in Hkk.
    + assert (k' = k) as -> by by apply less_total.
      split; [intros [= ->]; by left|]. intros [[= ->]|He]; [done|].
      specialize (Hk' _ He). simpl in Hk'. by rewrite less_irrefl in Hk'.
Qed.

Lemma keys_sorted_NoDup m : keys_sorted less m → NoDup m.*1.
Proof using less_irrefl.
  induction m as [|[k v] m IH]; [constructor|].
  intros [Hk Hm]%keys_sorted_cons. rewrite fmap_cons. apply NoDup_cons.
  split; [|auto]. simpl. intros ([k' v'] & Heq & He)%list_elem_of_fmap.
  specialize (Hk _ He). simpl in *. subst. by rewrite less_irrefl in Hk.
Qed.

End StdMapProperties.

Lemma string_ltb_irrefl (a : string) : String.ltb a a = false.
Proof.
  unfold String.ltb.
  pose proof (proj2 (String_as_OT.cmp_eq a a) eq_refl) as Heq.
  unfold String_as_OT.cmp in Heq. by rewrite Heq.
Qed.

Lemma string_ltb_lt (a b : string) : String.ltb a b = true ↔ String_as_OT.lt a b.
Proof.
  rewrite <- String_as_OT.cmp_lt. unfold String.ltb, String_as_OT.cmp.
  by destruct (String.compare a b).
Qed.

Lemma string_ltb_trans (a b c : string) :
  String.ltb a b = true → String.ltb b c = true → String.ltb a c = true.
Proof. rewrite !string_ltb_lt. apply String_as_OT.lt_trans. Qed.

Lemma string_ltb_total (a b : string) :
  String.ltb a b = false → String.ltb b a = false → a = b.
Proof.
  unfold String.ltb. rewrite (String.compare_antisym b a).
  destruct (String.compare a b) eqn:Hc; simpl; try done.
  intros _ _. by apply String.compare_eq_iff.
Qed.

Lemma to_string_inj (i j : nat) : to_string i = to_string j → i = j.
Proof.
  unfold to_string. intros Heq. apply Unsigned.to_uint_inj.
  assert (Some (Nat.to_uint i) = Some (Nat.to_uint j)) as [= ?]; [|done].
  by rewrite <- !NilEmpty.usu, Heq.
Qed.

Section IndexerProperties.
Context {FeatureType : Type}.
Context (get_group_name : FeatureType → FoldName).
Implicit Types (features : list FeatureType) (m : FoldIndexer).

Local Abbreviation string_sorted :=
  (keys_sorted (Value := FoldIndices) String.ltb).

Lemma indexer_elem_of_assign k v m e :
  string_sorted m →
  e ∈ StdMap.assign String.ltb k v m ↔ e = (k, v) ∨ (e ∈ m ∧ e.1 ≠ k).
Proof.
  exact (elem_of_assign String.ltb string_ltb_irrefl string_ltb_trans string_ltb_total
           k v m e).
Qed.

Lemma indexer_assign_sorted k v m :
  string_sorted m → string_sorted (StdMap.assign String.ltb k v m).
Proof.
  exact (assign_sorted String.ltb string_ltb_irrefl string_ltb_trans string_ltb_total
           k v m).
Qed.

Lemma indexer_find_Some k v m :
  string_sorted m → StdMap.find String.ltb k m = Some v ↔ (k, v) ∈ m.
Proof.
  exact (find_Some String.ltb string_ltb_irrefl string_ltb_trans string_ltb_total
           k v m).
Qed.

Lemma leave_one_group_out_indexer_snoc features f :
  leave_one_group_out_indexer_features (features ++ [f]) get_group_name
  = let m := leave_one_group_out_indexer_features features get_group_name in
    let k := get_group_name f in
    StdMap.assign String.ltb k
      (default [] (StdMap.find String.ltb k m) ++ [length features]) m.
Proof.
  unfold leave_one_group_out_indexer_features.
  cbv zeta. rewrite length_app, Nat.add_1_r, seq_S, Nat.add_0_l.
  rewrite (zip_with_app pair (seq 0 (length features)) [length features] features [f])
    by by rewrite length_seq.
  rewrite foldl_app. cbn [zip_with foldl fst snd].
  by destruct (StdMap.find _ _ _).
Qed.

Lemma group_indices_snoc features f k :
  group_indices get_group_name (features ++ [f]) k
  = group_indices get_group_name features k
    ++ (if decide (get_group_name f = k) then [length features] else []).
Proof.
  unfold group_indices.
  rewrite length_app, Nat.add_1_r, seq_S, filter_app. simpl. f_equal.
  - apply filter_iff_ext. intros i [_ Hi]%elem_of_seq.
    by rewrite lookup_app_l by lia.
  - rewrite filter_cons, filter_nil, list_lookup_middle by done. simpl.
    destruct (decide (get_group_name f = k)) as [->|Hne].
    + by rewrite decide_True.
    + rewrite decide_False; [done|]. by intros [= ?].
Qed.

Lemma leave_one_group_out_indexer_invariant features :
  let m := leave_one_group_out_indexer_features features get_group_name in
  string_sorted m ∧
  ∀ k l, (k, l) ∈ m ↔ l = group_indices get_group_name features k ∧ l ≠ [].
Proof.
  induction features as [|f features IH] using rev_ind.
  { simpl. split; [constructor|]. intros k l. rewrite elem_of_nil.
    unfold group_indices. simpl. rewrite filter_nil. naive_solver. }
  rewrite leave_one_group_out_indexer_snoc. simpl in *.
  destruct IH as [Hs IH].
  set (m := leave_one_group_out_indexer_features features get_group_name) in *.
  set (k0 := get_group_name f).
  assert (default [] (StdMap.find String.ltb k0 m)
          = group_indices get_group_name features k0) as ->.
  { destruct (StdMap.find String.ltb k0 m) as [l|] eqn:Hfind; simpl.
    - apply indexer_find_Some in Hfind; [|done]. by apply IH in Hfind as [-> _].
    - destruct (group_indices get_group_name features k0) as [|i l] eqn:Hg; [done|].
      assert ((k0, i :: l) ∈ m) as Hin%indexer_find_Some by (apply IH; by rewrite Hg).
      + congruence.
      + done. }
  split; [by apply indexer_assign_sorted|].
  intros k l. rewrite indexer_elem_of_assign by done.
  rewrite group_indices_snoc. fold k0. simpl. rewrite IH. split.
  - intros [[= -> ->]|[[-> Hne] Hk]].
    + rewrite decide_True by done. split; [done|]. by destruct (group_indices _ _ _).
    + rewrite decide_False by done. by rewrite app_nil_r.
  - intros [-> Hne]. destruct (decide (k0 = k)) as [<-|Hk].
    + by left.
    + right. rewrite app_nil_r in *. done.
Qed.

(** X19: the indexer for leaving one group out holds, for every group name that
    some feature has, the indices of the features of that name in
    increasing order, and no entry for any other name; its entries are in
    the order of [std::string]. *)
Theorem leave_one_group_out_indexer_groups features :
  let m := leave_one_group_out_indexer_features features get_group_name in
  keys_sorted String.ltb m ∧
  (∀ k l, (k, l) ∈ m ↔ l = group_indices get_group_name features k ∧ l ≠ []) ∧
  (∀ k, StdMap.find String.ltb k m
        = match group_indices get_group_name features k with
          | [] => None
          | l => Some l
          end).
Proof.
  destruct (leave_one_group_out_indexer_invariant features) as [Hs Hm].
  simpl. split; [done|]. split; [done|]. intros k.
  destruct (StdMap.find _ _ _) as [l|] eqn:Hfind.
  - apply indexer_find_Some in Hfind; [|done]. apply Hm in Hfind as [<- Hne].
    by destruct l.
  - destruct (group_indices get_group_name features k) as [|i l] eqn:Hg; [done|].
    assert ((k, i :: l) ∈ leave_one_group_out_indexer_features features get_group_name)
      as Hin%indexer_find_Some; [apply Hm; by rewrite Hg|congruence|done].
Qed.

End IndexerProperties.

Section LeaveOneOutIndexer.
Implicit Types (m : FoldIndexer).

Lemma assign_fresh_length k (v : FoldIndices) m :
  (∀ e, e ∈ m → e.1 ≠ k) →
  length (StdMap.assign String.ltb k v m) = S (length m).
Proof.
  induction m as [|[k' v'] m IH]; [done|]. intros Hfresh. simpl.
  destruct (String.ltb k' k) eqn:H1; [|destruct (String.ltb k k') eqn:H2].
  - simpl. rewrite IH; [done|]. intros e He. apply Hfresh. by right.
  - done.
  - destruct (Hfresh (k', v')); [left|]. by apply string_ltb_total.
Qed.

Lemma leave_one_out_indexer_invariant (n : nat) :
  let m := foldl (λ groups i, StdMap.assign String.ltb (to_string i) [i] groups)
                 [] (seq 0 n) in
  keys_sorted String.ltb m ∧ length m = n ∧
  ∀ k l, (k, l) ∈ m ↔ ∃ i, i < n ∧ k = to_string i ∧ l = [i].
Proof.
  induction n as [|n IH]; cbv zeta in *.
  { simpl. split; [constructor|]. split; [done|]. intros k l. rewrite elem_of_nil.
    split; [done|]. intros (i & ? & _). lia. }
  rewrite seq_S, foldl_app. simpl. destruct IH as (Hs & Hlen & IH).
  set (m := foldl _ _ _) in *.
  split; [by apply indexer_assign_sorted|]. split.
  { rewrite assign_fresh_length; [by rewrite Hlen|].
    intros [k l] (i & Hi & -> & ->)%IH. simpl. intros ?%to_string_inj. lia. }
  intros k l. rewrite indexer_elem_of_assign by done. rewrite IH. split.
  - intros [[= -> ->]|[(i & Hi & -> & ->) Hne]].
    + exists n. split; [lia|done].
    + exists i. split; [lia|done].
  - intros (i & Hi & -> & ->). destruct (decide (i = n)) as [->|Hne]; [by left|].
    right. split; [exists i; split; [lia|done]|]. simpl.
    intros ?%to_string_inj. done.
Qed.

(** X20: the indexer for leaving one out holds one entry for every index [i]
    below the number [n] of features and no other: the entry is named by
    the decimal digits of [i] and holds [i] alone; the entries are in the
    order of [std::string]. *)
Theorem leave_one_out_indexer_entries {FeatureType : Type}
  (dataset : RegressionDataset.t FeatureType) :
  let n := length (RegressionDataset.features dataset) in
  let m := leave_one_out_indexer dataset in
  keys_sorted String.ltb m ∧ length m = n ∧
  (∀ k l, (k, l) ∈ m ↔ ∃ i, i < n ∧ k = to_string i ∧ l = [i]) ∧
  (∀ i, i < n → StdMap.find String.ltb (to_string i) m = Some [i]).
Proof.
  destruct (leave_one_out_indexer_invariant
              (length (RegressionDataset.features dataset))) as (Hs & Hlen & Hm).
  cbv zeta. fold (leave_one_out_indexer dataset) in Hs, Hlen, Hm.
  split; [done|]. split; [done|]. split; [done|]. intros i Hi.
  apply indexer_find_Some; [done|]. apply Hm. by exists i.
Qed.

End LeaveOneOutIndexer.

(** ** Cross-validation folds *)

Section SubsetDistributionSize.
Context {C : Type} `{CovarianceType C} `{SubsetCovariance C}.

Lemma subset_VectorXd_Ok_inv (indices : list nat) (v out : Eigen.VectorXd) :
  subset_VectorXd indices v = Ok out →
  Eigen.rows out = length indices ∧ Eigen.cols out = 1 ∧
  Forall (λ index, index < Eigen.size v) indices.
Proof.
  unfold subset_VectorXd.
  intros (xs & Hxs%result_mapM_Ok_iff & [= <-])%bind_Ok_inv. simpl.
  split; [symmetry; by eapply Forall2_length|]. split; [done|].
  apply Forall_forall. intros index Hin.
  apply list_elem_of_lookup_1 in Hin as [i Hi].
  by destruct (Forall2_lookup_l _ _ _ _ _ Hxs Hi) as (x & _ & [? _]%VectorXd_at_Ok).
Qed.

Lemma subset_Distribution_mean_size (indices : list nat) (d d' : Distribution.t C) :
  subset_Distribution indices d = Ok d' →
  Eigen.size (Distribution.mean d') = length indices ∧
  Forall (λ index, index < Eigen.size (Distribution.mean d)) indices.
Proof.
  unfold subset_Distribution.
  intros (mean & (Hr & Hc & Hin)%subset_VectorXd_Ok_inv & Hd)%bind_Ok_inv.
  apply bind_Ok_inv in Hd as (has & _ & Hd).
  split; [|done]. destruct has.
  - apply bind_Ok_inv in Hd as (cov & _ & [= <-]). unfold Eigen.size. simpl. lia.
  - injection Hd as <-. unfold Eigen.size. simpl. lia.
Qed.

End SubsetDistributionSize.

Lemma subset_MarginalDistribution_valid (d : MarginalDistribution) (n : nat)
  (indices : list nat) :
  Distribution.size d = Ok n →
  Forall (λ index, index < n) indices →
  ∃ d', subset_Distribution indices d = Ok d' ∧
        Distribution.size d' = Ok (length indices).
Proof.
  intros [-> Hvalid]%size_Ok_iff Hin.
  destruct (subset_VectorXd_in_range indices (Distribution.mean d) Hin)
    as (mean' & Hmean & Hmr & Hmc & _).
  unfold subset_Distribution. rewrite Hmean. simpl.
  destruct (Distribution.has_covariance d) as [has|e] eqn:Hhas; simpl.
  2:{ unfold Distribution.has_covariance in Hhas. by rewrite Hvalid in Hhas. }
  apply has_covariance_Ok_iff in Hhas as [-> _].
  case_bool_decide as Hpos.
  - pose proof (proj1 (assert_valid_Ok_iff d ()) Hvalid Hpos) as [_ Hm].
    simpl in Hm. unfold DiagonalMatrix.rows in Hm.
    destruct (subset_VectorXd_in_range indices
                (DiagonalMatrix.diagonal (Distribution.covariance d)))
      as (diag' & Hdiag & Hdr & Hdc & _); [by rewrite <- Hm|].
    simpl. unfold symmetric_subset_diagonal. rewrite Hdiag. simpl.
    eexists. split; [done|]. apply size_Ok_iff. simpl.
    split; [unfold Eigen.size; lia|]. apply assert_valid_Ok_iff. simpl.
    unfold DiagonalMatrix.rows, Eigen.size. simpl. intros _. split; [done|]. lia.
  - eexists. split; [done|]. apply size_Ok_iff. simpl.
    split; [unfold Eigen.size; lia|]. apply assert_valid_Ok_iff. simpl.
    unfold DiagonalMatrix.rows, Eigen.size. simpl. lia.
Qed.

Section ElementsAt.
Context {X : Type}.
Implicit Types (v : list X) (indices : list nat).

Lemma subset_Ok_elements_at indices v out :
  subset indices v = Ok out → out = elements_at v indices.
Proof.
  intros Hout%subset_Ok_iff. unfold elements_at.
  induction Hout as [|index x indices out Hx _ IH]; [done|].
  simpl. rewrite Hx. f_equal. exact IH.
Qed.

Lemma elements_at_app v indices1 indices2 :
  elements_at v (indices1 ++ indices2)
  = elements_at v indices1 ++ elements_at v indices2.
Proof. apply omap_app. Qed.

Lemma elements_at_app_l v w indices :
  Forall (λ index, index < length v) indices →
  elements_at (v ++ w) indices = elements_at v indices.
Proof.
  unfold elements_at. induction 1 as [|index indices Hi _ IH]; [done|].
  simpl. rewrite lookup_app_l by done. destruct (v !! index); [f_equal|]; exact IH.
Qed.

Lemma elements_at_filter_snoc (P : nat → Prop) `{∀ i, Decision (P i)} v x :
  elements_at (v ++ [x]) (filter P (seq 0 (length (v ++ [x]))))
  = elements_at v (filter P (seq 0 (length v)))
    ++ (if decide (P (length v)) then [x] else []).
Proof.
  rewrite length_app, Nat.add_1_r, seq_S, filter_app, elements_at_app. f_equal.
  - apply elements_at_app_l, Forall_forall.
    by intros i [_ [_ ?]%elem_of_seq]%list_elem_of_filter.
  - simpl. rewrite filter_cons, filter_nil.
    destruct (decide (P (length v))); [|done].
    unfold elements_at. simpl. by rewrite list_lookup_middle.
Qed.

Lemma elements_at_filter (P : nat → Prop) (Q : X → Prop)
  `{∀ i, Decision (P i)} `{∀ x, Decision (Q x)} v :
  (∀ i x, v !! i = Some x → P i ↔ Q x) →
  elements_at v (filter P (seq 0 (length v))) = filter Q v.
Proof.
  induction v as [|x v IH] using rev_ind; intros HPQ; [done|].
  rewrite elements_at_filter_snoc, filter_app, IH.
  - f_equal. rewrite filter_cons, filter_nil.
    pose proof (HPQ (length v) x (list_lookup_middle _ _ _ _ eq_refl)) as Hx.
    destruct (decide (P (length v))), (decide (Q x)); naive_solver.
  - intros i y Hi. apply HPQ. by apply lookup_app_l_Some.
Qed.

Lemma elements_at_delete v (i : nat) :
  elements_at v (filter (λ j, j ∉ [i]) (seq 0 (length v))) = delete i v.
Proof.
  induction v as [|x v IH] using rev_ind; [done|].
  rewrite elements_at_filter_snoc, IH, !delete_take_drop.
  destruct (decide (length v ∉ [i])) as [Hne|Heq].
  - rewrite not_elem_of_cons in Hne. destruct Hne as [Hne _].
    destruct (decide (i < length v)).
    + rewrite take_app_le, drop_app_le by lia. by rewrite <- app_assoc.
    + rewrite !take_ge, !drop_ge by (rewrite ?length_app; simpl; lia).
      by rewrite !app_nil_r.
  - assert (i = length v) as ->.
    { destruct (decide (i = length v)); [done|]. destruct Heq.
      rewrite not_elem_of_cons. split; [done|apply not_elem_of_nil]. }
    rewrite take_app_length, take_ge, !drop_ge by (rewrite ?length_app; simpl; lia).
    by rewrite !app_nil_r.
Qed.

End ElementsAt.

Lemma filter_sorted {A : Type} (R : A → A → Prop) (P : A → Prop)
  `{∀ x, Decision (P x)} (l : list A) :
  StronglySorted R l → StronglySorted R (filter P l).
Proof.
  induction 1 as [|x l Hs IH Hx]; [constructor|].
  rewrite filter_cons. destruct (decide (P x)); [|done].
  constructor; [done|]. rewrite Forall_forall in Hx |- *.
  intros y [_ Hy]%list_elem_of_filter. auto.
Qed.

Section FoldProperties.
Context {FeatureType : Type}.
Implicit Types (dataset : RegressionDataset.t FeatureType) (groups : FoldIndexer).
Implicit Types (fold : RegressionFold.t FeatureType) (pair : FoldName * FoldIndices).

Lemma subset_length {X : Type} (indices : list nat) (v out : list X) :
  subset indices v = Ok out →
  length out = length indices ∧ Forall (λ index, index < length v) indices.
Proof.
  intros Hout%subset_Ok_iff. split; [symmetry; by eapply Forall2_length|].
  apply Forall_forall. intros index Hin.
  apply list_elem_of_lookup_1 in Hin as [i Hi].
  destruct (Forall2_lookup_l _ _ _ _ _ Hout Hi) as (x & _ & Hx).
  by eapply lookup_lt_Some.
Qed.

Lemma fold_from_pair_Ok_inv dataset pair fold :
  let features := RegressionDataset.features dataset in
  let n := length features in
  fold_from_pair dataset n pair = Ok fold →
  valid_fold_indices n pair.2 ∧
  RegressionFold.name fold = pair.1 ∧
  RegressionFold.test_indices fold = pair.2 ∧
  RegressionDataset.features (RegressionFold.test_dataset fold)
    = elements_at features pair.2 ∧
  RegressionDataset.features (RegressionFold.train_dataset fold)
    = elements_at features (filter (λ i, i ∉ pair.2) (seq 0 n)) ∧
  length (RegressionDataset.features (RegressionFold.test_dataset fold))
    = length pair.2 ∧
  length (RegressionDataset.features (RegressionFold.test_dataset fold))
    + length (RegressionDataset.features (RegressionFold.train_dataset fold)) = n ∧
  Distribution.size (RegressionDataset.targets (RegressionFold.test_dataset fold))
    = Ok (length (RegressionDataset.features (RegressionFold.test_dataset fold))) ∧
  Distribution.size (RegressionDataset.targets (RegressionFold.train_dataset fold))
    = Ok (length (RegressionDataset.features (RegressionFold.train_dataset fold))).
Proof.
  intros features n. unfold fold_from_pair. cbv zeta. fold features. intros Hp.
  apply bind_Ok_inv in Hp as (train_features & Htrf & Hp).
  apply bind_Ok_inv in Hp as (train_targets & Htrt & Hp).
  apply bind_Ok_inv in Hp as (test_features & Htef & Hp).
  apply bind_Ok_inv in Hp as (test_targets & Htet & Hp).
  apply bind_Ok_inv in Hp as (train_size & Htrs & Hp).
  apply bind_Ok_inv in Hp as (? & Ha1%assert_Ok_inv%bool_decide_eq_true_1 & Hp).
  apply bind_Ok_inv in Hp as (test_size & Htes & Hp).
  apply bind_Ok_inv in Hp as (? & Ha2%assert_Ok_inv%bool_decide_eq_true_1 & Hp).
  apply bind_Ok_inv in Hp as (? & Ha3%assert_Ok_inv%bool_decide_eq_true_1 & [= <-]).
  simpl.
  pose proof (subset_length _ _ _ Htrf) as [Hltr _].
  pose proof (subset_length _ _ _ Htef) as [Hlte Hin].
  assert (valid_fold_indices n pair.2) as Hvalid.
  { destruct (complement_count 0 n pair.2) as [_ Hcount].
    destruct Hcount as [Hs _]; [|by split].
    unfold indices_complement in Hltr. lia. }
  split; [done|]. split; [done|]. split; [done|].
  split; [by apply subset_Ok_elements_at|]. split.
  { apply subset_Ok_elements_at in Htrf. unfold indices_complement in Htrf.
    rewrite complement_filter in Htrf; [done|]. apply sorted_lt_le, Hvalid. }
  split; [done|]. split; [lia|]. split; congruence.
Qed.

Lemma fold_from_pair_is_Ok dataset pair :
  let n := length (RegressionDataset.features dataset) in
  Distribution.size (RegressionDataset.targets dataset) = Ok n →
  valid_fold_indices n pair.2 →
  ∃ fold, fold_from_pair dataset n pair = Ok fold.
Proof.
  intros n Hsize [Hs Hin]. unfold fold_from_pair. cbv zeta.
  assert (Forall (λ index, index < n) (indices_complement pair.2 n)) as Hcin.
  { apply Forall_forall. intros i Hi.
    eapply elem_of_sublist in Hi; [|apply vector_set_difference_sublist].
    apply elem_of_seq in Hi. lia. }
  destruct (subset_in_range _ (RegressionDataset.features dataset) Hcin)
    as [train_features Htrf].
  destruct (subset_in_range _ (RegressionDataset.features dataset) Hin)
    as [test_features Htef].
  destruct (subset_MarginalDistribution_valid _ _ _ Hsize Hcin)
    as (train_targets & Htrt & Htrs).
  destruct (subset_MarginalDistribution_valid _ _ _ Hsize Hin)
    as (test_targets & Htet & Htes).
  pose proof (subset_length _ _ _ Htrf) as [Hltr _].
  pose proof (subset_length _ _ _ Htef) as [Hlte _].
  rewrite Htrf. simpl. rewrite Htrt. simpl. rewrite Htef. simpl.
  rewrite Htet. simpl. rewrite Htrs. simpl.
  rewrite (bool_decide_true (length train_features = _)) by done. simpl.
  rewrite Htes. simpl.
  rewrite (bool_decide_true (length test_features = _)) by done. simpl.
  rewrite (bool_decide_true (_ + _ = n)); [simpl; by eexists|].
  pose proof (complement_count_sorted 0 n pair.2 Hs) as Hcount.
  unfold indices_complement. rewrite Nat.add_comm. apply Hcount.
  eapply Forall_impl; [exact Hin|]. simpl. lia.
Qed.


Lemma folds_from_fold_indexer_Ok_inv dataset groups folds :
  folds_from_fold_indexer dataset groups = Ok folds →
  Forall2 (λ pair fold,
             fold_from_pair dataset (length (RegressionDataset.features dataset)) pair
             = Ok fold) groups folds.
Proof. unfold folds_from_fold_indexer. by intros ?%result_mapM_Ok_iff. Qed.

Lemma folds_from_fold_indexer_is_Ok dataset groups :
  Distribution.size (RegressionDataset.targets dataset)
    = Ok (length (RegressionDataset.features dataset)) →
  (∀ pair, pair ∈ groups →
     valid_fold_indices (length (RegressionDataset.features dataset)) pair.2) →
  ∃ folds, folds_from_fold_indexer dataset groups = Ok folds.
Proof.
  intros Hsize Hvalid. apply result_mapM_is_Ok, Forall_forall.
  intros pair Hpair. by apply fold_from_pair_is_Ok, Hvalid.
Qed.

Lemma fold_names groups folds :
  Forall2 (λ pair fold, RegressionFold.name fold = pair.1) groups folds →
  RegressionFold.name <$> folds = groups.*1.
Proof. induction 1 as [|pair fold groups folds Hn _ IH]; [done|]. csimpl. by rewrite Hn, IH. Qed.

(** X21: [folds_from_fold_indexer] on a dataset whose targets are a valid
    distribution over its [n] features returns exactly when the test
    indices of every entry of the indexer are strictly increasing and below
    [n]: a repeated, unordered or too large test index ends the call in a
    failed assertion. *)
Theorem folds_from_fold_indexer_returns_iff dataset groups :
  Distribution.size (RegressionDataset.targets dataset)
    = Ok (length (RegressionDataset.features dataset)) →
  (∃ folds, folds_from_fold_indexer dataset groups = Ok folds)
  ↔ Forall (λ pair, valid_fold_indices
                      (length (RegressionDataset.features dataset)) pair.2) groups.
Proof.
  intros Hsize. split.
  - intros [folds Hfolds%folds_from_fold_indexer_Ok_inv].
    induction Hfolds as [|pair fold groups folds Hfold _ IH]; constructor; [|done].
    by apply fold_from_pair_Ok_inv in Hfold as [? _].
  - intros Hall. apply folds_from_fold_indexer_is_Ok; [done|].
    by apply Forall_forall.
Qed.

(** X22: the folds that [folds_from_fold_indexer] returns are one per entry of
    the indexer, in its order; a fold carries the name and the test indices
    of its entry, its test features are the features of the dataset at the
    test indices, its training features are all the others in the order of
    the dataset, and the targets of both parts are valid distributions of
    the sizes of their features. *)
Theorem folds_from_fold_indexer_folds dataset groups folds :
  folds_from_fold_indexer dataset groups = Ok folds →
  Forall2
    (λ pair fold,
       RegressionFold.name fold = pair.1 ∧
       RegressionFold.test_indices fold = pair.2 ∧
       RegressionDataset.features (RegressionFold.test_dataset fold)
         = elements_at (RegressionDataset.features dataset) pair.2 ∧
       RegressionDataset.features (RegressionFold.train_dataset fold)
         = elements_at (RegressionDataset.features dataset)
             (filter (λ i, i ∉ pair.2)
                     (seq 0 (length (RegressionDataset.features dataset)))) ∧
       length (RegressionDataset.features (RegressionFold.test_dataset fold))
         + length (RegressionDataset.features (RegressionFold.train_dataset fold))
         = length (RegressionDataset.features dataset) ∧
       Distribution.size (RegressionDataset.targets (RegressionFold.test_dataset fold))
         = Ok (length (RegressionDataset.features (RegressionFold.test_dataset fold))) ∧
       Distribution.size (RegressionDataset.targets (RegressionFold.train_dataset fold))
         = Ok (length (RegressionDataset.features (RegressionFold.train_dataset fold))))
    groups folds.
Proof.
  intros Hfolds%folds_from_fold_indexer_Ok_inv.
  eapply Forall2_impl; [exact Hfolds|]. intros pair fold Hfold.
  apply fold_from_pair_Ok_inv in Hfold
    as (_ & ? & ? & ? & ? & _ & ? & ? & ?). done.
Qed.

(** X23: leave-one-out on a dataset whose targets are a valid distribution over
    its [n] features returns [n] folds, and every observation is held out
    by one of them: the fold named by the decimal digits of [i] tests on
    the feature [i] alone and trains on the dataset without it. *)
Theorem leave_one_out_folds dataset :
  Distribution.size (RegressionDataset.targets dataset)
    = Ok (length (RegressionDataset.features dataset)) →
  ∃ folds,
    leave_one_out dataset = Ok folds ∧
    length folds = length (RegressionDataset.features dataset) ∧
    ∀ i x, RegressionDataset.features dataset !! i = Some x →
      ∃ fold, fold ∈ folds ∧
        RegressionFold.name fold = to_string i ∧
        RegressionFold.test_indices fold = [i] ∧
        RegressionDataset.features (RegressionFold.test_dataset fold) = [x] ∧
        RegressionDataset.features (RegressionFold.train_dataset fold)
          = delete i (RegressionDataset.features dataset).
Proof.
  intros Hsize. unfold leave_one_out.
  destruct (leave_one_out_indexer_invariant
              (length (RegressionDataset.features dataset))) as (_ & Hlen & Hm).
  fold (leave_one_out_indexer dataset) in Hlen, Hm.
  destruct (folds_from_fold_indexer_is_Ok dataset (leave_one_out_indexer dataset))
    as [folds Hfolds]; [done|..].
  { intros [k l] (i & Hi & -> & ->)%Hm. simpl. split.
    - repeat constructor.
    - by repeat constructor. }
  exists folds. split; [done|].
  apply folds_from_fold_indexer_Ok_inv in Hfolds.
  split; [by rewrite <- (Forall2_length _ _ _ Hfolds)|].
  intros i x Hx.
  assert ((to_string i, [i]) ∈ leave_one_out_indexer dataset) as Hin.
  { apply Hm. exists i. split; [by eapply lookup_lt_Some|done]. }
  apply list_elem_of_lookup_1 in Hin as [j Hj].
  destruct (Forall2_lookup_l _ _ _ _ _ Hfolds Hj) as (fold & Hfold & Hpair).
  exists fold. split; [by eapply list_elem_of_lookup_2|].
  apply fold_from_pair_Ok_inv in Hpair as (_ & ? & ? & Htest & Htrain & _).
  split; [done|]. split; [done|]. simpl in *. split.
  - rewrite Htest. unfold elements_at. simpl. by rewrite Hx.
  - rewrite Htrain. apply elements_at_delete.
Qed.

(** X24: leave-one-group-out on a dataset whose targets are a valid distribution
    over its features returns one fold for every group name that some
    feature has, in the order of the names: the fold of a name tests on the
    features of that name, which are at least one, and trains on the
    features of the other names, both in the order of the dataset. *)
Theorem leave_one_group_out_folds dataset (get_group_name : FeatureType → FoldName) :
  Distribution.size (RegressionDataset.targets dataset)
    = Ok (length (RegressionDataset.features dataset)) →
  ∃ folds,
    leave_one_group_out dataset get_group_name = Ok folds ∧
    StronglySorted (λ a b, String.ltb a b = true) (RegressionFold.name <$> folds) ∧
    (∀ fold, fold ∈ folds →
       RegressionFold.test_indices fold
         = group_indices get_group_name (RegressionDataset.features dataset)
             (RegressionFold.name fold) ∧
       RegressionDataset.features (RegressionFold.test_dataset fold)
         = filter (λ x, get_group_name x = RegressionFold.name fold)
                  (RegressionDataset.features dataset) ∧
       RegressionDataset.features (RegressionFold.test_dataset fold) ≠ [] ∧
       RegressionDataset.features (RegressionFold.train_dataset fold)
         = filter (λ x, get_group_name x ≠ RegressionFold.name fold)
                  (RegressionDataset.features dataset)) ∧
    (∀ x, x ∈ RegressionDataset.features dataset →
       ∃ fold, fold ∈ folds ∧ RegressionFold.name fold = get_group_name x).
Proof.
  intros Hsize. unfold leave_one_group_out, leave_one_group_out_indexer. cbv zeta.
  destruct (leave_one_group_out_indexer_invariant get_group_name
              (RegressionDataset.features dataset)) as [Hs Hm].
  set (features := RegressionDataset.features dataset) in *.
  set (m := leave_one_group_out_indexer_features features get_group_name) in *.
  assert (∀ k i, i ∈ group_indices get_group_name features k
                 ↔ get_group_name <$> features !! i = Some k) as Hgroup.
  { intros k i. unfold group_indices. rewrite list_elem_of_filter, elem_of_seq.
    split; [by intros [? _]|]. intros Hi. split; [done|].
    destruct (features !! i) eqn:Hx; [|done]. apply lookup_lt_Some in Hx. lia. }
  destruct (folds_from_fold_indexer_is_Ok dataset m) as [folds Hfolds]; [done|..].
  { intros [k l] [-> _]%Hm. simpl. split.
    - apply filter_sorted, seq_sorted.
    - apply Forall_forall. intros i [_ [_ ?]%elem_of_seq]%list_elem_of_filter. done. }
  exists folds. split; [done|].
  apply folds_from_fold_indexer_Ok_inv in Hfolds.
  assert (Forall2 (λ pair fold, RegressionFold.name fold = pair.1) m folds) as Hnames.
  { eapply Forall2_impl; [exact Hfolds|]. intros pair fold Hfold.
    by apply fold_from_pair_Ok_inv in Hfold as (_ & ? & _). }
  split; [|split].
  - rewrite (fold_names _ _ Hnames).
    by apply (StronglySorted_fmap fst (λ e1 e2, String.ltb e1.1 e2.1 = true)).
  - intros fold [j Hj]%list_elem_of_lookup_1.
    destruct (Forall2_lookup_r _ _ _ _ _ Hfolds Hj) as ([k l] & Hpair & Hfold).
    apply list_elem_of_lookup_2, Hm in Hpair as [-> Hne].
    apply fold_from_pair_Ok_inv in Hfold
      as (_ & Hname & Hidx & Htest & Htrain & Hlen & _).
    simpl in *. fold features in Htest, Htrain. rewrite Hname.
    split; [done|]. split; [|split].
    + rewrite Htest. apply elements_at_filter. intros i x Hx. rewrite Hx.
      simpl. split; [by intros [= ?]|by intros ->].
    + intros Hnil. rewrite Hnil in Hlen. by destruct (group_indices _ _ _).
    + rewrite Htrain. apply elements_at_filter. intros i x Hx.
      rewrite Hgroup, Hx. simpl. split; intros Hne' Heq; apply Hne'; congruence.
  - intros x [i Hx]%list_elem_of_lookup_1.
    assert ((get_group_name x, group_indices get_group_name features (get_group_name x))
              ∈ m) as [j Hj]%list_elem_of_lookup_1.
    { apply Hm. split; [done|]. intros Hnil.
      assert (i ∈ group_indices get_group_name features (get_group_name x)) as Hi
        by (apply Hgroup; by rewrite Hx).
      rewrite Hnil in Hi. by apply elem_of_nil in Hi. }
    destruct (Forall2_lookup_l _ _ _ _ _ Hnames Hj) as (fold & Hfold & Hname).
    exists fold. split; [by eapply list_elem_of_lookup_2|done].
Qed.

End FoldProperties.

Section TestHelpers.

Lemma group_by_interval_names (x : double) :
  group_by_interval x ∈ ["1"; "2"; "3"]%string.
Proof.
  unfold group_by_interval.
  destruct (double_leb x _); [|destruct (double_leb x _)];
    rewrite !elem_of_cons; auto.
Qed.

Lemma string_ltb_antisym : AntiSymm (=) (λ a b : string, String.ltb a b = true).
Proof.
  intros a b Hab Hba. pose proof (string_ltb_trans _ _ _ Hab Hba) as Haa.
  by rewrite string_ltb_irrefl in Haa.
Qed.

Lemma string_sorted_NoDup (l : list string) :
  StronglySorted (λ a b, String.ltb a b = true) l → NoDup l.
Proof.
  induction 1 as [|a l _ IH Ha]; constructor; [|done].
  intros Hin. rewrite Forall_forall in Ha. specialize (Ha _ Hin).
  by rewrite string_ltb_irrefl in Ha.
Qed.

Lemma string_sorted_unique (l1 l2 : list string) :
  StronglySorted (λ a b, String.ltb a b = true) l1 →
  StronglySorted (λ a b, String.ltb a b = true) l2 →
  (∀ k, k ∈ l1 ↔ k ∈ l2) → l1 = l2.
Proof.
  intros H1 H2 Hmem.
  apply (@StronglySorted_unique _ (λ a b, String.ltb a b = true)
           string_ltb_antisym); [done..|].
  apply NoDup_Permutation; [by apply string_sorted_NoDup..|done].
Qed.

End TestHelpers.

Section GroupFolds.
Context {FeatureType : Type}.
Context (get_group_name : FeatureType → FoldName).

Lemma group_indices_elem_of (features : list FeatureType) (k : FoldName) (i : nat) :
  i ∈ group_indices get_group_name features k
  ↔ get_group_name <$> features !! i = Some k.
Proof.
  unfold group_indices. rewrite list_elem_of_filter, elem_of_seq.
  split; [by intros [? _]|]. intros Hi. split; [done|].
  destruct (features !! i) eqn:Hx; [|done]. apply lookup_lt_Some in Hx. lia.
Qed.

Lemma leave_one_group_out_names (dataset : RegressionDataset.t FeatureType) :
  Distribution.size (RegressionDataset.targets dataset)
    = Ok (length (RegressionDataset.features dataset)) →
  ∃ folds,
    leave_one_group_out dataset get_group_name = Ok folds ∧
    Forall2 (λ pair fold,
               fold_from_pair dataset (length (RegressionDataset.features dataset)) pair
               = Ok fold)
            (leave_one_group_out_indexer dataset get_group_name) folds ∧
    RegressionFold.name <$> folds
    = (leave_one_group_out_indexer dataset get_group_name).*1.
Proof.
  intros Hsize. unfold leave_one_group_out, leave_one_group_out_indexer. cbv zeta.
  destruct (leave_one_group_out_indexer_invariant get_group_name
              (RegressionDataset.features dataset)) as [Hs Hm].
  destruct (folds_from_fold_indexer_is_Ok dataset
              (leave_one_group_out_indexer_features
                 (RegressionDataset.features dataset) get_group_name))
    as [folds Hfolds]; [done|..].
  { intros [k l] [-> _]%Hm. simpl. split.
    - apply filter_sorted, seq_sorted.
    - apply Forall_forall. intros i [_ [_ ?]%elem_of_seq]%list_elem_of_filter. done. }
  exists folds. split; [done|].
  apply folds_from_fold_indexer_Ok_inv in Hfolds. split; [done|].
  apply fold_names. eapply Forall2_impl; [exact Hfolds|]. intros pair fold Hfold.
  by apply fold_from_pair_Ok_inv in Hfold as (_ & ? & _).
Qed.

Lemma leave_one_group_out_indexer_keys (features : list FeatureType) (k : FoldName) :
  k ∈ (leave_one_group_out_indexer_features features get_group_name).*1
  ↔ k ∈ get_group_name <$> features.
Proof.
  destruct (leave_one_group_out_indexer_invariant get_group_name features)
    as [_ Hm].
  rewrite !list_elem_of_fmap. split.
  - intros ([k' l] & -> & [-> Hne]%Hm). simpl.
    destruct (group_indices get_group_name features k') as [|i l] eqn:Hg; [done|].
    assert (i ∈ group_indices get_group_name features k') as Hi
      by (rewrite Hg; left).
    apply group_indices_elem_of in Hi.
    destruct (features !! i) as [x|] eqn:Hx; [|done]. injection Hi as <-.
    exists x. split; [done|]. by eapply list_elem_of_lookup_2.
  - intros (x & -> & [i Hx]%list_elem_of_lookup_1).
    exists (get_group_name x, group_indices get_group_name features (get_group_name x)).
    split; [done|]. apply Hm. split; [done|]. intros Hnil.
    assert (i ∈ group_indices get_group_name features (get_group_name x)) as Hi
      by (apply group_indices_elem_of; by rewrite Hx).
    rewrite Hnil in Hi. by apply elem_of_nil in Hi.
Qed.

End GroupFolds.

(** X25: leave-one-group-out with the grouper of the tests returns the folds
    named ["1"], ["2"], ["3"], in this order, leaving out the names that no
    feature has: the first fold is the one of the features above [6]
    whenever there is such a feature, and there are three folds when the
    features fall in all three intervals. *)
Theorem group_by_interval_fold_names (dataset : RegressionDataset.t double) :
  Distribution.size (RegressionDataset.targets dataset)
    = Ok (length (RegressionDataset.features dataset)) →
  ∃ folds,
    leave_one_group_out dataset group_by_interval = Ok folds ∧
    RegressionFold.name <$> folds
    = filter (λ k, k ∈ group_by_interval <$> RegressionDataset.features dataset)
             ["1"; "2"; "3"]%string.
Proof.
  intros Hsize.
  destruct (leave_one_group_out_names group_by_interval dataset Hsize)
    as (folds & Hfolds & _ & Hnames).
  exists folds. split; [done|]. rewrite Hnames.
  destruct (leave_one_group_out_indexer_invariant group_by_interval
              (RegressionDataset.features dataset)) as [Hs _].
  apply string_sorted_unique.
  - by apply (StronglySorted_fmap fst (λ e1 e2, String.ltb e1.1 e2.1 = true)).
  - apply filter_sorted. repeat constructor.
  - intros k. unfold leave_one_group_out_indexer.
    rewrite leave_one_group_out_indexer_keys, list_elem_of_filter.
    split; [|by intros [? _]]. intros Hk. split; [done|].
    apply list_elem_of_fmap in Hk as (x & -> & _). apply group_by_interval_names.
Qed.

(** X26: [is_monotonic_increasing] holds of every vector with at most one
    coefficient, and of a vector of any size whose coefficients are all
    [NAN]: a difference that is [NAN] is not [<= 0.]. *)
Theorem is_monotonic_increasing_edges (x : Eigen.VectorXd) :
  (Eigen.size x ≤ 1 → is_monotonic_increasing x = true) ∧
  ((∀ i, i < Eigen.size x → Eigen.coeff x i 0 = Double.NAN) →
   is_monotonic_increasing x = true).
Proof.
  unfold is_monotonic_increasing. split.
  - intros Hsize. by replace (Eigen.size x - 1) with 0 by lia.
  - intros Hnan. apply forallb_forall. intros i [_ Hi]%in_seq.
    by rewrite !Hnan by lia.
Qed.

(** ** Worked instances of the further properties *)

Lemma build_boundary_features_exact_witness :
  ∃ before after,
    [1; 2; 3] = before ++ 1 :: after ∧ 3 ∈ after ∧ 4%Z ∈ Fixture.midpoint 1 3.
Proof.
  apply (build_boundary_features_exact Fixture.midpoint [1; 2; 3]
           [as_boundary_feature 1 2 3%Z; as_boundary_feature 1 3 4%Z;
            as_boundary_feature 2 3 5%Z]
           eq_refl (as_boundary_feature 1 3 4%Z)).
  apply list_elem_of_In. simpl. auto.
Defined.

Lemma no_boundary_below_two_groups_witness :
  build_boundary_features Fixture.midpoint [1] = Err assertion_failure.
Proof.
  destruct (no_boundary_below_two_groups Nat.ltb Fixture.k Fixture.sign_functions
              (Fixture.identity_solve (S := unit)) Fixture.identity_solve)
    as [Hbuild _].
  apply (Hbuild Fixture.midpoint [1]). simpl. lia.
Defined.

Lemma sample_solver_runs :
  (out ← solver Fixture.scalar_solve Fixture.identity_solve
           Fixture.A2_factorized Fixture.A2 (Fixture.scalar 1) Fixture.B2;
   Ok (Grouped.keys out))
  = Ok [1; 2].
Proof. vm_compute. reflexivity. Qed.

Lemma solver_keys_witness :
  ∃ out,
    solver Fixture.scalar_solve Fixture.identity_solve
      Fixture.A2_factorized Fixture.A2 (Fixture.scalar 1) Fixture.B2 = Ok out ∧
    Grouped.keys out = Grouped.keys Fixture.A2 ∧
    Grouped.size Fixture.B2 = Grouped.size Fixture.A2 ∧ Fixture.A2 ≠ [] ∧
    ∀ key, key ∈ Grouped.keys Fixture.A2 →
      key ∈ Grouped.keys Fixture.B2 ∧ key ∈ Grouped.keys Fixture.A2_factorized.
Proof.
  pose proof sample_solver_runs as Hruns.
  destruct (solver Fixture.scalar_solve Fixture.identity_solve
              Fixture.A2_factorized Fixture.A2 (Fixture.scalar 1) Fixture.B2)
    as [out|e] eqn:Hsolver; [|discriminate].
  exists out. split; [reflexivity|].
  exact (solver_keys Fixture.scalar_solve Fixture.identity_solve
           Fixture.A2_factorized Fixture.A2 (Fixture.scalar 1) Fixture.B2 out Hsolver).
Defined.

Lemma predict_with_boundaries_shape_witness :
  ∃ d,
    _predict_impl Nat.ltb Fixture.k Fixture.sign_functions
      Fixture.identity_solve Fixture.identity_solve [(-3)%Z; 3%Z]
      Fixture.two_group_fit = Ok d ∧
    Eigen.rows (Distribution.mean d) = 2 ∧
    Eigen.cols (Distribution.mean d) = 1 ∧
    Eigen.rows (Distribution.covariance d) = 2 ∧
    Eigen.cols (Distribution.covariance d) = 2 ∧
    Distribution.size d = Ok 2.
Proof.
  pose proof two_group_prediction_runs as Hruns.
  destruct (_predict_impl Nat.ltb Fixture.k Fixture.sign_functions
              Fixture.identity_solve Fixture.identity_solve [(-3)%Z; 3%Z]
              Fixture.two_group_fit) as [d|e] eqn:Hpredict; [|discriminate].
  exists d. split; [reflexivity|].
  apply (predict_with_boundaries_shape Nat.ltb Fixture.k Fixture.sign_functions
           Fixture.identity_solve Fixture.identity_solve [(-3)%Z; 3%Z]
           Fixture.two_group_fit d).
  - vm_compute. lia.
  - exact Hpredict.
Defined.

Lemma subset_elements_witness :
  ∃ out,
    subset [2; 0] [10; 20; 30]%Z = Ok out ∧
    length out = 2 ∧
    ∀ i index, [2; 0] !! i = Some index → out !! i = [10; 20; 30]%Z !! index.
Proof.
  apply (subset_elements [2; 0] [10; 20; 30]%Z).
  repeat constructor; simpl; lia.
Defined.

Lemma subset_subset_witness :
  ∃ i12 out,
    subset [1; 1; 0] [2; 0] = Ok i12 ∧
    subset [1; 1; 0] [30; 10]%Z = Ok out ∧
    subset i12 [10; 20; 30]%Z = Ok out.
Proof.
  apply (subset_subset [1; 1; 0] [2; 0] [10; 20; 30]%Z [30; 10]%Z).
  - reflexivity.
  - repeat constructor; simpl; lia.
Defined.

Lemma subset_MatrixXd_returns_iff_witness :
  ∃ out,
    subset_MatrixXd [1; 0] [2] Sample.M23 = Ok out ∧
    Eigen.rows out = 2 ∧ Eigen.cols out = 1 ∧
    Eigen.coeff out 0 0 = Double.of_int 12 ∧
    Eigen.coeff out 1 0 = Double.of_int 2.
Proof.
  destruct (subset_MatrixXd_returns_iff [1; 0] [2] Sample.M23) as [Hiff Hout].
  destruct (proj2 Hiff) as [out Hsubset].
  { right. right. split; repeat constructor; simpl; lia. }
  exists out. split; [exact Hsubset|].
  destruct (Hout out Hsubset) as (Hrows & Hcols & Hentries).
  split; [exact Hrows|]. split; [exact Hcols|]. split.
  - exact (Hentries 0 0 1 2 eq_refl eq_refl).
  - exact (Hentries 1 0 0 2 eq_refl eq_refl).
Defined.

Lemma symmetric_subset_symmetric_witness :
  (∃ out,
     symmetric_subset [2; 0] Sample.S3 = Ok out ∧
     Eigen.rows out = 2 ∧ Eigen.cols out = 2 ∧
     ∀ i j, i < 2 → j < 2 → Eigen.coeff out i j = Eigen.coeff out j i) ∧
  symmetric_subset [0] Sample.M23 = Err assertion_failure.
Proof.
  split.
  - destruct (symmetric_subset_symmetric [2; 0] Sample.S3) as [Hsquare _].
    destruct Hsquare as (out & Hout & Hrows & Hcols & Hsym);
      [reflexivity|repeat constructor; simpl; lia|].
    exists out. split; [exact Hout|]. split; [exact Hrows|]. split; [exact Hcols|].
    apply Hsym. intros r c _ _. simpl. by rewrite Nat.add_comm.
  - destruct (symmetric_subset_symmetric [0] Sample.M23) as [_ Hfails].
    apply Hfails. simpl. lia.
Defined.

Lemma subset_cols_all_rows_witness :
  ∃ a b,
    subset_cols [2; 0] Sample.M23 = Ok a ∧
    subset_MatrixXd (seq 0 (Eigen.rows Sample.M23)) [2; 0] Sample.M23 = Ok b ∧
    Eigen.mat_eq a b.
Proof.
  apply (subset_cols_all_rows [2; 0] Sample.M23).
  repeat constructor; simpl; lia.
Defined.

Lemma get_diagonal_bounds_witness :
  Distribution.get_diagonal Sample.joint3 1 = Ok (Double.of_int 2) ∧
  Distribution.get_diagonal Sample.joint3 3 = Err assertion_failure ∧
  Distribution.get_diagonal Sample.joint3 (-1) = Err assertion_failure.
Proof.
  split; [|split].
  - destruct (get_diagonal_bounds Sample.joint3 3 1) as [Hin _];
      [reflexivity|vm_compute; lia|].
    etransitivity; [apply Hin; lia|]. reflexivity.
  - destruct (get_diagonal_bounds Sample.joint3 3 3) as [_ Hout];
      [reflexivity|vm_compute; lia|].
    apply Hout. lia.
  - destruct (get_diagonal_bounds Sample.joint3 3 (-1)) as [_ Hout];
      [reflexivity|vm_compute; lia|].
    apply Hout. lia.
Defined.

Lemma subset_Distribution_entries_witness :
  ∃ d',
    subset_Distribution [2; 0] Sample.joint3 = Ok d' ∧
    Distribution.size d' = Ok 2 ∧
    ∀ i index, [2; 0] !! i = Some index →
      VectorXd_at (Distribution.mean d') i
        = VectorXd_at (Distribution.mean Sample.joint3) index ∧
      Distribution.get_diagonal d' (Z.of_nat i)
        = Distribution.get_diagonal Sample.joint3 (Z.of_nat index).
Proof.
  apply (subset_Distribution_entries Sample.joint3 3 [2; 0]).
  - reflexivity.
  - vm_compute. lia.
  - repeat constructor; simpl; lia.
Defined.

Lemma sample_subset_mean_only_runs :
  (d' ← subset_Distribution [1] Fixture.mean_only2;
   Ok (Eigen.rows (Distribution.mean d')))
  = Ok 1.
Proof. vm_compute. reflexivity. Qed.

Lemma subset_Distribution_without_covariance_witness :
  (∃ d', subset_Distribution [] Sample.joint3 = Ok d' ∧
         Distribution.has_covariance d' = Ok false ∧
         Distribution.size d' = Ok 0 ∧
         ∀ i, Distribution.get_diagonal d' i = Ok Double.NAN) ∧
  (∃ d', subset_Distribution [1] Fixture.mean_only2 = Ok d' ∧
         Distribution.has_covariance d' = Ok false ∧
         Distribution.size d' = Ok 1 ∧
         ∀ i, Distribution.get_diagonal d' i = Ok Double.NAN).
Proof.
  split.
  - destruct (subset_Distribution_without_covariance Sample.joint3) as [Hempty _].
    apply (Hempty 3). reflexivity.
  - destruct (subset_Distribution_without_covariance Fixture.mean_only2)
      as [_ Hnone].
    pose proof sample_subset_mean_only_runs as Hruns.
    destruct (subset_Distribution [1] Fixture.mean_only2) as [d'|e] eqn:Hsubset;
      [|discriminate].
    exists d'. split; [reflexivity|].
    apply (Hnone [1] d'); [reflexivity|exact Hsubset].
Defined.

Lemma Distribution_equal_false_witness :
  Distribution_equal Fixture.joint2 Sample.nan_mean = Ok false ∧
  Distribution_equal Sample.nan_mean Sample.nan_mean = Ok false.
Proof.
  split.
  - destruct (Distribution_equal_false Fixture.joint2 Sample.nan_mean 0 0)
      as [Hdiffer _].
    apply Hdiffer; [reflexivity|reflexivity|simpl; lia|simpl; lia|reflexivity].
  - destruct (Distribution_equal_false Sample.nan_mean Sample.nan_mean 1 0)
      as [_ Hnan].
    apply Hnan; [simpl; lia|simpl; lia|reflexivity].
Defined.

Lemma indices_complement_members_witness :
  (2 ∈ indices_complement [1; 3] 5 ↔ 2 < 5 ∧ 2 ∉ [1; 3]) ∧
  (3 ∈ indices_complement [1; 3] 5 ↔ 3 < 5 ∧ 3 ∉ [1; 3]).
Proof.
  destruct (indices_complement_members [1; 3] 5) as (_ & _ & Hsorted).
  split; apply Hsorted; repeat constructor; lia.
Defined.

Lemma folds_from_fold_indexer_returns_iff_witness :
  (∃ folds, folds_from_fold_indexer Sample.dataset4 Sample.two_folds = Ok folds)
  ↔ Forall (λ pair, valid_fold_indices 4 pair.2) Sample.two_folds.
Proof.
  apply (folds_from_fold_indexer_returns_iff Sample.dataset4 Sample.two_folds).
  vm_compute. reflexivity.
Defined.

Lemma sample_two_folds_valid (pair : FoldName * FoldIndices) :
  pair ∈ Sample.two_folds → valid_fold_indices 4 pair.2.
Proof.
  intros [->|[->|[]%elem_of_nil]%elem_of_cons]%elem_of_cons;
    split; repeat constructor; simpl; lia.
Qed.

Lemma folds_from_fold_indexer_folds_witness :
  ∃ folds,
    folds_from_fold_indexer Sample.dataset4 Sample.two_folds = Ok folds ∧
    Forall2
      (λ pair fold,
         RegressionFold.name fold = pair.1 ∧
         RegressionFold.test_indices fold = pair.2 ∧
         RegressionDataset.features (RegressionFold.test_dataset fold)
           = elements_at (RegressionDataset.features Sample.dataset4) pair.2 ∧
         RegressionDataset.features (RegressionFold.train_dataset fold)
           = elements_at (RegressionDataset.features Sample.dataset4)
               (filter (λ i, i ∉ pair.2)
                       (seq 0 (length (RegressionDataset.features Sample.dataset4)))) ∧
         length (RegressionDataset.features (RegressionFold.test_dataset fold))
           + length (RegressionDataset.features (RegressionFold.train_dataset fold))
           = length (RegressionDataset.features Sample.dataset4) ∧
         Distribution.size (RegressionDataset.targets (RegressionFold.test_dataset fold))
           = Ok (length (RegressionDataset.features (RegressionFold.test_dataset fold))) ∧
         Distribution.size (RegressionDataset.targets (RegressionFold.train_dataset fold))
           = Ok (length (RegressionDataset.features (RegressionFold.train_dataset fold))))
      Sample.two_folds folds.
Proof.
  destruct (folds_from_fold_indexer_is_Ok Sample.dataset4 Sample.two_folds)
    as [folds Hfolds]; [vm_compute; reflexivity|exact sample_two_folds_valid|].
  exists folds. split; [exact Hfolds|].
  exact (folds_from_fold_indexer_folds Sample.dataset4 Sample.two_folds folds Hfolds).
Defined.

Lemma leave_one_out_folds_witness :
  ∃ folds,
    leave_one_out Sample.dataset4 = Ok folds ∧
    length folds = 4 ∧
    ∀ i x, RegressionDataset.features Sample.dataset4 !! i = Some x →
      ∃ fold, fold ∈ folds ∧
        RegressionFold.name fold = to_string i ∧
        RegressionFold.test_indices fold = [i] ∧
        RegressionDataset.features (RegressionFold.test_dataset fold) = [x] ∧
        RegressionDataset.features (RegressionFold.train_dataset fold)
          = delete i (RegressionDataset.features Sample.dataset4).
Proof.
  apply (leave_one_out_folds Sample.dataset4). vm_compute. reflexivity.
Defined.

Lemma leave_one_group_out_folds_witness :
  ∃ folds,
    leave_one_group_out Sample.dataset4 group_by_interval = Ok folds ∧
    StronglySorted (λ a b, String.ltb a b = true) (RegressionFold.name <$> folds) ∧
    (∀ fold, fold ∈ folds →
       RegressionFold.test_indices fold
         = group_indices group_by_interval (RegressionDataset.features Sample.dataset4)
             (RegressionFold.name fold) ∧
       RegressionDataset.features (RegressionFold.test_dataset fold)
         = filter (λ x, group_by_interval x = RegressionFold.name fold)
                  (RegressionDataset.features Sample.dataset4) ∧
       RegressionDataset.features (RegressionFold.test_dataset fold) ≠ [] ∧
       RegressionDataset.features (RegressionFold.train_dataset fold)
         = filter (λ x, group_by_interval x ≠ RegressionFold.name fold)
                  (RegressionDataset.features Sample.dataset4)) ∧
    (∀ x, x ∈ RegressionDataset.features Sample.dataset4 →
       ∃ fold, fold ∈ folds ∧ RegressionFold.name fold = group_by_interval x).
Proof.
  apply (leave_one_group_out_folds Sample.dataset4 group_by_interval).
  vm_compute. reflexivity.
Defined.

Lemma group_by_interval_fold_names_witness :
  ∃ folds,
    leave_one_group_out Sample.dataset4 group_by_interval = Ok folds ∧
    RegressionFold.name <$> folds = ["1"; "2"; "3"]%string.
Proof.
  destruct (group_by_interval_fold_names Sample.dataset4) as (folds & Hfolds & Hnames);
    [vm_compute; reflexivity|].
  exists folds. split; [exact Hfolds|].
  etransitivity; [exact Hnames|]. vm_compute. reflexivity.
Defined.

Lemma is_monotonic_increasing_edges_witness :
  is_monotonic_increasing (Fixture.scalar 5) = true ∧
  is_monotonic_increasing (Distribution.mean Sample.nan_mean) = true.
Proof.
  split.
  - destruct (is_monotonic_increasing_edges (Fixture.scalar 5)) as [Hshort _].
    apply Hshort. vm_compute. lia.
  - destruct (is_monotonic_increasing_edges (Distribution.mean Sample.nan_mean))
      as [_ Hnan].
    apply Hnan. intros i _. reflexivity.
Defined.
